(** * TTRPG GM Tools worker: the generator engine of
      cloudflare-mcp-server/src/index.js, embedded and verified.

    The seven tools of the [tools] object are translated one by one.  A tool is
    an [async] function that awaits [fetchData], reads the parsed table with
    duck-typed property accesses, calls [Math.random] and returns a record or
    throws.  The embedding keeps all of that visible:

    - a JavaScript value is a term of [value]; a number is [NaN] or a finite
      binary64 value, held as the rational it denotes; multiplication and
      addition round to the nearest binary64 value as the engine does
      ([Binary64.round]); the infinities and the negative zero are not
      represented;
    - a string is a sequence of ASCII characters, so that its code units are
      its characters;
    - an object is the list of its own properties in enumeration order, an
      array the list of its elements;
    - a tool runs in the monad [M]: it reads the successive results of
      [Math.random] from a stream, counts the draws it has consumed, and ends
      with [Return], with [Throw] (a rejected promise), or with [Unmodelled]
      when the run needs a part of the language that is not represented here
      (a member inherited from a prototype, the conversion of a string or an
      object to a number);
    - arguments have the types the tool schema declares: strings for the
      keys, an integer [count], a number [cr]; [level] is only copied and may
      be any value.

    [handleMCPRequest] and the [fetch] handler of the worker are translated
    after the tools.  The functions of the [tools] object take the
    [arguments] of a call as a value and bind the parameters from it;
    [JSON.stringify] is translated for the values of the embedding; the text
    of [error.message] for an error that the engine raises is a parameter.

    The module [Store] translates the tools a second time, over a store of
    cells with references, for the statement that a tool does not write to
    the table it fetched.  The two translations agree on every call
    ([run_agrees]): same kind of outcome, same number of draws, and the
    result in the store stands for the result as a tree.

    The definitions come first: the values and primitives, the tools, the
    vocabulary of the statements, the handler and the worker, the store, the
    relation between the two translations and the sample tables.  The facts
    follow, one part for each tool, then the handler and the worker. *)

From stdpp Require Import base option list strings pretty gmap.
From Stdlib Require Import Ascii QArith Qround Qpower Qreduction Lqa Lia.

Set Warnings "-register-all".

Close Scope Q_scope.
Local Open Scope string_scope.
Local Open Scope list_scope.

(** ** Numbers *)

(** The numbers of the engine are the binary64 values.  A finite one is
    the rational it denotes; an arithmetic operation gives the binary64
    value nearest to the exact result, a tie going to the even significand.
    A result beyond the largest finite value, which the engine replaces by
    an infinity, is not represented. *)
Module Binary64.

Definition pow2 (e : Z) : Q := (2 ^ e)%Q.

(** The integer part of the binary logarithm of a positive number. *)
Definition exponent (x : Q) : Z :=
  let d := (Z.log2 (Qnum x) - Z.log2 (Zpos (Qden x)))%Z in
  if Qle_bool (pow2 d) x then d else (d - 1)%Z.

(** The nearest integer, a tie going to the even one. *)
Definition half_even (y : Q) : Z :=
  let f := Qfloor y in
  match (y - inject_Z f ?= 1 # 2)%Q with
  | Lt => f
  | Gt => (f + 1)%Z
  | Eq => if Z.even f then f else (f + 1)%Z
  end.

(** The binary place of the last of the 53 digits of the significand,
    which among the subnormal numbers is the place of the least positive
    value. *)
Definition scale (x : Q) : Z := Z.max (exponent x - 52) (-1074).

Definition quantum (x : Q) : Q := pow2 (scale x).

(** The nearest multiple of the quantum of a positive number. *)
Definition nearest (x : Q) : Q :=
  (inject_Z (half_even (x / quantum x)) * quantum x)%Q.

Definition round (x : Q) : Q :=
  Qred match (x ?= 0)%Q with
       | Eq => 0
       | Gt => nearest (Qred x)
       | Lt => - nearest (Qred (- x))
       end%Q.

(** Half the distance from one to the binary64 value below it. *)
Definition epsilon : Q := pow2 (-53).

(** [Number.MAX_VALUE] *)
Definition max_value : Q := inject_Z ((2 ^ 53 - 1) * 2 ^ 971).

End Binary64.

Inductive number :=
  | NaN
  | Num (q : Q).

Definition of_Z (z : Z) : number := Num (inject_Z z).
Definition of_nat (n : nat) : number := of_Z (Z.of_nat n).

Module Number.

(** [a * b] *)
Definition mul (a b : number) : number :=
  match a, b with
  | Num x, Num y => Num (Binary64.round (x * y))
  | _, _ => NaN
  end.

(** [a + b] *)
Definition add (a b : number) : number :=
  match a, b with
  | Num x, Num y => Num (Binary64.round (x + y))
  | _, _ => NaN
  end.

(** [Math.floor] *)
Definition floor (a : number) : number :=
  match a with
  | Num x => of_Z (Qfloor x)
  | NaN => NaN
  end.

(** [a < b]; a comparison with [NaN] is false. *)
Definition lt (a b : number) : bool :=
  match a, b with
  | Num x, Num y => negb (Qle_bool y x)
  | _, _ => false
  end.

(** [a >= b] *)
Definition ge (a b : number) : bool :=
  match a, b with
  | Num x, Num y => Qle_bool y x
  | _, _ => false
  end.

(** [a === b] on two numbers *)
Definition eq (a b : number) : bool :=
  match a, b with
  | Num x, Num y => Qeq_bool x y
  | _, _ => false
  end.

(** [Math.min] on two numbers *)
Definition min (a b : number) : number :=
  match a, b with
  | Num x, Num y => if Qle_bool x y then Num x else Num y
  | _, _ => NaN
  end.

(** The integer a number denotes, when it denotes one. *)
Definition to_Z (a : number) : option Z :=
  match a with
  | Num x => if Qeq_bool x (inject_Z (Qfloor x)) then Some (Qfloor x) else None
  | NaN => None
  end.

End Number.

(** ** Values *)

Inductive value :=
  | VUndefined
  | VNull
  | VBool (b : bool)
  | VNum (n : number)
  | VStr (s : string)
  | VArr (elems : list value)
  | VObj (props : list (string * value)).

Definition is_primitive (v : value) : bool :=
  match v with
  | VArr _ | VObj _ => false
  | _ => true
  end.

(** ToBoolean *)
Definition truthy (v : value) : bool :=
  match v with
  | VUndefined | VNull => false
  | VBool b => b
  | VNum NaN => false
  | VNum (Num q) => negb (Qeq_bool q 0)
  | VStr s => negb (String.eqb s "")
  | VArr _ | VObj _ => true
  end.

(** [a || b] *)
Definition or_else (a b : value) : value := if truthy a then a else b.

(** [v === n] against a number. *)
Definition strict_eq_number (v : value) (n : number) : bool :=
  match v with
  | VNum m => Number.eq m n
  | _ => false
  end.

(** ** Outcomes *)

Inductive exn :=
  | Error (message : string)
  | SyntaxError
  | TypeError.

Inductive outcome (A : Type) :=
  | Return (a : A)
  | Throw (e : exn)
  | Unmodelled.
Arguments Return {A} a.
Arguments Throw {A} e.
Arguments Unmodelled {A}.

(** ToNumber.  A string, an array or an object is converted through its text,
    which is not represented. *)
Definition to_number (v : value) : outcome number :=
  match v with
  | VUndefined => Return NaN
  | VNull => Return (of_Z 0)
  | VBool b => Return (of_Z (if b then 1 else 0))
  | VNum n => Return n
  | VStr _ | VArr _ | VObj _ => Unmodelled
  end.

(** ** Property keys *)

Definition digit_of (c : ascii) : option N :=
  let n := N_of_ascii c in
  if (48 <=? n)%N && (n <=? 57)%N then Some (n - 48)%N else None.

Fixpoint digits_value (s : string) (acc : N) : option N :=
  match s with
  | EmptyString => Some acc
  | String c r =>
      match digit_of c with
      | Some d => digits_value r (10 * acc + d)%N
      | None => None
      end
  end.

(** An array index is the canonical decimal numeral of an integer below
    2^32 - 1. *)
Definition array_index (k : string) : option nat :=
  match k with
  | EmptyString => None
  | _ =>
      match digits_value k 0 with
      | Some n =>
          if String.eqb (pretty n) k && (n <? 4294967295)%N
          then Some (N.to_nat n) else None
      | None => None
      end
  end.

(** ToPropertyKey on a number: defined here for [NaN] and for the integers
    that print in plain decimal notation. *)
Definition key_of_number (n : number) : option string :=
  match n with
  | NaN => Some "NaN"
  | Num _ =>
      match Number.to_Z n with
      | Some z =>
          if (Z.abs z <? 10 ^ 21)%Z then Some (pretty z) else None
      | None => None
      end
  end.

(** Members of [Object.prototype]: reading one of them from an object that
    does not own it yields a built-in function. *)
Definition inherited (k : string) : bool :=
  bool_decide (k ∈ [ "constructor"; "hasOwnProperty"; "isPrototypeOf";
                     "propertyIsEnumerable"; "toLocaleString"; "toString";
                     "valueOf"; "__proto__"; "__defineGetter__";
                     "__defineSetter__"; "__lookupGetter__";
                     "__lookupSetter__" ]).

Fixpoint own_prop {V : Type} (k : string) (ps : list (string * V)) : option V :=
  match ps with
  | [] => None
  | (k', v) :: r => if String.eqb k' k then Some v else own_prop k r
  end.

Definition chars (s : string) : list value :=
  (fun c => VStr (String c EmptyString)) <$> String.list_ascii_of_string s.

(** The indexed elements of an array or of a string. *)
Definition elements (v : value) : option (list value) :=
  match v with
  | VArr l => Some l
  | VStr s => Some (chars s)
  | _ => None
  end.

(** [v[k]] and [v.k].  Outside objects only [length] and the indices are
    read here; any other key may name a method of the prototype. *)
Definition get (v : value) (k : string) : outcome value :=
  match v with
  | VUndefined | VNull => Throw TypeError
  | VObj ps =>
      match own_prop k ps with
      | Some x => Return x
      | None => if inherited k then Unmodelled else Return VUndefined
      end
  | VArr _ | VStr _ | VBool _ | VNum _ =>
      if String.eqb k "length" then
        Return (match elements v with
                | Some l => VNum (of_nat (length l))
                | None => VUndefined
                end)
      else if String.eqb k "NaN" then Return VUndefined
      else match array_index k with
           | Some i => Return (default VUndefined (default [] (elements v) !! i))
           | None => Unmodelled
           end
  end.

(** [v?.[k]] *)
Definition get_opt (v : value) (k : string) : outcome value :=
  match v with
  | VUndefined | VNull => Return VUndefined
  | _ => get v k
  end.

(** [v[n]] with a computed numeric key.  No prototype has a member named by
    a numeral, so outside objects the read finds an element or nothing. *)
Definition get_at (v : value) (n : number) : outcome value :=
  match v with
  | VUndefined | VNull => Throw TypeError
  | VObj ps =>
      match key_of_number n with
      | Some k => Return (default VUndefined (own_prop k ps))
      | None => Unmodelled
      end
  | VArr _ | VStr _ | VBool _ | VNum _ =>
      match Number.to_Z n with
      | Some z =>
          if (0 <=? z)%Z
          then Return (default VUndefined (default [] (elements v) !! Z.to_nat z))
          else Return VUndefined
      | None => Return VUndefined
      end
  end.

(** ** Own enumerable properties, in enumeration order *)

Definition indexed_props (l : list value) : list (string * value) :=
  imap (fun i x => (pretty (N.of_nat i), x)) l.

(** What [Object.entries(v)] lists and what [{...v}] copies. *)
Definition entries (v : value) : list (string * value) :=
  match v with
  | VObj ps => ps
  | VArr l => indexed_props l
  | VStr s => indexed_props (chars s)
  | _ => []
  end.

Definition has_prop {V : Type} (k : string) (ps : list (string * V)) : bool :=
  bool_decide (is_Some (own_prop k ps)).

Fixpoint replace_prop {V : Type} (k : string) (v : V) (ps : list (string * V))
  : list (string * V) :=
  match ps with
  | [] => []
  | (k', v') :: r =>
      if String.eqb k' k then (k, v) :: r else (k', v') :: replace_prop k v r
  end.

(** Index keys are enumerated first, in increasing order. *)
Fixpoint insert_index {V : Type} (i : nat) (k : string) (v : V)
    (ps : list (string * V)) : list (string * V) :=
  match ps with
  | [] => [(k, v)]
  | (k', v') :: r =>
      match array_index k' with
      | Some j => if (j <? i)%nat then (k', v') :: insert_index i k v r
                  else (k, v) :: ps
      | None => (k, v) :: ps
      end
  end.

(** CreateDataProperty: an own property keeps its place, a new one is
    enumerated after the existing ones of its kind. *)
Definition define_prop {V : Type} (k : string) (v : V) (ps : list (string * V))
  : list (string * V) :=
  if has_prop k ps then replace_prop k v ps
  else match array_index k with
       | Some i => insert_index i k v ps
       | None => ps ++ [(k, v)]
       end.

(** [{...ps, ...v}] *)
Definition spread_into (ps : list (string * value)) (v : value)
  : list (string * value) :=
  fold_left (fun acc kv => define_prop kv.1 kv.2 acc) (entries v) ps.

(** [o[k] = v] on a plain object and a primitive [v]: writing [__proto__]
    calls the inherited setter, which ignores a primitive. *)
Definition assign_prop {V : Type} (k : string) (v : V) (ps : list (string * V))
  : list (string * V) :=
  if String.eqb k "__proto__" && negb (has_prop k ps) then ps
  else define_prop k v ps.

(** ** Strings *)

(** [s.split(sep)] for a separator of one character. *)
Fixpoint split (sep : ascii) (s : string) : list string :=
  match s with
  | EmptyString => [ "" ]
  | String c r =>
      if Ascii.eqb c sep then "" :: split sep r
      else match split sep r with
           | h :: t => String c h :: t
           | [] => [ String c "" ]
           end
  end.

(** [v.split('d')]: only a string has the method. *)
Definition split_d (v : value) : outcome (list value) :=
  match v with
  | VStr s => Return (VStr <$> split "d" s)
  | _ => Throw TypeError
  end.

Definition is_space (c : ascii) : bool :=
  let n := N_of_ascii c in
  ((9 <=? n) && (n <=? 13) || (n =? 32))%N.

Fixpoint trim_start (s : string) : string :=
  match s with
  | String c r => if is_space c then trim_start r else s
  | EmptyString => s
  end.

Definition radix_digit (radix : N) (c : ascii) : option N :=
  let n := N_of_ascii c in
  let d := if ((48 <=? n) && (n <=? 57))%N then Some (n - 48)%N
           else if ((97 <=? n) && (n <=? 122))%N then Some (n - 87)%N
           else if ((65 <=? n) && (n <=? 90))%N then Some (n - 55)%N
           else None in
  match d with
  | Some x => if (x <? radix)%N then Some x else None
  | None => None
  end.

(** The value of the longest prefix of digits, if it is not empty. *)
Fixpoint leading_digits (radix : N) (s : string) (acc : option N) : option N :=
  match s with
  | String c r =>
      match radix_digit radix c with
      | Some d => leading_digits radix r (Some (radix * default 0 acc + d)%N)
      | None => acc
      end
  | EmptyString => acc
  end.

(** [parseInt(s)] without a radix: leading white space, a sign, the prefix
    of a hexadecimal numeral, then the digits. *)
Definition parseInt_string (s : string) : number :=
  let s := trim_start s in
  let '(negative, s) :=
    match s with
    | String c r =>
        if Ascii.eqb c "-" then (true, r)
        else if Ascii.eqb c "+" then (false, r)
        else (false, s)
    | EmptyString => (false, s)
    end in
  let '(radix, s) :=
    match s with
    | String c0 (String c1 r) =>
        if Ascii.eqb c0 "0" && (Ascii.eqb c1 "x" || Ascii.eqb c1 "X")
        then (16%N, r) else (10%N, s)
    | _ => (10%N, s)
    end in
  match leading_digits radix s None with
  | Some n => of_Z (if negative then - Z.of_N n else Z.of_N n)
  | None => NaN
  end.

(** [parseInt(v)]: the argument is converted to a string first. *)
Definition parseInt (v : value) : outcome number :=
  match v with
  | VStr s => Return (parseInt_string s)
  | VUndefined | VNull | VBool _ => Return NaN
  | VNum _ | VArr _ | VObj _ => Unmodelled
  end.

(** ToString, as a template literal applies it. *)
Definition to_string (v : value) : outcome string :=
  match v with
  | VStr s => Return s
  | VUndefined => Return "undefined"
  | VNull => Return "null"
  | VBool b => Return (if b then "true" else "false")
  | VNum n =>
      match key_of_number n with
      | Some k => Return k
      | None => Unmodelled
      end
  | VArr _ | VObj _ => Unmodelled
  end.

(** An optional string argument as a value, and in a template literal. *)
Definition of_option (s : option string) : value :=
  match s with
  | Some x => VStr x
  | None => VUndefined
  end.

Definition shown (s : option string) : string := default "undefined" s.

(** ** The data fetcher *)

Record response := { ok : bool; statusText : string; json : option value }.

(** What the remote store answers to a URL; [None] when the request itself
    fails.  [json] is [None] when the body is not JSON. *)
Definition network := string -> option response.

Definition fetchData (net : network) (filename : string) : outcome value :=
  match net ("https://ttrpg-mcp.tedt.org/data/" +:+ filename) with
  | None => Throw TypeError
  | Some response =>
      if negb (ok response) then
        Throw (Error ("Failed to fetch " +:+ filename +:+ ": "
                        +:+ statusText response))
      else match json response with
           | Some data => Return data
           | None => Throw SyntaxError
           end
  end.

(** ** The monad of a tool run *)

(** The successive results of [Math.random()]. *)
Definition source := nat -> Q.

(** A run starts with the number of draws consumed so far and ends with the
    new count. *)
Definition M (A : Type) : Type := nat -> outcome (A * nat).

Definition ret {A} (a : A) : M A := fun n => Return (a, n).

Definition bind {A B} (m : M A) (f : A -> M B) : M B :=
  fun n =>
    match m n with
    | Return (a, n') => f a n'
    | Throw e => Throw e
    | Unmodelled => Unmodelled
    end.

Definition lift {A} (o : outcome A) : M A :=
  fun n =>
    match o with
    | Return a => Return (a, n)
    | Throw e => Throw e
    | Unmodelled => Unmodelled
    end.

(** Sequencing inside one expression, where no draw happens. *)
Definition and_then {A B} (o : outcome A) (f : A -> outcome B) : outcome B :=
  match o with
  | Return a => f a
  | Throw e => Throw e
  | Unmodelled => Unmodelled
  end.

Declare Scope outcome_scope.
Delimit Scope outcome_scope with outcome.
Notation "x <- m ;; k" := (and_then m (fun x => k))
  (at level 100, m at next level, right associativity) : outcome_scope.

(** [data.top[k1]?.[k2]] *)
Definition nested (data : value) (top k1 k2 : string) : outcome value :=
  (table <- get data top ;;
   entry <- get table k1 ;;
   get_opt entry k2)%outcome.

Declare Scope tool_scope.
Delimit Scope tool_scope with tool.
Notation "x <- m ;; k" := (bind m (fun x => k))
  (at level 100, m at next level, right associativity) : tool_scope.
Local Open Scope tool_scope.

(** The number of rounds of [for (let i = 0; i < bound; i++)]. *)
Definition rounds (bound : number) : nat :=
  match bound with
  | Num q => Z.to_nat (Qceiling q)
  | NaN => 0
  end.

(** ** Tool implementations *)

Section Tools.

Variable net : network.
Variable rnd : source.

Definition fetch (filename : string) : M value := lift (fetchData net filename).

(** [Math.random()] *)
Definition random : M number := fun n => Return (Num (rnd n), S n).

(** [Math.floor(Math.random() * xs.length)] *)
Definition pick_index (xs : value) : M number :=
  r <- random ;;
  len <- lift (get xs "length") ;;
  len <- lift (to_number len) ;;
  ret (Number.floor (Number.mul r len)).

(** [xs[Math.floor(Math.random() * xs.length)]] *)
Definition pick (xs : value) : M value :=
  i <- pick_index xs ;;
  lift (get_at xs i).

Definition generate_encounter (level : value) (environment : string)
    (difficulty : option string) : M value :=
  let difficulty := default "medium" difficulty in
  data <- fetch "encounters.json" ;;
  found <- lift (nested data "encounters" environment difficulty) ;;
  let encounters := or_else found (VArr []) in
  len <- lift (get encounters "length") ;;
  if strict_eq_number len (of_Z 0) then
    ret (VObj [ ("error", VStr ("No encounters found for " +:+ environment
                                  +:+ " / " +:+ difficulty)) ])
  else
    encounter <- pick encounters ;;
    ret (VObj (spread_into [ ("environment", VStr environment);
                             ("difficulty", VStr difficulty);
                             ("partyLevel", level) ] encounter)).

Definition generate_npc_name (race gender : string) : M value :=
  data <- fetch "names.json" ;;
  found <- lift (nested data "names" race gender) ;;
  let names := or_else found (VArr []) in
  len <- lift (get names "length") ;;
  if strict_eq_number len (of_Z 0) then
    ret (VObj [ ("error", VStr ("No names found for " +:+ race
                                  +:+ " / " +:+ gender)) ])
  else
    name <- pick names ;;
    ret (VObj [ ("name", name); ("race", VStr race); ("gender", VStr gender) ]).

Definition generate_location_name (type : string) : M value :=
  data <- fetch "locations.json" ;;
  table <- lift (get data "locations") ;;
  location <- lift (get table type) ;;
  if negb (truthy location) then
    ret (VObj [ ("error", VStr ("No location type found: " +:+ type)) ])
  else
    prefixes <- lift (get location "prefixes") ;;
    prefix <- pick prefixes ;;
    suffixes <- lift (get location "suffixes") ;;
    suffix <- pick suffixes ;;
    prefix <- lift (to_string prefix) ;;
    suffix <- lift (to_string suffix) ;;
    ret (VObj [ ("name", VStr (prefix +:+ " " +:+ suffix));
                ("type", VStr type) ]).

(** [[...v]] inside an array literal: [v] has to be iterable. *)
Definition iterate (v : value) : outcome (list value) :=
  match elements v with
  | Some l => Return l
  | None => Throw TypeError
  end.

(** SameValueZero, which [includes] compares with.  An entry of [selected]
    is kept with the index it was read at: the arrays and objects of a
    parsed table are all distinct, so two of them are the same object
    exactly when they sit at the same index of the pool. *)
Definition same_value_zero (a b : number * value) : bool :=
  match a.2, b.2 with
  | VUndefined, VUndefined | VNull, VNull => true
  | VBool x, VBool y => Bool.eqb x y
  | VNum NaN, VNum NaN => true
  | VNum (Num x), VNum (Num y) => Qeq_bool x y
  | VStr x, VStr y => String.eqb x y
  | VArr _, VArr _ | VObj _, VObj _ => Number.eq a.1 b.1
  | _, _ => false
  end.

(** [selected.includes(trait)] *)
Definition includes (selected : list (number * value)) (trait : number * value)
  : bool :=
  existsb (fun s => same_value_zero s trait) selected.

(** The loop of [generate_personality], [remaining] rounds before its end. *)
Fixpoint select_traits (allTraits : list value) (remaining : nat)
    (selected : list (number * value)) : M (list (number * value)) :=
  match remaining with
  | O => ret selected
  | S remaining =>
      i <- pick_index (VArr allTraits) ;;
      trait <- lift (get_at (VArr allTraits) i) ;;
      select_traits allTraits remaining
        (if negb (includes selected (i, trait))
         then selected ++ [ (i, trait) ] else selected)
  end.

Definition generate_personality (count : option Z) : M value :=
  let count := default 4%Z count in
  data <- fetch "traits.json" ;;
  traits <- lift (v <- get data "traits" ;; iterate v)%outcome ;;
  ideals <- lift (v <- get data "ideals" ;; iterate v)%outcome ;;
  bonds <- lift (v <- get data "bonds" ;; iterate v)%outcome ;;
  flaws <- lift (v <- get data "flaws" ;; iterate v)%outcome ;;
  quirks <- lift (v <- get data "quirks" ;; iterate v)%outcome ;;
  let allTraits := traits ++ ideals ++ bonds ++ flaws ++ quirks in
  selected <- select_traits allTraits
                (rounds (Number.min (of_Z count) (of_nat (length allTraits))))
                [] ;;
  ret (VObj [ ("traits", VArr (selected.*2)) ]).

(** The CR range of [generate_treasure]. *)
Definition cr_range (cr : Q) : string :=
  if Number.ge (Num cr) (of_Z 17) then "cr17+"
  else if Number.ge (Num cr) (of_Z 11) then "cr11-16"
  else if Number.ge (Num cr) (of_Z 5) then "cr5-10"
  else "cr0-4".

(** The dice roller: [remaining] rounds of
    [total += Math.floor(Math.random() * diceSize) + 1]. *)
Fixpoint roll (diceSize : number) (remaining : nat) (total : number) : M number :=
  match remaining with
  | O => ret total
  | S remaining =>
      r <- random ;;
      roll diceSize remaining
        (Number.add total
           (Number.add (Number.floor (Number.mul r diceSize)) (of_Z 1)))
  end.

(** The body of the coin loop for one entry that is not [items]: the value
    stored under the coin kind. *)
Definition coin_value (diceData : value) : M number :=
  dice <- lift (get diceData "dice") ;;
  rolls <- lift (split_d dice) ;;
  numDice <- lift (parseInt (default VUndefined (rolls !! 0%nat))) ;;
  diceSize <- lift (parseInt (default VUndefined (rolls !! 1%nat))) ;;
  total <- roll diceSize (rounds numDice) (of_Z 0) ;;
  multiplier <- lift (get diceData "multiplier") ;;
  multiplier <- lift (to_number multiplier) ;;
  ret (Number.mul total multiplier).

(** The coin loop over [Object.entries(treasureData)]. *)
Fixpoint generate_coins (todo : list (string * value))
    (coins : list (string * value)) : M (list (string * value)) :=
  match todo with
  | [] => ret coins
  | (coinType, diceData) :: todo =>
      if negb (String.eqb coinType "items") then
        amount <- coin_value diceData ;;
        generate_coins todo (assign_prop coinType (VNum amount) coins)
      else generate_coins todo coins
  end.

(** The item loop: [remaining] rounds of a push of a pick from the pool. *)
Fixpoint generate_items (itemPool : value) (remaining : nat)
    (treasureItems : list value) : M (list value) :=
  match remaining with
  | O => ret treasureItems
  | S remaining =>
      item <- pick itemPool ;;
      generate_items itemPool remaining (treasureItems ++ [ item ])
  end.

(** The coins of [generate_treasure]. *)
Definition treasure_coins (treasureData : value) : M (list (string * value)) :=
  if truthy treasureData
  then generate_coins (entries treasureData) []
  else ret [].

(** The random items of [generate_treasure], for the hoard type. *)
Definition treasure_items (items : value) (cr : Q) (type : string)
  : M (list value) :=
  if String.eqb type "hoard" && Number.ge (Num cr) (of_Z 5) then
    itemPool <- lift (if Number.ge (Num cr) (of_Z 11)
                      then get items "magic_major"
                      else get items "magic_medium") ;;
    r <- random ;;
    let numItems :=
      Number.add (Number.floor (Number.mul r (of_Z 3))) (of_Z 1) in
    generate_items itemPool (rounds numItems) []
  else ret [].

Definition generate_treasure (cr : Q) (type : option string) : M value :=
  let type := default "individual" type in
  data <- fetch "treasure.json" ;;
  let crRange := cr_range cr in
  treasureData <- lift (t <- get data "treasure" ;;
                        byType <- get t type ;;
                        get byType crRange)%outcome ;;
  items <- lift (t <- get data "treasure" ;; get t "items")%outcome ;;
  coins <- treasure_coins treasureData ;;
  treasureItems <- treasure_items items cr type ;;
  ret (VObj [ ("challengeRating", VNum (Num cr));
              ("type", VStr type);
              ("coins", VObj coins);
              ("items", VArr treasureItems) ]).

Definition generate_weather (climate : string) (season : option string)
  : M value :=
  data <- fetch "weather.json" ;;
  test <- lift (if truthy (of_option season)
                then nested data "weather" climate (default "" season)
                else Return (of_option season)) ;;
  weatherOptions <-
    lift (if truthy test then
            (w <- get data "weather" ;;
             byClimate <- get w climate ;;
             get byClimate (default "" season))%outcome
          else
            (any <- nested data "weather" climate "any" ;;
             Return (or_else any (VArr [])))%outcome) ;;
  len <- lift (get weatherOptions "length") ;;
  if strict_eq_number len (of_Z 0) then
    ret (VObj [ ("error", VStr ("No weather found for " +:+ climate
                                  +:+ " / " +:+ shown season)) ])
  else
    description <- pick weatherOptions ;;
    ret (VObj [ ("climate", VStr climate);
                ("season", of_option season);
                ("description", description) ]).

Definition generate_plot_hook (theme : string) (level : value) : M value :=
  data <- fetch "plot_hooks.json" ;;
  table <- lift (get data "plot_hooks") ;;
  found <- lift (get table theme) ;;
  let hooks := or_else found (VArr []) in
  len <- lift (get hooks "length") ;;
  if strict_eq_number len (of_Z 0) then
    ret (VObj [ ("error", VStr ("No plot hooks found for theme: " +:+ theme)) ])
  else
    hook <- pick hooks ;;
    ret (VObj [ ("theme", VStr theme);
                ("suggestedLevel", level);
                ("hook", hook) ]).

End Tools.

(** ** Dispatch *)

(** A tool call: the name of a tool with arguments of the declared types. *)
Inductive call :=
  | Encounter (level : value) (environment : string) (difficulty : option string)
  | NpcName (race gender : string)
  | LocationName (type : string)
  | Personality (count : option Z)
  | Treasure (cr : Q) (type : option string)
  | Weather (climate : string) (season : option string)
  | PlotHook (theme : string) (level : value).

(** [tools[name](args)] *)
Definition run (net : network) (rnd : source) (c : call) : M value :=
  match c with
  | Encounter level environment difficulty =>
      generate_encounter net rnd level environment difficulty
  | NpcName race gender => generate_npc_name net rnd race gender
  | LocationName type => generate_location_name net rnd type
  | Personality count => generate_personality net rnd count
  | Treasure cr type => generate_treasure net rnd cr type
  | Weather climate season => generate_weather net rnd climate season
  | PlotHook theme level => generate_plot_hook net rnd theme level
  end.

(** The table a tool fetches. *)
Definition table_of (c : call) : string :=
  match c with
  | Encounter _ _ _ => "encounters.json"
  | NpcName _ _ => "names.json"
  | LocationName _ => "locations.json"
  | Personality _ => "traits.json"
  | Treasure _ _ => "treasure.json"
  | Weather _ _ => "weather.json"
  | PlotHook _ _ => "plot_hooks.json"
  end.

(** ** Vocabulary of the statements *)

(** A result of [Math.random()] is a binary64 value in [0, 1). *)
Definition in_unit (r : Q) : bool :=
  Qle_bool 0 r && negb (Qle_bool 1 r) && Qeq_bool (Binary64.round r) r.

Definition unit_source (rnd : source) : Prop := forall i, in_unit (rnd i) = true.

(** The index [Math.floor(r * len)] that a draw [r] selects among [len]
    candidates: the integer part of the product as the engine rounds it. *)
Definition drawn_index (r : Q) (len : nat) : nat :=
  Z.to_nat (Qfloor (Binary64.round (r * inject_Z (Z.of_nat len)))).

(** Navigation through own properties of nested objects. *)
Fixpoint lookup_path (v : value) (path : list string) : option value :=
  match path with
  | [] => Some v
  | k :: path =>
      match v with
      | VObj ps =>
          match own_prop k ps with
          | Some x => lookup_path x path
          | None => None
          end
      | _ => None
      end
  end.

(** A store that answers one file with a parsed document. *)
Definition serving (filename : string) (data : value) : network :=
  fun url =>
    if String.eqb url ("https://ttrpg-mcp.tedt.org/data/" +:+ filename)
    then Some {| ok := true; statusText := "OK"; json := Some data |}
    else None.

(** The field of a returned record. *)
Definition field (k : string) (record : value) : option value :=
  match record with
  | VObj ps => own_prop k ps
  | _ => None
  end.

(** The three fields [generate_encounter] writes before it spreads the
    chosen record. *)
Definition echoed (level : value) (environment difficulty : string)
  : list (string * value) :=
  [ ("environment", VStr environment);
    ("difficulty", VStr difficulty);
    ("partyLevel", level) ].

(** A mapping from names to sequences, as the data model has them under a
    climate, a race or at the top of the plot hooks. *)
Definition sequences (tbl : list (string * list value)) : list (string * value) :=
  prod_map id VArr <$> tbl.









(** A decimal numeral and the number it denotes. *)
Definition numeral (s : string) (n : N) : Prop :=
  s <> "" /\ digits_value s 0 = Some n.

(** A coin entry of the treasure table: [count] dice of [sides] sides and a
    multiplier. *)
Definition coin_entry (diceData : value) (count sides : N) (multiplier : Q)
  : Prop :=
  exists sN sM,
    numeral sN count /\ numeral sM sides
    /\ field "dice" diceData = Some (VStr (sN +:+ "d" +:+ sM))
    /\ field "multiplier" diceData = Some (VNum (Num multiplier)).

(** The face [Math.floor(r * sides) + 1] that a die of [sides] sides shows
    on the draw [r]. *)
Definition face (sides : N) (r : Q) : Z :=
  Qfloor (Binary64.round (r * inject_Z (Z.of_N sides))) + 1.

(** The sum of the faces of [count] dice rolled on the draws from [n] on. *)
Fixpoint dice_total (rnd : source) (sides : N) (n : nat) (count : nat) : Z :=
  match count with
  | O => 0
  | S count => face sides (rnd n) + dice_total rnd sides (S n) count
  end.

(** An entry of a bucket as [generate_treasure] expects it: the [items] key,
    or a coin kind with at least one side to its dice, a greatest total
    below [2 ^ 53], so that the sum of the faces is exact, and a multiplier
    that is not negative and keeps the greatest value finite. *)
Definition coin_entry_ok (kv : string * value) : Prop :=
  kv.1 = "items"
  \/ (kv.1 <> "__proto__"
      /\ exists count sides multiplier,
          coin_entry kv.2 count sides multiplier
          /\ (0 < sides)%N
          /\ (Z.of_N count * Z.of_N sides < 2 ^ 53)%Z
          /\ (0 <= multiplier)%Q
          /\ (inject_Z (Z.of_N count * Z.of_N sides) * multiplier
              <= Binary64.max_value)%Q).

(** [count * multiplier <= v <= count * sides * multiplier], the two
    products as the engine computes them. *)
Definition in_range (v : Q) (count sides : N) (multiplier : Q) : Prop :=
  (Binary64.round (inject_Z (Z.of_N count) * multiplier) <= v)%Q
  /\ (v <= Binary64.round (inject_Z (Z.of_N count * Z.of_N sides) * multiplier))%Q.

(** The element a pick takes from [pool] on the draw [r]; a pick from an
    empty pool reads [pool[0]], which is undefined. *)
Definition picked (pool : list value) (r : Q) : value :=
  default VUndefined (pool !! drawn_index r (length pool)).

(** The record [generate_treasure] returns. *)
Definition treasure_record (cr : Q) (type : string)
    (coins : list (string * value)) (items : list value) : value :=
  VObj [ ("challengeRating", VNum (Num cr));
         ("type", VStr type);
         ("coins", VObj coins);
         ("items", VArr items) ].

(** The entries of [selected] are read from the pool and no two of them are
    the same value. *)
Record chosen_from (pool : list value) (selected : list (number * value)) : Prop := {
  chosen_at : Forall (fun e => exists k : nat, e.1 = of_Z (Z.of_nat k)
                                               /\ pool !! k = Some e.2) selected;
  chosen_apart : forall i j a b,
    selected !! i = Some a -> selected !! j = Some b -> (i < j)%nat ->
    same_value_zero a b = false
}.

(** * The protocol handler and the worker

    [handleMCPRequest] answers the three methods of the protocol and calls
    the tools; the [fetch] handler of the worker routes a request to it and
    wraps its answer in a response.  Both turn records into text with
    [JSON.stringify]. *)

(** ** [JSON.stringify] *)

Module JSON.

Definition hex_digit (n : N) : ascii :=
  ascii_of_N (if (n <? 10)%N then 48 + n else 87 + n).

(** QuoteJSONString on one code unit: the two-character escapes, the
    [\u00xx] form for the other control characters, and the character
    itself. *)
Definition escape (c : ascii) : string :=
  let n := N_of_ascii c in
  if (n =? 8)%N then "\b"
  else if (n =? 9)%N then "\t"
  else if (n =? 10)%N then "\n"
  else if (n =? 12)%N then "\f"
  else if (n =? 13)%N then "\r"
  else if (n =? 34)%N then String "\" (String c "")
  else if (n =? 92)%N then "\\"
  else if (n <? 32)%N then
    "\u00" +:+ String (hex_digit (n / 16)) (String (hex_digit (n mod 16)) "")
  else String c "".

Fixpoint escape_all (s : string) : string :=
  match s with
  | String c r => escape c +:+ escape_all r
  | EmptyString => ""
  end.

Definition quote (s : string) : string :=
  String "034" (escape_all s +:+ String "034" "").

(** The text of a number: [null] for [NaN], the decimal numeral of an
    integer. *)
Definition number_text (n : number) : outcome string :=
  match n with
  | NaN => Return "null"
  | Num _ =>
      match key_of_number n with
      | Some k => Return k
      | None => Unmodelled
      end
  end.

Definition line_feed : string := String "010" "".

(** The text of an array or of an object from the texts of its members. *)
Definition wrap (opening closing gap indent stepback : string)
    (partial : list string) : string :=
  match partial with
  | [] => opening +:+ closing
  | _ :: _ =>
      if String.eqb gap "" then
        opening +:+ String.concat "," partial +:+ closing
      else
        opening +:+ line_feed +:+ indent
          +:+ String.concat ("," +:+ line_feed +:+ indent) partial
          +:+ line_feed +:+ stepback +:+ closing
  end.

(** SerializeJSONProperty: [None] is the [undefined] that the property of
    an object is left out for and that an element of an array is replaced
    by [null] for. *)
Fixpoint serialize (gap indent : string) (v : value) : outcome (option string) :=
  match v with
  | VUndefined => Return None
  | VNull => Return (Some "null")
  | VBool b => Return (Some (if b then "true" else "false"))
  | VNum n => (text <- number_text n ;; Return (Some text))%outcome
  | VStr s => Return (Some (quote s))
  | VArr l =>
      let stepback := indent in
      let indent := indent +:+ gap in
      (partial <-
         (fix elements (l : list value) : outcome (list string) :=
            match l with
            | [] => Return []
            | x :: r =>
                (strP <- serialize gap indent x ;;
                 rest <- elements r ;;
                 Return (default "null" strP :: rest))%outcome
            end) l ;;
       Return (Some (wrap "[" "]" gap indent stepback partial)))%outcome
  | VObj ps =>
      let stepback := indent in
      let indent := indent +:+ gap in
      (partial <-
         (fix members (ps : list (string * value)) : outcome (list string) :=
            match ps with
            | [] => Return []
            | (k, x) :: r =>
                (strP <- serialize gap indent x ;;
                 rest <- members r ;;
                 Return
                   match strP with
                   | Some text =>
                       (quote k +:+ ":"
                          +:+ (if String.eqb gap "" then "" else " ")
                          +:+ text) :: rest
                   | None => rest
                   end)%outcome
            end) ps ;;
       Return (Some (wrap "{" "}" gap indent stepback partial)))%outcome
  end.

Fixpoint spaces (n : nat) : string :=
  match n with
  | O => ""
  | S n => String " " (spaces n)
  end.

(** [JSON.stringify(v, null, space)]; [JSON.stringify(v)] is the case of no
    space. *)
Definition stringify (space : nat) (v : value) : outcome (option string) :=
  serialize (spaces (Nat.min space 10)) "" v.

End JSON.

(** ** Arguments of the declared types

    A tool binds its parameters by destructuring the [arguments] of the
    call.  The tools are translated for arguments of the types that
    [tools/list] declares; an argument of another type leaves the
    fragment. *)

Definition as_string (v : value) : outcome string :=
  match v with
  | VStr s => Return s
  | _ => Unmodelled
  end.

Definition as_optional_string (v : value) : outcome (option string) :=
  match v with
  | VUndefined => Return None
  | VStr s => Return (Some s)
  | _ => Unmodelled
  end.

Definition as_optional_integer (v : value) : outcome (option Z) :=
  match v with
  | VUndefined => Return None
  | VNum n =>
      match Number.to_Z n with
      | Some z => Return (Some z)
      | None => Unmodelled
      end
  | _ => Unmodelled
  end.

Definition as_rational (v : value) : outcome Q :=
  match v with
  | VNum (Num q) => Return q
  | _ => Unmodelled
  end.

(** ** The answers to [initialize] and to [tools/list] *)

Definition initialize_result : value :=
  VObj [ ("protocolVersion", VStr "2024-11-05");
         ("capabilities", VObj [ ("tools", VObj []) ]);
         ("serverInfo", VObj [ ("name", VStr "ttrpg-gm-tools");
                               ("version", VStr "1.0.0") ]) ].

Definition string_enum (enum : list string) : list (string * value) :=
  [ ("type", VStr "string"); ("enum", VArr (VStr <$> enum)) ].

Definition integer_range (minimum maximum : Z) : list (string * value) :=
  [ ("type", VStr "integer");
    ("minimum", VNum (of_Z minimum));
    ("maximum", VNum (of_Z maximum)) ].

Definition input_schema (properties : list (string * value))
    (required : option (list string)) : value :=
  VObj ([ ("type", VStr "object"); ("properties", VObj properties) ]
          ++ match required with
             | Some names => [ ("required", VArr (VStr <$> names)) ]
             | None => []
             end).

Definition tools_list : value :=
  VObj
    [ ("tools",
       VArr
         [ VObj
             [ ("name", VStr "generate_encounter");
               ("description", VStr "Generate a random encounter for a TTRPG session");
               ("inputSchema",
                input_schema
                  [ ("level", VObj (integer_range 1 20));
                    ("environment",
                     VObj (string_enum
                             [ "forest"; "dungeon"; "city"; "mountain"; "swamp" ]));
                    ("difficulty",
                     VObj (string_enum [ "easy"; "medium"; "hard"; "deadly" ]
                             ++ [ ("default", VStr "medium") ])) ]
                  (Some [ "level"; "environment" ])) ];
           VObj
             [ ("name", VStr "generate_npc_name");
               ("description", VStr "Generate an NPC name for a fantasy character");
               ("inputSchema",
                input_schema
                  [ ("race",
                     VObj (string_enum
                             [ "human"; "elf"; "dwarf"; "halfling"; "gnome";
                               "half-elf"; "half-orc"; "tiefling"; "dragonborn";
                               "orc"; "goblin" ]));
                    ("gender", VObj (string_enum [ "male"; "female" ])) ]
                  (Some [ "race"; "gender" ])) ];
           VObj
             [ ("name", VStr "generate_location_name");
               ("description", VStr "Generate a name for a location");
               ("inputSchema",
                input_schema
                  [ ("type",
                     VObj (string_enum
                             [ "tavern"; "inn"; "city"; "town"; "village";
                               "dungeon"; "castle"; "shop"; "guild"; "temple" ])) ]
                  (Some [ "type" ])) ];
           VObj
             [ ("name", VStr "generate_personality");
               ("description", VStr "Generate personality traits for an NPC");
               ("inputSchema",
                input_schema
                  [ ("count",
                     VObj (integer_range 1 10 ++ [ ("default", VNum (of_Z 4)) ])) ]
                  None) ];
           VObj
             [ ("name", VStr "generate_treasure");
               ("description", VStr "Generate treasure based on challenge rating");
               ("inputSchema",
                input_schema
                  [ ("cr", VObj (integer_range 0 30));
                    ("type",
                     VObj (string_enum [ "individual"; "hoard" ]
                             ++ [ ("default", VStr "individual") ])) ]
                  (Some [ "cr" ])) ];
           VObj
             [ ("name", VStr "generate_weather");
               ("description", VStr "Generate weather conditions");
               ("inputSchema",
                input_schema
                  [ ("climate",
                     VObj (string_enum
                             [ "temperate"; "arctic"; "tropical"; "desert";
                               "mountain" ]));
                    ("season",
                     VObj (string_enum [ "spring"; "summer"; "autumn"; "winter" ])) ]
                  (Some [ "climate" ])) ];
           VObj
             [ ("name", VStr "generate_plot_hook");
               ("description", VStr "Generate adventure hooks and quest ideas");
               ("inputSchema",
                input_schema
                  [ ("theme",
                     VObj (string_enum
                             [ "mystery"; "combat"; "intrigue"; "exploration";
                               "horror"; "comedy"; "romance"; "rescue" ]));
                    ("level", VObj (integer_range 1 20)) ]
                  (Some [ "theme" ])) ] ]) ].

(** ** [handleMCPRequest] *)

Section Handler.

Variable net : network.
Variable rnd : source.

(** The text of [error.message] for the errors that the engine raises
    itself; an [Error] of the worker carries its own. *)
Variable engine : exn -> string.

Definition message (error : exn) : string :=
  match error with
  | Error text => text
  | _ => engine error
  end.

(** The [tools] object: its own properties, each a function of the
    [arguments] of the call. *)
Definition tools : list (string * (value -> M value)) :=
  [ ("generate_encounter", fun args =>
       level <- lift (get args "level") ;;
       environment <- lift (x <- get args "environment" ;; as_string x)%outcome ;;
       difficulty <- lift (x <- get args "difficulty" ;;
                           as_optional_string x)%outcome ;;
       generate_encounter net rnd level environment difficulty);
    ("generate_npc_name", fun args =>
       race <- lift (x <- get args "race" ;; as_string x)%outcome ;;
       gender <- lift (x <- get args "gender" ;; as_string x)%outcome ;;
       generate_npc_name net rnd race gender);
    ("generate_location_name", fun args =>
       type <- lift (x <- get args "type" ;; as_string x)%outcome ;;
       generate_location_name net rnd type);
    ("generate_personality", fun args =>
       count <- lift (x <- get args "count" ;; as_optional_integer x)%outcome ;;
       generate_personality net rnd count);
    ("generate_treasure", fun args =>
       cr <- lift (x <- get args "cr" ;; as_rational x)%outcome ;;
       type <- lift (x <- get args "type" ;; as_optional_string x)%outcome ;;
       generate_treasure net rnd cr type);
    ("generate_weather", fun args =>
       climate <- lift (x <- get args "climate" ;; as_string x)%outcome ;;
       season <- lift (x <- get args "season" ;; as_optional_string x)%outcome ;;
       generate_weather net rnd climate season);
    ("generate_plot_hook", fun args =>
       theme <- lift (x <- get args "theme" ;; as_string x)%outcome ;;
       level <- lift (get args "level") ;;
       generate_plot_hook net rnd theme level) ]%tool.

(** [{ content: [{ type: 'text', text }] }], with [isError: true] for a
    failure. *)
Definition content (text : option string) (isError : bool) : value :=
  VObj ([ ("content", VArr [ VObj [ ("type", VStr "text");
                                    ("text", of_option text) ] ]) ]
          ++ if isError then [ ("isError", VBool true) ] else []).

Definition failure (text : string) : outcome value :=
  (text <- JSON.stringify 2 (VObj [ ("error", VStr text) ]) ;;
   Return (content text true))%outcome.

(** The case [tools/call], from the count [n] of draws. *)
Definition tools_call (params : value) (n : nat) : outcome value :=
  (name <- get params "name" ;;
   args <- get params "arguments" ;;
   key <- to_string name ;;
   match own_prop key tools with
   | Some tool =>
       match tool args n with
       | Return (result, _) =>
           match JSON.stringify 2 result with
           | Return text => Return (content text false)
           | Throw error => failure (message error)
           | Unmodelled => Unmodelled
           end
       | Throw error => failure (message error)
       | Unmodelled => Unmodelled
       end
   | None =>
       if inherited key then Unmodelled
       else failure ("Unknown tool: " +:+ key)
   end)%outcome.

(** [body] is what [await request.json()] gives. *)
Definition handleMCPRequest (body : outcome value) (n : nat) : outcome value :=
  (request <- body ;;
   method <- get request "method" ;;
   params <- get request "params" ;;
   match method with
   | VStr name =>
       if String.eqb name "initialize" then Return initialize_result
       else if String.eqb name "tools/list" then Return tools_list
       else if String.eqb name "tools/call" then tools_call params n
       else Return (VObj [ ("error", VStr ("Unknown method: " +:+ name)) ])
   | _ =>
       (text <- to_string method ;;
        Return (VObj [ ("error", VStr ("Unknown method: " +:+ text)) ]))
   end)%outcome.

End Handler.

(** ** The [fetch] handler of the worker *)

Module Worker.

(** A request: its method, the path name of its URL and what
    [request.json()] gives. *)
Record Request := {
  method : string;
  pathname : string;
  json : outcome value
}.

(** A response: the status, the record the headers are made from, the
    body. *)
Record Response := {
  status : Z;
  headers : list (string * value);
  body : option string
}.

Definition corsHeaders : list (string * value) :=
  [ ("Access-Control-Allow-Origin", VStr "*");
    ("Access-Control-Allow-Methods", VStr "GET, POST, OPTIONS");
    ("Access-Control-Allow-Headers", VStr "Content-Type") ].

(** [Response.redirect(url, status)] *)
Definition redirect (url : string) (status : Z) : Response :=
  {| status := status; headers := [ ("Location", VStr url) ]; body := None |}.

Definition json_headers : list (string * value) :=
  spread_into [ ("Content-Type", VStr "application/json") ] (VObj corsHeaders).

Definition fetch (net : network) (rnd : source) (engine : exn -> string)
    (request : Request) (n : nat) : outcome Response :=
  if String.eqb (method request) "OPTIONS" then
    Return {| status := 200; headers := corsHeaders; body := None |}
  else if String.eqb (pathname request) "/mcp"
          && String.eqb (method request) "POST" then
    match (result <- handleMCPRequest net rnd engine (json request) n ;;
           JSON.stringify 0 result)%outcome with
    | Return text =>
        Return {| status := 200; headers := json_headers; body := text |}
    | Throw error =>
        (text <- JSON.stringify 0 (VObj [ ("error", VStr (message engine error)) ]) ;;
         Return {| status := 500; headers := json_headers; body := text |})%outcome
    | Unmodelled => Unmodelled
    end
  else Return (redirect "https://ttrpg-mcp.tedt.org/" 302).

End Worker.

(** The names that the answer to [tools/list] gives. *)
Definition listed_names : list value :=
  match field "tools" tools_list with
  | Some (VArr entries) => (fun entry => default VUndefined (field "name" entry)) <$> entries
  | _ => []
  end.

(** The default that [tools/list] declares for a property of a tool. *)
Definition declared_default (name property : string) : option value :=
  match field "tools" tools_list with
  | Some (VArr entries) =>
      match List.find
              (fun entry => match field "name" entry with
                            | Some (VStr s) => String.eqb s name
                            | _ => false
                            end)
              entries with
      | Some entry =>
          lookup_path entry [ "inputSchema"; "properties"; property; "default" ]
      | None => None
      end
  | _ => None
  end.

(** ** Vocabulary of the statements about the handler *)

(** The record of a category without entries. *)
Definition error_record (v : value) : Prop :=
  exists message, v = VObj [ ("error", VStr message) ].

(** What a tool returns and the draws it has consumed by then, from the
    count [n] to the count [n']. *)
Definition returned (c : call) (v : value) (n n' : nat) : Prop :=
  match c with
  | Encounter level environment difficulty =>
      (error_record v /\ n' = n)
      \/ (exists chosen,
            v = VObj (spread_into
                        (echoed level environment (default "medium" difficulty))
                        chosen)
            /\ n' = S n)
  | NpcName race gender =>
      (error_record v /\ n' = n)
      \/ (exists name,
            v = VObj [ ("name", name); ("race", VStr race); ("gender", VStr gender) ]
            /\ n' = S n)
  | LocationName type =>
      (error_record v /\ n' = n)
      \/ (exists name,
            v = VObj [ ("name", VStr name); ("type", VStr type) ]
            /\ n' = S (S n))
  | Personality count =>
      exists traits,
        v = VObj [ ("traits", VArr traits) ]
        /\ (length traits <= n' - n)%nat
        /\ (n' - n <= Z.to_nat (default 4%Z count))%nat
        /\ (n <= n')%nat
  | Treasure cr type =>
      exists coins items,
        v = treasure_record cr (default "individual" type) coins items
        /\ (n <= n')%nat
  | Weather climate season =>
      (error_record v /\ n' = n)
      \/ (exists description,
            v = VObj [ ("climate", VStr climate);
                       ("season", of_option season);
                       ("description", description) ]
            /\ n' = S n)
  | PlotHook theme level =>
      (error_record v /\ n' = n)
      \/ (exists hook,
            v = VObj [ ("theme", VStr theme);
                       ("suggestedLevel", level);
                       ("hook", hook) ]
            /\ n' = S n)
  end.

(** The name of the tool of a call and the [arguments] that give the tool
    the arguments of the call. *)
Definition tool_name (c : call) : string :=
  match c with
  | Encounter _ _ _ => "generate_encounter"
  | NpcName _ _ => "generate_npc_name"
  | LocationName _ => "generate_location_name"
  | Personality _ => "generate_personality"
  | Treasure _ _ => "generate_treasure"
  | Weather _ _ => "generate_weather"
  | PlotHook _ _ => "generate_plot_hook"
  end.

Definition optional {A} (k : string) (f : A -> value) (x : option A)
  : list (string * value) :=
  match x with
  | Some a => [ (k, f a) ]
  | None => []
  end.

Definition arguments (c : call) : value :=
  match c with
  | Encounter level environment difficulty =>
      VObj ([ ("level", level); ("environment", VStr environment) ]
              ++ optional "difficulty" VStr difficulty)
  | NpcName race gender => VObj [ ("race", VStr race); ("gender", VStr gender) ]
  | LocationName type => VObj [ ("type", VStr type) ]
  | Personality count => VObj (optional "count" (fun z => VNum (of_Z z)) count)
  | Treasure cr type =>
      VObj ([ ("cr", VNum (Num cr)) ] ++ optional "type" VStr type)
  | Weather climate season =>
      VObj ([ ("climate", VStr climate) ] ++ optional "season" VStr season)
  | PlotHook theme level => VObj [ ("theme", VStr theme); ("level", level) ]
  end.

(** The body of a [tools/call] request for a call. *)
Definition call_request (c : call) : value :=
  VObj [ ("method", VStr "tools/call");
         ("params", VObj [ ("name", VStr (tool_name c));
                           ("arguments", arguments c) ]) ].

(** The request that posts a body to [/mcp]. *)
Definition post (body : value) : Worker.Request :=
  {| Worker.method := "POST"; Worker.pathname := "/mcp";
     Worker.json := Return body |}.

(** The text of [{ error: message }] with an indentation of two spaces. *)
Definition error_text (message : string) : string :=
  "{" +:+ JSON.line_feed +:+ "  " +:+ JSON.quote "error" +:+ ": "
    +:+ JSON.quote message +:+ JSON.line_feed +:+ "}".

(** The text of [{ error: message }] without indentation. *)
Definition error_body (message : string) : string :=
  "{" +:+ (JSON.quote "error" +:+ ":" +:+ JSON.quote message) +:+ "}".

(** The text of [{ content: [{ type: 'text', text }] }] without
    indentation, with [isError: true] for a flagged answer. *)
Definition answer_text (text : string) (isError : bool) : string :=
  let entry :=
    JSON.quote "content" +:+ ":"
      +:+ "[" +:+ ("{" +:+ (JSON.quote "type" +:+ ":" +:+ JSON.quote "text"
                              +:+ "," +:+ JSON.quote "text" +:+ ":"
                              +:+ JSON.quote text) +:+ "}") +:+ "]" in
  if isError
  then "{" +:+ (entry +:+ "," +:+ JSON.quote "isError" +:+ ":true") +:+ "}"
  else "{" +:+ entry +:+ "}".

(** The tables of the store. *)
Definition tables : list string :=
  [ "encounters.json"; "names.json"; "locations.json"; "traits.json";
    "treasure.json"; "weather.json"; "plot_hooks.json" ].

(** The messages of one engine. *)
Definition sample_engine (error : exn) : string :=
  match error with
  | Error text => text
  | SyntaxError => "Unexpected end of JSON input"
  | TypeError => "Cannot read properties of undefined"
  end.

(** The value of a hexadecimal digit. *)
Definition hex_value (c : ascii) : option N :=
  let n := N_of_ascii c in
  if ((48 <=? n) && (n <=? 57))%N then Some (n - 48)%N
  else if ((97 <=? n) && (n <=? 102))%N then Some (n - 87)%N
  else if ((65 <=? n) && (n <=? 70))%N then Some (n - 55)%N
  else None.

(** The characters that the inside of a JSON string literal denotes, as a
    reader of JSON decodes the escapes; [None] when it is not the inside of
    a literal. *)
Fixpoint unescape (s : string) : option string :=
  match s with
  | EmptyString => Some ""
  | String c r =>
      if Ascii.eqb c "\" then
        match r with
        | String e r =>
            if Ascii.eqb e "u" then
              match r with
              | String a (String b (String c (String d r))) =>
                  match hex_value a, hex_value b, hex_value c, hex_value d with
                  | Some 0%N, Some 0%N, Some x, Some y =>
                      String (ascii_of_N (16 * x + y)) <$> unescape r
                  | _, _, _, _ => None
                  end
              | _ => None
              end
            else
              match
                (if Ascii.eqb e "b" then Some "008"%char
                 else if Ascii.eqb e "t" then Some "009"%char
                 else if Ascii.eqb e "n" then Some "010"%char
                 else if Ascii.eqb e "f" then Some "012"%char
                 else if Ascii.eqb e "r" then Some "013"%char
                 else if Ascii.eqb e "034" then Some "034"%char
                 else if Ascii.eqb e "\" then Some "\"%char
                 else if Ascii.eqb e "/" then Some "/"%char
                 else None)
              with
              | Some x => String x <$> unescape r
              | None => None
              end
        | EmptyString => None
        end
      else if Ascii.eqb c "034" || (N_of_ascii c <? 32)%N then None
      else String c <$> unescape r
  end.

(** * The tools over a store of objects

    Every array and every object is a cell of a store and a value refers to
    it by its location, so that a write to a shared object is visible to
    all who hold the reference.  The tools are translated a second time
    over this store, statement by statement, with the writes they perform:
    [push] on an array and the assignment of a property. *)

Module Store.

Abbreviation loc := positive.

Inductive hvalue :=
  | HUndefined
  | HNull
  | HBool (b : bool)
  | HNum (n : number)
  | HStr (s : string)
  | HRef (l : loc).

Inductive hobject :=
  | HArr (elems : list hvalue)
  | HObj (props : list (string * hvalue)).

Abbreviation heap := (gmap loc hobject).

(** [JSON.parse]: the document is built from new cells. *)
Fixpoint load (v : value) (h : heap) : hvalue * heap :=
  match v with
  | VUndefined => (HUndefined, h)
  | VNull => (HNull, h)
  | VBool b => (HBool b, h)
  | VNum n => (HNum n, h)
  | VStr s => (HStr s, h)
  | VArr l =>
      let '(es, h1) :=
        (fix load_all (l : list value) (h : heap) : list hvalue * heap :=
           match l with
           | [] => ([], h)
           | x :: r =>
               let '(hx, h1) := load x h in
               let '(hr, h2) := load_all r h1 in
               (hx :: hr, h2)
           end) l h in
      let a := fresh (dom h1) in
      (HRef a, <[a := HArr es]> h1)
  | VObj ps =>
      let '(hps, h1) :=
        (fix load_props (ps : list (string * value)) (h : heap)
           : list (string * hvalue) * heap :=
           match ps with
           | [] => ([], h)
           | (k, x) :: r =>
               let '(hx, h1) := load x h in
               let '(hr, h2) := load_props r h1 in
               ((k, hx) :: hr, h2)
           end) ps h in
      let a := fresh (dom h1) in
      (HRef a, <[a := HObj hps]> h1)
  end.

Definition htruthy (v : hvalue) : bool :=
  match v with
  | HUndefined | HNull => false
  | HBool b => b
  | HNum NaN => false
  | HNum (Num q) => negb (Qeq_bool q 0)
  | HStr s => negb (String.eqb s "")
  | HRef _ => true
  end.

Definition hstrict_eq_number (v : hvalue) (n : number) : bool :=
  match v with
  | HNum m => Number.eq m n
  | _ => false
  end.

Definition hto_number (v : hvalue) : outcome number :=
  match v with
  | HUndefined => Return NaN
  | HNull => Return (of_Z 0)
  | HBool b => Return (of_Z (if b then 1 else 0))
  | HNum n => Return n
  | HStr _ | HRef _ => Unmodelled
  end.

Definition hchars (s : string) : list hvalue :=
  (fun c => HStr (String c EmptyString)) <$> String.list_ascii_of_string s.

Definition helements (h : heap) (v : hvalue) : option (list hvalue) :=
  match v with
  | HStr s => Some (hchars s)
  | HRef l =>
      match h !! l with
      | Some (HArr es) => Some es
      | _ => None
      end
  | _ => None
  end.

Definition hprops (h : heap) (v : hvalue) : option (list (string * hvalue)) :=
  match v with
  | HRef l =>
      match h !! l with
      | Some (HObj ps) => Some ps
      | _ => None
      end
  | _ => None
  end.

(** A reference to a cell the store does not have. *)
Definition dangling (h : heap) (v : hvalue) : bool :=
  match v with
  | HRef l => bool_decide (h !! l = None)
  | _ => false
  end.

(** [v[k]] and [v.k] *)
Definition hget (h : heap) (v : hvalue) (k : string) : outcome hvalue :=
  match v with
  | HUndefined | HNull => Throw TypeError
  | _ =>
      if dangling h v then Unmodelled
      else match hprops h v with
           | Some ps =>
               match own_prop k ps with
               | Some x => Return x
               | None => if inherited k then Unmodelled else Return HUndefined
               end
           | None =>
               if String.eqb k "length" then
                 Return (match helements h v with
                         | Some l => HNum (of_nat (length l))
                         | None => HUndefined
                         end)
               else if String.eqb k "NaN" then Return HUndefined
               else match array_index k with
                    | Some i =>
                        Return (default HUndefined
                                  (default [] (helements h v) !! i))
                    | None => Unmodelled
                    end
           end
  end.

(** [v?.[k]] *)
Definition hget_opt (h : heap) (v : hvalue) (k : string) : outcome hvalue :=
  match v with
  | HUndefined | HNull => Return HUndefined
  | _ => hget h v k
  end.

(** [v[n]] with a computed numeric key. *)
Definition hget_at (h : heap) (v : hvalue) (n : number) : outcome hvalue :=
  match v with
  | HUndefined | HNull => Throw TypeError
  | _ =>
      if dangling h v then Unmodelled
      else match hprops h v with
           | Some ps =>
               match key_of_number n with
               | Some k => Return (default HUndefined (own_prop k ps))
               | None => Unmodelled
               end
           | None =>
               match Number.to_Z n with
               | Some z =>
                   if (0 <=? z)%Z
                   then Return (default HUndefined
                                  (default [] (helements h v) !! Z.to_nat z))
                   else Return HUndefined
               | None => Return HUndefined
               end
           end
  end.

(** [data.top[k1]?.[k2]] *)
Definition hnested (h : heap) (data : hvalue) (top k1 k2 : string)
  : outcome hvalue :=
  (table <- hget h data top ;;
   entry <- hget h table k1 ;;
   hget_opt h entry k2)%outcome.

Definition hindexed_props (l : list hvalue) : list (string * hvalue) :=
  imap (fun i x => (pretty (N.of_nat i), x)) l.

(** What [Object.entries(v)] lists and what [{...v}] copies. *)
Definition hentries (h : heap) (v : hvalue) : list (string * hvalue) :=
  match hprops h v with
  | Some ps => ps
  | None => hindexed_props (default [] (helements h v))
  end.

(** [[...v]] inside an array literal. *)
Definition hiterate (h : heap) (v : hvalue) : outcome (list hvalue) :=
  match helements h v with
  | Some l => Return l
  | None => Throw TypeError
  end.

(** SameValueZero: two references are the same value when they are the same
    location. *)
Definition hsame_value_zero (a b : hvalue) : bool :=
  match a, b with
  | HUndefined, HUndefined | HNull, HNull => true
  | HBool x, HBool y => Bool.eqb x y
  | HNum NaN, HNum NaN => true
  | HNum (Num x), HNum (Num y) => Qeq_bool x y
  | HStr x, HStr y => String.eqb x y
  | HRef x, HRef y => Pos.eqb x y
  | _, _ => false
  end.

Definition hparseInt (v : hvalue) : outcome number :=
  match v with
  | HStr s => Return (parseInt_string s)
  | HUndefined | HNull | HBool _ => Return NaN
  | HNum _ | HRef _ => Unmodelled
  end.

Definition hto_string (v : hvalue) : outcome string :=
  match v with
  | HStr s => Return s
  | HUndefined => Return "undefined"
  | HNull => Return "null"
  | HBool b => Return (if b then "true" else "false")
  | HNum n =>
      match key_of_number n with
      | Some k => Return k
      | None => Unmodelled
      end
  | HRef _ => Unmodelled
  end.

Definition hof_option (s : option string) : hvalue :=
  match s with
  | Some x => HStr x
  | None => HUndefined
  end.

(** ** The monad of a run over the store

    The store is part of the outcome also when the run throws. *)

Definition H (A : Type) : Type := heap -> nat -> heap * outcome (A * nat).

Definition hret {A} (a : A) : H A := fun h n => (h, Return (a, n)).

Definition hbind {A B} (m : H A) (f : A -> H B) : H B :=
  fun h n =>
    match m h n with
    | (h1, Return (a, n1)) => f a h1 n1
    | (h1, Throw e) => (h1, Throw e)
    | (h1, Unmodelled) => (h1, Unmodelled)
    end.

(** An expression that only reads the store. *)
Definition read {A} (f : heap -> outcome A) : H A :=
  fun h n =>
    (h, match f h with
        | Return a => Return (a, n)
        | Throw e => Throw e
        | Unmodelled => Unmodelled
        end).

(** An array or object literal: a new cell. *)
Definition alloc (o : hobject) : H hvalue :=
  fun h n => let l := fresh (dom h) in (<[l := o]> h, Return (HRef l, n)).

(** [target.push(x)] *)
Definition push (target x : hvalue) : H unit :=
  fun h n =>
    match target with
    | HRef l =>
        match h !! l with
        | Some (HArr es) => (<[l := HArr (es ++ [ x ])]> h, Return (tt, n))
        | _ => (h, Unmodelled)
        end
    | _ => (h, Unmodelled)
    end.

(** [target[k] = x] for a number [x] *)
Definition assign (target : hvalue) (k : string) (x : hvalue) : H unit :=
  fun h n =>
    match target with
    | HRef l =>
        match h !! l with
        | Some (HObj ps) => (<[l := HObj (assign_prop k x ps)]> h, Return (tt, n))
        | _ => (h, Unmodelled)
        end
    | _ => (h, Unmodelled)
    end.

Declare Scope store_scope.
Delimit Scope store_scope with store.
Notation "x <- m ;; k" := (hbind m (fun x => k))
  (at level 100, m at next level, right associativity) : store_scope.
Local Open Scope store_scope.

Section Tools.

Variable net : network.
Variable rnd : source.

(** [await fetchData(filename)]: the parsed document is new in the store. *)
Definition fetch (filename : string) : H hvalue :=
  fun h n =>
    match fetchData net filename with
    | Return data => let '(d, h1) := load data h in (h1, Return (d, n))
    | Throw e => (h, Throw e)
    | Unmodelled => (h, Unmodelled)
    end.

Definition random : H number := fun h n => (h, Return (Num (rnd n), S n)).

Definition pick_index (xs : hvalue) : H number :=
  r <- random ;;
  len <- read (fun h => hget h xs "length") ;;
  len <- read (fun _ => hto_number len) ;;
  hret (Number.floor (Number.mul r len)).

Definition pick (xs : hvalue) : H hvalue :=
  i <- pick_index xs ;;
  read (fun h => hget_at h xs i).

(** [found || []] *)
Definition or_empty (found : hvalue) : H hvalue :=
  if htruthy found then hret found else alloc (HArr []).

(** [{...ps, ...v}] as a new object *)
Definition spread_new (ps : list (string * hvalue)) (v : hvalue) : H hvalue :=
  copied <- read (fun h => Return (hentries h v)) ;;
  alloc (HObj (fold_left (fun acc kv => define_prop kv.1 kv.2 acc) copied ps)).

Definition generate_encounter (level : hvalue) (environment : string)
    (difficulty : option string) : H hvalue :=
  let difficulty := default "medium" difficulty in
  data <- fetch "encounters.json" ;;
  found <- read (fun h => hnested h data "encounters" environment difficulty) ;;
  encounters <- or_empty found ;;
  len <- read (fun h => hget h encounters "length") ;;
  if hstrict_eq_number len (of_Z 0) then
    alloc (HObj [ ("error", HStr ("No encounters found for " +:+ environment
                                    +:+ " / " +:+ difficulty)) ])
  else
    encounter <- pick encounters ;;
    spread_new [ ("environment", HStr environment);
                 ("difficulty", HStr difficulty);
                 ("partyLevel", level) ] encounter.

Definition generate_npc_name (race gender : string) : H hvalue :=
  data <- fetch "names.json" ;;
  found <- read (fun h => hnested h data "names" race gender) ;;
  names <- or_empty found ;;
  len <- read (fun h => hget h names "length") ;;
  if hstrict_eq_number len (of_Z 0) then
    alloc (HObj [ ("error", HStr ("No names found for " +:+ race
                                    +:+ " / " +:+ gender)) ])
  else
    name <- pick names ;;
    alloc (HObj [ ("name", name); ("race", HStr race); ("gender", HStr gender) ]).

Definition generate_location_name (type : string) : H hvalue :=
  data <- fetch "locations.json" ;;
  location <- read (fun h => (table <- hget h data "locations" ;;
                              hget h table type)%outcome) ;;
  if negb (htruthy location) then
    alloc (HObj [ ("error", HStr ("No location type found: " +:+ type)) ])
  else
    prefixes <- read (fun h => hget h location "prefixes") ;;
    prefix <- pick prefixes ;;
    suffixes <- read (fun h => hget h location "suffixes") ;;
    suffix <- pick suffixes ;;
    prefix <- read (fun _ => hto_string prefix) ;;
    suffix <- read (fun _ => hto_string suffix) ;;
    alloc (HObj [ ("name", HStr (prefix +:+ " " +:+ suffix));
                  ("type", HStr type) ]).

(** [selected.includes(trait)] *)
Definition includes (selected trait : hvalue) : H bool :=
  read (fun h => Return (existsb (fun s => hsame_value_zero s trait)
                           (default [] (helements h selected)))).

Fixpoint select_traits (allTraits selected : hvalue) (remaining : nat) : H unit :=
  match remaining with
  | O => hret tt
  | S remaining =>
      trait <- pick allTraits ;;
      known <- includes selected trait ;;
      _ <- (if negb known then push selected trait else hret tt) ;;
      select_traits allTraits selected remaining
  end.

Definition generate_personality (count : option Z) : H hvalue :=
  let count := default 4%Z count in
  data <- fetch "traits.json" ;;
  traits <- read (fun h => (v <- hget h data "traits" ;; hiterate h v)%outcome) ;;
  ideals <- read (fun h => (v <- hget h data "ideals" ;; hiterate h v)%outcome) ;;
  bonds <- read (fun h => (v <- hget h data "bonds" ;; hiterate h v)%outcome) ;;
  flaws <- read (fun h => (v <- hget h data "flaws" ;; hiterate h v)%outcome) ;;
  quirks <- read (fun h => (v <- hget h data "quirks" ;; hiterate h v)%outcome) ;;
  allTraits <- alloc (HArr (traits ++ ideals ++ bonds ++ flaws ++ quirks)) ;;
  selected <- alloc (HArr []) ;;
  _ <- select_traits allTraits selected
         (rounds (Number.min (of_Z count)
                    (of_nat (length (traits ++ ideals ++ bonds ++ flaws
                                       ++ quirks))))) ;;
  alloc (HObj [ ("traits", selected) ]).

Fixpoint roll (diceSize : number) (remaining : nat) (total : number) : H number :=
  match remaining with
  | O => hret total
  | S remaining =>
      r <- random ;;
      roll diceSize remaining
        (Number.add total
           (Number.add (Number.floor (Number.mul r diceSize)) (of_Z 1)))
  end.

(** [dice.split('d')]: a new array of strings. *)
Definition split_d (dice : hvalue) : H hvalue :=
  match dice with
  | HStr s => alloc (HArr (HStr <$> split "d" s))
  | _ => read (fun _ => Throw TypeError)
  end.

Definition coin_value (diceData : hvalue) : H number :=
  dice <- read (fun h => hget h diceData "dice") ;;
  rolls <- split_d dice ;;
  numDice <- read (fun h => (x <- hget_at h rolls (of_Z 0) ;; hparseInt x)%outcome) ;;
  diceSize <- read (fun h => (x <- hget_at h rolls (of_Z 1) ;; hparseInt x)%outcome) ;;
  total <- roll diceSize (rounds numDice) (of_Z 0) ;;
  multiplier <- read (fun h => hget h diceData "multiplier") ;;
  multiplier <- read (fun _ => hto_number multiplier) ;;
  hret (Number.mul total multiplier).

Fixpoint generate_coins (todo : list (string * hvalue)) (coins : hvalue) : H unit :=
  match todo with
  | [] => hret tt
  | (coinType, diceData) :: todo =>
      if negb (String.eqb coinType "items") then
        amount <- coin_value diceData ;;
        _ <- assign coins coinType (HNum amount) ;;
        generate_coins todo coins
      else generate_coins todo coins
  end.

Fixpoint generate_items (itemPool treasureItems : hvalue) (remaining : nat)
  : H unit :=
  match remaining with
  | O => hret tt
  | S remaining =>
      item <- pick itemPool ;;
      _ <- push treasureItems item ;;
      generate_items itemPool treasureItems remaining
  end.

Definition generate_treasure (cr : Q) (type : option string) : H hvalue :=
  let type := default "individual" type in
  data <- fetch "treasure.json" ;;
  let crRange := cr_range cr in
  treasureData <- read (fun h => (t <- hget h data "treasure" ;;
                                  byType <- hget h t type ;;
                                  hget h byType crRange)%outcome) ;;
  items <- read (fun h => (t <- hget h data "treasure" ;;
                           hget h t "items")%outcome) ;;
  coins <- alloc (HObj []) ;;
  _ <- (if htruthy treasureData then
          todo <- read (fun h => Return (hentries h treasureData)) ;;
          generate_coins todo coins
        else hret tt) ;;
  treasureItems <- alloc (HArr []) ;;
  _ <- (if String.eqb type "hoard" && Number.ge (Num cr) (of_Z 5) then
          itemPool <- read (fun h => if Number.ge (Num cr) (of_Z 11)
                                     then hget h items "magic_major"
                                     else hget h items "magic_medium") ;;
          r <- random ;;
          let numItems :=
            Number.add (Number.floor (Number.mul r (of_Z 3))) (of_Z 1) in
          generate_items itemPool treasureItems (rounds numItems)
        else hret tt) ;;
  alloc (HObj [ ("challengeRating", HNum (Num cr));
                ("type", HStr type);
                ("coins", coins);
                ("items", treasureItems) ]).

Definition generate_weather (climate : string) (season : option string)
  : H hvalue :=
  data <- fetch "weather.json" ;;
  test <- read (fun h => if htruthy (hof_option season)
                         then hnested h data "weather" climate (default "" season)
                         else Return (hof_option season)) ;;
  weatherOptions <-
    (if htruthy test then
       read (fun h => (w <- hget h data "weather" ;;
                       byClimate <- hget h w climate ;;
                       hget h byClimate (default "" season))%outcome)
     else
       any <- read (fun h => hnested h data "weather" climate "any") ;;
       or_empty any) ;;
  len <- read (fun h => hget h weatherOptions "length") ;;
  if hstrict_eq_number len (of_Z 0) then
    alloc (HObj [ ("error", HStr ("No weather found for " +:+ climate
                                    +:+ " / " +:+ shown season)) ])
  else
    description <- pick weatherOptions ;;
    alloc (HObj [ ("climate", HStr climate);
                  ("season", hof_option season);
                  ("description", description) ]).

Definition generate_plot_hook (theme : string) (level : hvalue) : H hvalue :=
  data <- fetch "plot_hooks.json" ;;
  found <- read (fun h => (table <- hget h data "plot_hooks" ;;
                           hget h table theme)%outcome) ;;
  hooks <- or_empty found ;;
  len <- read (fun h => hget h hooks "length") ;;
  if hstrict_eq_number len (of_Z 0) then
    alloc (HObj [ ("error", HStr ("No plot hooks found for theme: " +:+ theme)) ])
  else
    hook <- pick hooks ;;
    alloc (HObj [ ("theme", HStr theme);
                  ("suggestedLevel", level);
                  ("hook", hook) ]).

End Tools.

(** A tool call whose arguments are in the store. *)
Inductive call :=
  | Encounter (level : hvalue) (environment : string) (difficulty : option string)
  | NpcName (race gender : string)
  | LocationName (type : string)
  | Personality (count : option Z)
  | Treasure (cr : Q) (type : option string)
  | Weather (climate : string) (season : option string)
  | PlotHook (theme : string) (level : hvalue).

Definition run (net : network) (rnd : source) (c : call) : H hvalue :=
  match c with
  | Encounter level environment difficulty =>
      generate_encounter net rnd level environment difficulty
  | NpcName race gender => generate_npc_name net rnd race gender
  | LocationName type => generate_location_name net rnd type
  | Personality count => generate_personality net rnd count
  | Treasure cr type => generate_treasure net rnd cr type
  | Weather climate season => generate_weather net rnd climate season
  | PlotHook theme level => generate_plot_hook net rnd theme level
  end.

Definition table_of (c : call) : string :=
  match c with
  | Encounter _ _ _ => "encounters.json"
  | NpcName _ _ => "names.json"
  | LocationName _ => "locations.json"
  | Personality _ => "traits.json"
  | Treasure _ _ => "treasure.json"
  | Weather _ _ => "weather.json"
  | PlotHook _ _ => "plot_hooks.json"
  end.

(** The tree a value of the store stands for, read down to [depth] levels
    of objects. *)
Fixpoint reify (depth : nat) (h : heap) (v : hvalue) : value :=
  match v with
  | HUndefined => VUndefined
  | HNull => VNull
  | HBool b => VBool b
  | HNum n => VNum n
  | HStr s => VStr s
  | HRef l =>
      match depth with
      | O => VUndefined
      | S depth =>
          match h !! l with
          | Some (HArr es) => VArr (reify depth h <$> es)
          | Some (HObj ps) => VObj (prod_map id (reify depth h) <$> ps)
          | None => VUndefined
          end
      end
  end.

(** The outcome of a run over the store, as an outcome of the run over
    trees. *)
Definition reified (depth : nat) (r : heap * outcome (hvalue * nat))
  : outcome (value * nat) :=
  match r.2 with
  | Return (v, n) => Return (reify depth r.1 v, n)
  | Throw e => Throw e
  | Unmodelled => Unmodelled
  end.

(** ** The frame of a run *)

(** A computation keeps the cells of [base]: started in a store that
    extends [base] it ends, however it ends, in a store that extends
    [base]; [Q] holds of what it returns. *)
Definition keeps {A} (base : heap) (m : H A) (Q : A -> Prop) : Prop :=
  forall h n,
    base ⊆ h ->
    base ⊆ (m h n).1 /\ forall a n', (m h n).2 = Return (a, n') -> Q a.

(** A reference to a cell that [base] does not have. *)
Definition fresh_in (base : heap) (v : hvalue) : Prop :=
  exists l, v = HRef l /\ base !! l = None.

(** What a run that starts with a fetch leaves of the store: after a table
    was parsed, every cell the store has at that point is unchanged at the
    end and the result is a new cell; after a failed fetch the store is the
    one the run started with. *)
Definition framed {B} (net : network) (filename : string) (m : H B)
    (fresh : heap -> B -> Prop) (h : heap) (n : nat) : Prop :=
  match fetchData net filename with
  | Return data =>
      (load data h).2 ⊆ (m h n).1
      /\ forall r n', (m h n).2 = Return (r, n') -> fresh (load data h).2 r
  | _ => (m h n).1 = h
  end.

End Store.

(** * The relation between the two translations

    A value of the store stands for a tree when the cells it reaches hold
    that tree; a run over the store agrees with a run over trees when both
    end the same way on related results. *)

(** The tools over trees, by the names they have outside the store. *)
Module Tree.
Abbreviation fetch := fetch.
Abbreviation random := random.
Abbreviation pick_index := pick_index.
Abbreviation pick := pick.
Abbreviation includes := includes.
Abbreviation select_traits := select_traits.
Abbreviation roll := roll.
Abbreviation split_d := split_d.
Abbreviation coin_value := coin_value.
Abbreviation generate_coins := generate_coins.
Abbreviation generate_items := generate_items.
Abbreviation generate_encounter := generate_encounter.
Abbreviation generate_npc_name := generate_npc_name.
Abbreviation generate_location_name := generate_location_name.
Abbreviation generate_personality := generate_personality.
Abbreviation generate_treasure := generate_treasure.
Abbreviation generate_weather := generate_weather.
Abbreviation generate_plot_hook := generate_plot_hook.
Abbreviation call := call.
Abbreviation run := run.
Abbreviation Encounter := Encounter.
Abbreviation NpcName := NpcName.
Abbreviation LocationName := LocationName.
Abbreviation Personality := Personality.
Abbreviation Treasure := Treasure.
Abbreviation Weather := Weather.
Abbreviation PlotHook := PlotHook.
End Tree.

Module Agreement.
Import Store.

(** A value of the store stands for a tree. *)
Inductive repr (h : heap) : hvalue -> value -> Prop :=
  | repr_undefined : repr h HUndefined VUndefined
  | repr_null : repr h HNull VNull
  | repr_bool b : repr h (HBool b) (VBool b)
  | repr_num n : repr h (HNum n) (VNum n)
  | repr_str s : repr h (HStr s) (VStr s)
  | repr_arr l hvs vs :
      h !! l = Some (HArr hvs) ->
      Forall2 (repr h) hvs vs ->
      repr h (HRef l) (VArr vs)
  | repr_obj l hps ps :
      h !! l = Some (HObj hps) ->
      Forall2 (fun hp p => hp.1 = p.1 /\ repr h hp.2 p.2) hps ps ->
      repr h (HRef l) (VObj ps).

(** Properties that stand for properties, name by name. *)
Definition repr_props (h : heap) : list (string * hvalue) -> list (string * value) -> Prop :=
  Forall2 (fun hp p => hp.1 = p.1 /\ repr h hp.2 p.2).

(** Two outcomes of the same kind, with related results. *)
Inductive same_outcome {A B} (R : A -> B -> Prop) : outcome A -> outcome B -> Prop :=
  | same_return a b : R a b -> same_outcome R (Return a) (Return b)
  | same_throw e : same_outcome R (Throw e) (Throw e)
  | same_unmodelled : same_outcome R Unmodelled Unmodelled.

(** A run over the store from [h] and [n] agrees with a run over trees from
    [n]: same kind of outcome, same count of draws, results related by [R]
    in the final store; the cells of [base] are in the final store,
    however the run ends. *)
Definition agrees {A B} (base : heap) (R : heap -> A -> B -> Prop)
    (m : H A) (p : M B) (h : heap) (n : nat) : Prop :=
  base ⊆ (m h n).1
  /\ same_outcome (fun a b => a.2 = b.2 /\ R (m h n).1 a.1 b.1) (m h n).2 (p n).

(** No two elements of a list are the same reference. *)
Definition distinct (hall : list hvalue) : Prop :=
  forall i j l, hall !! i = Some (HRef l) -> hall !! j = Some (HRef l) -> i = j.

(** A reference among the selected traits was read from the pool at the
    index it is kept with in the run over trees. *)
Definition tagged (hall : list hvalue) (hs : hvalue) (i : number) : Prop :=
  forall l, hs = HRef l ->
    exists z, Number.to_Z i = Some z /\ (0 <= z)%Z
              /\ hall !! Z.to_nat z = Some (HRef l).

(** The selected traits of the two runs. *)
Definition selected_agree (b : heap) (hall : list hvalue)
    (hsel : list hvalue) (sel : list (number * value)) : Prop :=
  Forall2 (fun hs s => repr b hs s.2 /\ tagged hall hs s.1) hsel sel.

(** The loops of [load] over the elements of an array and over the
    properties of an object. *)
Fixpoint load_all (l : list value) (h : heap) : list hvalue * heap :=
  match l with
  | [] => ([], h)
  | x :: r =>
      let '(hx, h1) := load x h in
      let '(hr, h2) := load_all r h1 in
      (hx :: hr, h2)
  end.

Fixpoint load_props (ps : list (string * value)) (h : heap)
  : list (string * hvalue) * heap :=
  match ps with
  | [] => ([], h)
  | (k, x) :: r =>
      let '(hx, h1) := load x h in
      let '(hr, h2) := load_props r h1 in
      ((k, hx) :: hr, h2)
  end.

(** The references among the elements of a list. *)
Definition refs (es : list hvalue) : list loc :=
  omap (fun e => match e with HRef l => Some l | _ => None end) es.

(** The references among the elements of an array of the store. *)
Definition element_refs (h : heap) (v : hvalue) : list loc :=
  refs (default [] (helements h v)).

(** The arrays that the properties of an object refer to share no
    element. *)
Definition separated (h : heap) (v : hvalue) : Prop :=
  forall ps, hprops h v = Some ps ->
    NoDup (flat_map (fun p => element_refs h p.2) ps).

(** A cell that a run has added to the store. *)
Definition born (h h' : heap) (l : loc) : Prop :=
  h !! l = None /\ is_Some (h' !! l).

(** The arguments of a call over the store stand for the arguments of a
    call over trees. *)
Inductive repr_call (h : heap) : Store.call -> Tree.call -> Prop :=
  | repr_encounter hlevel level environment difficulty :
      repr h hlevel level ->
      repr_call h (Store.Encounter hlevel environment difficulty)
        (Tree.Encounter level environment difficulty)
  | repr_npc_name race gender :
      repr_call h (Store.NpcName race gender) (Tree.NpcName race gender)
  | repr_location_name type :
      repr_call h (Store.LocationName type) (Tree.LocationName type)
  | repr_personality count :
      repr_call h (Store.Personality count) (Tree.Personality count)
  | repr_treasure cr type :
      repr_call h (Store.Treasure cr type) (Tree.Treasure cr type)
  | repr_weather climate season :
      repr_call h (Store.Weather climate season) (Tree.Weather climate season)
  | repr_plot_hook theme hlevel level :
      repr h hlevel level ->
      repr_call h (Store.PlotHook theme hlevel) (Tree.PlotHook theme level).

End Agreement.

(** ** Sample tables and sources *)

Module Sample.

(** Sources that always answer the same number. *)
Definition always (r : Q) : source := fun _ => r.

Definition encounters : value :=
  VObj [ ("encounters",
          VObj [ ("forest",
                  VObj [ ("medium",
                          VArr [ VObj [ ("name", VStr "Wolf pack");
                                        ("partyLevel", VNum (of_Z 5)) ];
                                 VObj [ ("name", VStr "Bandit ambush") ] ]);
                         ("deadly", VArr []) ]) ]) ].

Definition desert : list (string * list value) :=
  [ ("winter", []);
    ("summer", [ VStr "Scorching heat" ]);
    ("any", [ VStr "Dry wind"; VStr "Clear sky" ]) ].

Definition climates : list (string * value) :=
  [ ("desert", VObj (sequences desert)) ].

Definition weather : value := VObj [ ("weather", VObj climates) ].

Definition treasure : value :=
  VObj [ ("treasure",
          VObj [ ("individual",
                  VObj [ ("cr0-4",
                          VObj [ ("cp", VObj [ ("dice", VStr "5d6");
                                               ("multiplier", VNum (of_Z 1)) ]);
                                 ("gp", VObj [ ("dice", VStr "2d6");
                                               ("multiplier", VNum (of_Z 10)) ]) ]) ]);
                 ("hoard",
                  VObj [ ("cr5-10",
                          VObj [ ("gp", VObj [ ("dice", VStr "2d6");
                                               ("multiplier", VNum (of_Z 10)) ]) ]) ]);
                 ("items",
                  VObj [ ("magic_medium", VArr [ VStr "Potion of Healing";
                                                 VStr "Bag of Holding" ]);
                         ("magic_major", VArr [ VStr "Flame Tongue" ]) ]) ]) ].

Definition traits : value :=
  VObj [ ("traits", VArr [ VStr "Brave"; VStr "Curious" ]);
         ("ideals", VArr [ VStr "Honor" ]);
         ("bonds", VArr []);
         ("flaws", VArr [ VStr "Brave" ]);
         ("quirks", VArr [ VStr "Hums while working" ]) ].

Definition names : value :=
  VObj [ ("names",
          VObj [ ("elf", VObj [ ("female", VArr [ VStr "Arwen"; VStr "Idril" ]);
                                ("male", VArr []) ]) ]) ].

Definition locations : value :=
  VObj [ ("locations",
          VObj [ ("tavern",
                  VObj [ ("prefixes", VArr [ VStr "The Prancing" ]);
                         ("suffixes", VArr [ VStr "Pony"; VStr "Dragon" ]) ]) ]) ].

Definition plot_hooks : value :=
  VObj [ ("plot_hooks",
          VObj [ ("mystery",
                  VArr [ VObj [ ("title", VStr "The missing heir") ];
                         VObj [ ("title", VStr "A locked room") ] ]) ]) ].

(** Draws that differ from one call of the source to the next. *)
Definition varied : source :=
  fun n =>
    match n with
    | 0%nat => 0
    | 1%nat => 3 # 4
    | 2%nat => 1 # 2
    | _ => 7 # 8
    end%Q.

(** A second store with the same encounters. *)
Definition mirror : network :=
  fun _ => Some {| ok := true; statusText := ""; json := Some encounters |}.

(** A store that answers every request with the status 404. *)
Definition missing : network :=
  fun _ => Some {| ok := false; statusText := "Not Found"; json := None |}.

End Sample.

(** * Facts about the numbers *)

Module Binary64Facts.

Import Binary64.
Local Open Scope Q_scope.

Section PowerFacts.

Lemma pow2_pos e : 0 < pow2 e.
Proof. apply Qpower_0_lt. reflexivity. Qed.

Lemma pow2_add a b : pow2 (a + b) == pow2 a * pow2 b.
Proof. apply Qpower_plus. discriminate. Qed.

Lemma pow2_le a b : (a <= b)%Z -> pow2 a <= pow2 b.
Proof. intros H. apply Qpower_le_compat_l; [exact H|discriminate]. Qed.

Lemma pow2_lt a b : (a < b)%Z -> pow2 a < pow2 b.
Proof. intros H. apply Qpower_lt_compat_l; [exact H|reflexivity]. Qed.

Lemma pow2_lt_inv a b : pow2 a < pow2 b -> (a < b)%Z.
Proof. intros H. apply Qpower_lt_compat_l_inv with (q := 2); [exact H|reflexivity]. Qed.

Lemma pow2_Z n : (0 <= n)%Z -> pow2 n == inject_Z (2 ^ n).
Proof. intros H. unfold pow2. now rewrite Zpower_Qpower. Qed.

Lemma pow2_succ a : pow2 (a + 1) == 2 * pow2 a.
Proof. rewrite pow2_add. change (pow2 1) with 2. ring. Qed.

End PowerFacts.

Section ExponentFacts.

Lemma log2_bounds (p : Z) :
  (0 < p)%Z -> inject_Z p < 2 * pow2 (Z.log2 p) /\ pow2 (Z.log2 p) <= inject_Z p.
Proof.
  intros Hp. destruct (Z.log2_spec p Hp) as [Hlo Hhi].
  rewrite pow2_Z by apply Z.log2_nonneg. split.
  - change 2 with (inject_Z 2). rewrite <- inject_Z_mult, <- Zlt_Qlt.
    rewrite Z.pow_succ_r in Hhi by apply Z.log2_nonneg. exact Hhi.
  - now rewrite <- Zle_Qle.
Qed.

(** [exponent x] is the integer part of the binary logarithm of [x]. *)
Lemma exponent_spec x :
  0 < x -> pow2 (exponent x) <= x /\ x < pow2 (exponent x + 1).
Proof.
  intros Hx. destruct x as [p q].
  assert (Hp : (0 < p)%Z).
  { unfold Qlt in Hx. cbn in Hx. lia. }
  destruct (log2_bounds p Hp) as [Hp1 Hp2].
  destruct (log2_bounds (Zpos q) eq_refl) as [Hq1 Hq2].
  unfold exponent. cbn [Qnum Qden].
  set (lp := Z.log2 p) in *. set (lq := Z.log2 (Zpos q)) in *.
  assert (HA := pow2_pos lp). assert (HB := pow2_pos lq).
  assert (Hd : pow2 (lp - lq) * pow2 lq == pow2 lp).
  { rewrite <- pow2_add. now replace (lp - lq + lq)%Z with lp by lia. }
  assert (Hx' : (p # q) * inject_Z (Zpos q) == inject_Z p).
  { unfold Qeq. cbn. lia. }
  assert (HD := pow2_pos (lp - lq)).
  assert (Hup : p # q < 2 * pow2 (lp - lq)).
  { apply Qmult_lt_r with (z := pow2 lq); [exact HB|].
    setoid_replace (2 * pow2 (lp - lq) * pow2 lq) with (2 * pow2 lp) using relation Qeq
      by (rewrite <- Hd; ring).
    apply Qle_lt_trans with (y := (p # q) * inject_Z (Zpos q)).
    - apply Qmult_le_l; [exact Hx|exact Hq2].
    - rewrite Hx'. exact Hp1. }
  assert (Hdown : pow2 (lp - lq) < 2 * (p # q)).
  { apply Qmult_lt_r with (z := pow2 lq); [exact HB|].
    rewrite Hd.
    apply Qle_lt_trans with (y := (p # q) * inject_Z (Zpos q)).
    - rewrite Hx'. exact Hp2.
    - setoid_replace (2 * (p # q) * pow2 lq) with ((p # q) * (2 * pow2 lq)) using relation Qeq by ring.
      apply Qmult_lt_l; [exact Hx|exact Hq1]. }
  destruct (Qle_bool (pow2 (lp - lq)) (p # q)) eqn:E.
  - apply Qle_bool_iff in E. split; [exact E|]. now rewrite pow2_succ.
  - assert (Hlt : p # q < pow2 (lp - lq)).
    { apply Qnot_le_lt. intros H. apply Qle_bool_iff in H. congruence. }
    replace (lp - lq - 1 + 1)%Z with (lp - lq)%Z by lia.
    split; [|exact Hlt].
    assert (H2 : pow2 (lp - lq) == 2 * pow2 (lp - lq - 1)).
    { rewrite <- pow2_succ. now replace (lp - lq - 1 + 1)%Z with (lp - lq)%Z by lia. }
    rewrite H2 in Hdown. lra.
Qed.

Lemma exponent_unique x e :
  pow2 e <= x -> x < pow2 (e + 1) -> exponent x = e.
Proof.
  intros Hlo Hhi.
  assert (Hx : 0 < x) by (pose proof (pow2_pos e); lra).
  destruct (exponent_spec x Hx) as [Hlo' Hhi'].
  assert (exponent x < e + 1)%Z by (apply pow2_lt_inv; lra).
  assert (e < exponent x + 1)%Z by (apply pow2_lt_inv; lra).
  lia.
Qed.

Lemma exponent_le x y : 0 < x -> x <= y -> (exponent x <= exponent y)%Z.
Proof.
  intros Hx Hxy.
  destruct (exponent_spec x Hx) as [Hlo _].
  destruct (exponent_spec y ltac:(lra)) as [_ Hhi].
  assert (exponent x < exponent y + 1)%Z by (apply pow2_lt_inv; lra).
  lia.
Qed.

End ExponentFacts.

Section HalfEvenFacts.

Lemma half_even_floor y :
  (Qfloor y <= half_even y <= Qfloor y + 1)%Z.
Proof.
  unfold half_even.
  destruct (y - inject_Z (Qfloor y) ?= 1 # 2); [destruct (Z.even _)| |]; lia.
Qed.

Lemma half_even_near y :
  y - (1 # 2) <= inject_Z (half_even y) /\ inject_Z (half_even y) <= y + (1 # 2).
Proof.
  unfold half_even.
  pose proof (Qfloor_le y) as Hlo. pose proof (Qlt_floor y) as Hhi.
  rewrite inject_Z_plus in Hhi. change (inject_Z 1) with 1 in Hhi.
  destruct (Qcompare_spec (y - inject_Z (Qfloor y)) (1 # 2)) as [E|E|E].
  - destruct (Z.even _); rewrite ?inject_Z_plus; change (inject_Z 1) with 1; lra.
  - lra.
  - rewrite inject_Z_plus. change (inject_Z 1) with 1. lra.
Qed.

(** An integer stays where it is, and nothing is rounded across it. *)
Lemma half_even_le y (j : Z) : y <= inject_Z j -> (half_even y <= j)%Z.
Proof.
  intros Hy. unfold half_even.
  pose proof (Qfloor_le y) as Hlo.
  assert (Hf : (Qfloor y <= j)%Z).
  { rewrite <- (Qfloor_Z j). now apply Qfloor_resp_le. }
  destruct (Z.eq_dec (Qfloor y) j) as [Heq|Hne].
  - assert (Hyj : y == inject_Z j) by (rewrite <- Heq in *; lra).
    rewrite Heq.
    destruct (Qcompare_spec (y - inject_Z j) (1 # 2)) as [E|E|E]; try lra; lia.
  - destruct (y - inject_Z (Qfloor y) ?= 1 # 2); [destruct (Z.even _)| |]; lia.
Qed.

Lemma half_even_ge y (j : Z) : inject_Z j <= y -> (j <= half_even y)%Z.
Proof.
  intros Hy.
  assert (Hf : (j <= Qfloor y)%Z).
  { rewrite <- (Qfloor_Z j). now apply Qfloor_resp_le. }
  pose proof (half_even_floor y). lia.
Qed.

Lemma half_even_Z (j : Z) : half_even (inject_Z j) = j.
Proof.
  apply Z.le_antisymm; [apply half_even_le|apply half_even_ge]; lra.
Qed.

Lemma half_even_comp y y' : y == y' -> half_even y = half_even y'.
Proof.
  intros H. unfold half_even. rewrite (Qfloor_comp _ _ H).
  assert (E : (y - inject_Z (Qfloor y') ?= 1 # 2) = (y' - inject_Z (Qfloor y') ?= 1 # 2))
    by now rewrite H.
  now rewrite E.
Qed.

Lemma half_even_mono y y' : y <= y' -> (half_even y <= half_even y')%Z.
Proof.
  intros Hy.
  pose proof (Qfloor_resp_le _ _ Hy) as Hf.
  destruct (Z.eq_dec (Qfloor y) (Qfloor y')) as [Heq|Hne].
  - unfold half_even. rewrite <- Heq.
    destruct (Qcompare_spec (y - inject_Z (Qfloor y)) (1 # 2)) as [E|E|E];
      destruct (Qcompare_spec (y' - inject_Z (Qfloor y)) (1 # 2)) as [E'|E'|E'];
      try destruct (Z.even _); try lia; lra.
  - pose proof (half_even_floor y). pose proof (half_even_floor y'). lia.
Qed.

End HalfEvenFacts.

Section NearestFacts.

Lemma quantum_scale x : quantum x = pow2 (scale x).
Proof. reflexivity. Qed.

Lemma quantum_pos x : 0 < quantum x.
Proof. apply pow2_pos. Qed.

Lemma nearest_nonneg x : 0 <= x -> 0 <= nearest x.
Proof.
  intros Hx. unfold nearest. pose proof (quantum_pos x) as Hq.
  apply Qmult_le_0_compat; [|lra].
  change 0 with (inject_Z 0). rewrite <- Zle_Qle. apply half_even_ge.
  change (inject_Z 0) with 0. apply Qle_shift_div_l; [exact Hq|lra].
Qed.

(** Nothing is rounded across a multiple of the quantum. *)
Lemma nearest_le x (j : Z) :
  x <= inject_Z j * quantum x -> nearest x <= inject_Z j * quantum x.
Proof.
  intros Hx. unfold nearest. pose proof (quantum_pos x) as Hq.
  apply Qmult_le_compat_r; [|lra].
  rewrite <- Zle_Qle. apply half_even_le.
  apply Qle_shift_div_r; [exact Hq|exact Hx].
Qed.

Lemma nearest_ge x (j : Z) :
  inject_Z j * quantum x <= x -> inject_Z j * quantum x <= nearest x.
Proof.
  intros Hx. unfold nearest. pose proof (quantum_pos x) as Hq.
  apply Qmult_le_compat_r; [|lra].
  rewrite <- Zle_Qle. apply half_even_ge.
  apply Qle_shift_div_l; [exact Hq|exact Hx].
Qed.

Lemma nearest_near x :
  x - quantum x * (1 # 2) <= nearest x /\ nearest x <= x + quantum x * (1 # 2).
Proof.
  unfold nearest. pose proof (quantum_pos x) as Hq.
  destruct (half_even_near (x / quantum x)) as [Hlo Hhi].
  set (q := quantum x) in *. set (m := inject_Z (half_even (x / q))) in *.
  assert (E : x == x / q * q) by (field; lra).
  set (y := x / q) in *. clearbody y m q.
  split.
  - apply Qle_trans with (y := (y - (1 # 2)) * q).
    + rewrite E. ring_simplify. lra.
    + apply Qmult_le_compat_r; lra.
  - apply Qle_trans with (y := (y + (1 # 2)) * q).
    + apply Qmult_le_compat_r; lra.
    + rewrite E. ring_simplify. lra.
Qed.

(** A power of two from the quantum on is a multiple of the quantum. *)
Lemma pow2_multiple x a :
  (scale x <= a)%Z -> pow2 a == inject_Z (2 ^ (a - scale x)) * quantum x.
Proof.
  intros Ha. rewrite quantum_scale, <- pow2_Z by lia. rewrite <- pow2_add.
  now replace (a - scale x + scale x)%Z with a by lia.
Qed.

Lemma integer_multiple x (k : Z) :
  (scale x <= 0)%Z -> inject_Z k == inject_Z (k * 2 ^ (- scale x)) * quantum x.
Proof.
  intros Hs. rewrite inject_Z_mult, <- Qmult_assoc.
  replace (- scale x)%Z with (0 - scale x)%Z by lia.
  rewrite <- (pow2_multiple x 0 Hs). change (pow2 0) with 1. ring.
Qed.

Lemma scale_small x : 0 < x -> x < pow2 53 -> (scale x <= 0)%Z.
Proof.
  intros Hx Hlt. destruct (exponent_spec x Hx) as [Hlo _].
  assert (exponent x < 53)%Z by (apply pow2_lt_inv; lra).
  unfold scale. lia.
Qed.

(** The quantum is at most the 52nd binary place of [x], except among the
    subnormal numbers. *)
Lemma quantum_bound x :
  0 < x -> quantum x * pow2 52 <= x \/ quantum x == pow2 (-1074).
Proof.
  intros Hx. destruct (exponent_spec x Hx) as [Hlo _].
  rewrite quantum_scale. unfold scale.
  destruct (Z.max_spec (exponent x - 52) (-1074)) as [[_ ->]|[_ ->]].
  - now right.
  - left. rewrite <- pow2_add.
    now replace (exponent x - 52 + 52)%Z with (exponent x) by lia.
Qed.

Lemma nearest_mono x y : 0 < x -> x <= y -> nearest x <= nearest y.
Proof.
  intros Hx Hxy.
  assert (Hy : 0 < y) by lra.
  pose proof (exponent_le x y Hx Hxy) as He.
  destruct (Z.eq_dec (scale x) (scale y)) as [Hs|Hs].
  - unfold nearest. rewrite !quantum_scale, Hs.
    pose proof (pow2_pos (scale y)) as Hq.
    apply Qmult_le_compat_r; [|lra].
    rewrite <- Zle_Qle. apply half_even_mono.
    apply Qmult_le_compat_r; [exact Hxy|].
    apply Qlt_le_weak, Qinv_lt_0_compat, Hq.
  - assert (Hlt : (scale x < scale y)%Z) by (unfold scale in *; lia).
    assert (Hsy : scale y = (exponent y - 52)%Z) by (unfold scale in *; lia).
    set (a := Z.max (exponent x + 1) (-1074)).
    assert (Ha : (scale x <= a)%Z) by (unfold scale, a; lia).
    assert (Hay : (a <= exponent y)%Z) by (unfold scale, a in *; lia).
    destruct (exponent_spec x Hx) as [_ Hxhi].
    destruct (exponent_spec y Hy) as [Hylo _].
    apply Qle_trans with (y := pow2 a).
    + rewrite (pow2_multiple x a Ha). apply nearest_le.
      rewrite <- (pow2_multiple x a Ha).
      apply Qle_trans with (y := pow2 (exponent x + 1)); [lra|].
      apply pow2_le. unfold a. lia.
    + apply Qle_trans with (y := pow2 (exponent y)); [now apply pow2_le|].
      assert (Hey : (scale y <= exponent y)%Z) by lia.
      rewrite (pow2_multiple y (exponent y) Hey). apply nearest_ge.
      now rewrite <- (pow2_multiple y (exponent y) Hey).
Qed.

End NearestFacts.

Section RoundFacts.

Lemma Qred_Z (k : Z) : Qred (inject_Z k) = inject_Z k.
Proof.
  unfold Qred, inject_Z.
  pose proof (Z.ggcd_gcd k 1) as Hg. pose proof (Z.ggcd_correct_divisors k 1) as Hd.
  destruct (Z.ggcd k 1) as [g [a b]]. cbn [fst snd] in *.
  rewrite Z.gcd_1_r in Hg. subst g. destruct Hd as [-> Hb].
  assert (b = 1%Z) as -> by lia. now rewrite Z.mul_1_l.
Qed.

(** The result is a fraction in lowest terms. *)
Lemma round_red x : Qred (round x) = round x.
Proof. unfold round. apply Qred_complete, Qred_correct. Qed.

Lemma round_pos x : 0 < x -> round x == nearest (Qred x).
Proof.
  intros Hx. unfold round. rewrite Qred_correct.
  destruct (Qcompare_spec x 0); lra.
Qed.

Lemma round_zero x : x == 0 -> round x = 0.
Proof.
  intros Hx. unfold round. destruct (Qcompare_spec x 0); try lra. reflexivity.
Qed.

(** The rounding depends on the number only, not on the fraction that
    denotes it. *)
Lemma round_comp x y : x == y -> round x = round y.
Proof.
  intros H. unfold round. rewrite (Qred_complete x y H).
  assert (Ho : Qred (- x) = Qred (- y)) by (apply Qred_complete; now rewrite H).
  rewrite Ho.
  assert (E : (x ?= 0) = (y ?= 0)) by now rewrite H.
  now rewrite E.
Qed.

Lemma round_nonneg x : 0 <= x -> 0 <= round x.
Proof.
  intros Hx. destruct (Qlt_le_dec 0 x) as [Hpos|Hle].
  - rewrite (round_pos x Hpos). apply nearest_nonneg. rewrite Qred_correct. lra.
  - rewrite (round_zero x); lra.
Qed.

Lemma round_mono x y : 0 <= x -> x <= y -> round x <= round y.
Proof.
  intros Hx Hxy. destruct (Qlt_le_dec 0 x) as [Hpos|Hle].
  - rewrite (round_pos x Hpos), (round_pos y) by lra.
    apply nearest_mono; rewrite !Qred_correct; lra.
  - rewrite (round_zero x) by lra. apply round_nonneg. lra.
Qed.

(** Below [2 ^ 53] nothing is rounded across an integer. *)
Lemma round_le_Z x (k : Z) :
  0 <= x -> x < pow2 53 -> x <= inject_Z k -> round x <= inject_Z k.
Proof.
  intros Hx Hlt Hk. destruct (Qlt_le_dec 0 x) as [Hpos|Hle].
  - rewrite (round_pos x Hpos).
    assert (Hs : (scale (Qred x) <= 0)%Z) by (apply scale_small; rewrite Qred_correct; lra).
    rewrite (integer_multiple (Qred x) k Hs). apply nearest_le.
    rewrite <- (integer_multiple (Qred x) k Hs). now rewrite Qred_correct.
  - rewrite (round_zero x); lra.
Qed.

Lemma round_ge_Z x (k : Z) :
  0 <= x -> x < pow2 53 -> inject_Z k <= x -> inject_Z k <= round x.
Proof.
  intros Hx Hlt Hk. destruct (Qlt_le_dec 0 x) as [Hpos|Hle].
  - rewrite (round_pos x Hpos).
    assert (Hs : (scale (Qred x) <= 0)%Z) by (apply scale_small; rewrite Qred_correct; lra).
    rewrite (integer_multiple (Qred x) k Hs). apply nearest_ge.
    rewrite <- (integer_multiple (Qred x) k Hs). now rewrite Qred_correct.
  - rewrite (round_zero x); lra.
Qed.

(** The integers below [2 ^ 53] are binary64 values. *)
Lemma round_Z (k : Z) : (0 <= k < 2 ^ 53)%Z -> round (inject_Z k) = inject_Z k.
Proof.
  intros [Hlo Hhi].
  assert (H0 : 0 <= inject_Z k) by (change 0 with (inject_Z 0); now rewrite <- Zle_Qle).
  assert (H53 : inject_Z k < pow2 53).
  { rewrite pow2_Z by lia. now rewrite <- Zlt_Qlt. }
  assert (E : round (inject_Z k) == inject_Z k).
  { apply Qle_antisym; [apply round_le_Z|apply round_ge_Z]; lra. }
  apply Qred_complete in E. now rewrite Qred_Z, round_red in E.
Qed.

(** The relative error of a rounding is at most [epsilon]; the absolute
    error among the subnormal numbers is at most half the least positive
    value. *)
Lemma round_near x :
  0 <= x -> round x <= x * (1 + epsilon) \/ round x <= x + pow2 (-1075).
Proof.
  intros Hx. destruct (Qlt_le_dec 0 x) as [Hpos|Hle].
  - rewrite (round_pos x Hpos).
    pose proof (Qred_correct x) as Hz. set (z := Qred x) in *. clearbody z.
    rewrite <- Hz. assert (Hr : 0 < z) by lra. clear Hz Hx Hpos.
    destruct (nearest_near z) as [_ Hhi].
    destruct (quantum_bound z Hr) as [Hq|Hq].
    + left.
      assert (Hh : quantum z * (1 # 2) <= z * epsilon).
      { unfold epsilon.
        assert (E' : pow2 52 * pow2 (-52) == 1) by reflexivity.
        assert (E2 : pow2 (-53) == pow2 (-52) * (1 # 2)) by reflexivity.
        pose proof (pow2_pos (-52)) as H52.
        rewrite E2.
        setoid_replace (z * (pow2 (-52) * (1 # 2))) with (z * pow2 (-52) * (1 # 2)) using relation Qeq by ring.
        apply Qmult_le_compat_r; [|lra].
        apply Qle_trans with (y := quantum z * pow2 52 * pow2 (-52)).
        - rewrite <- Qmult_assoc, E'. lra.
        - apply Qmult_le_compat_r; lra. }
      lra.
    + right.
      assert (E : pow2 (-1074) * (1 # 2) == pow2 (-1075)).
      { replace (-1074)%Z with (-1075 + 1)%Z by lia. rewrite pow2_succ. field. }
      lra.
  - left. rewrite (round_zero x) by lra.
    assert (0 < epsilon) by apply pow2_pos.
    apply Qmult_le_0_compat; lra.
Qed.

(** What is below [c] by the relative error at least is rounded below
    [c]. *)
Lemma round_below x c :
  0 <= x -> 1 <= c -> x <= c * (1 - epsilon) -> round x < c.
Proof.
  intros Hx Hc Hxc.
  assert (He : 0 < epsilon) by apply pow2_pos.
  assert (Hd : pow2 (-1075) < epsilon) by (apply pow2_lt; lia).
  assert (Hd0 : 0 < pow2 (-1075)) by apply pow2_pos.
  destruct (round_near x Hx) as [H|H].
  - apply Qle_lt_trans with (y := x * (1 + epsilon)); [exact H|].
    apply Qle_lt_trans with (y := c * (1 - epsilon) * (1 + epsilon)).
    + apply Qmult_le_compat_r; lra.
    + setoid_replace (c * (1 - epsilon) * (1 + epsilon))
        with (c - c * (epsilon * epsilon)) using relation Qeq by ring.
      assert (0 < c * (epsilon * epsilon)); [|lra].
      apply Qmult_lt_0_compat; [lra|]. now apply Qmult_lt_0_compat.
  - apply Qle_lt_trans with (y := x + pow2 (-1075)); [exact H|].
    assert (epsilon <= c * epsilon); [|lra].
    rewrite <- (Qmult_1_l epsilon) at 1. apply Qmult_le_compat_r; lra.
Qed.

(** A binary64 value below one is at most [1 - epsilon]. *)
Lemma unit_le r : 0 <= r -> r < 1 -> round r == r -> r <= 1 - epsilon.
Proof.
  intros H0 H1 Hr. destruct (Qlt_le_dec 0 r) as [Hpos|Hle].
  - rewrite (round_pos r Hpos) in Hr.
    pose proof (Qred_correct r) as Hz. set (z := Qred r) in *. clearbody z.
    assert (Hp : 0 < z) by lra.
    destruct (exponent_spec z Hp) as [Hlo Hhi].
    assert (He : (exponent z < 0)%Z).
    { apply pow2_lt_inv. change (pow2 0) with 1. lra. }
    destruct (Z.eq_dec (exponent z) (-1)) as [E|E].
    + unfold nearest in Hr.
      rewrite quantum_scale in Hr. unfold scale in Hr. rewrite E in Hr.
      change (pow2 (Z.max (-1 - 52) (-1074))) with epsilon in Hr.
      set (m := half_even (z / epsilon)) in *.
      assert (He' : 0 < epsilon) by apply pow2_pos.
      assert (E53 : inject_Z (2 ^ 53) * epsilon == 1) by reflexivity.
      assert (Hm : (m < 2 ^ 53)%Z).
      { rewrite Zlt_Qlt.
        apply Qmult_lt_r with (z := epsilon); [exact He'|]. rewrite E53, Hr. exact H1. }
      assert (Hm' : inject_Z m <= inject_Z (2 ^ 53 - 1)) by (rewrite <- Zle_Qle; lia).
      assert (E1 : inject_Z (2 ^ 53 - 1) * epsilon == 1 - epsilon) by reflexivity.
      rewrite <- Hr, <- E1.
      apply Qmult_le_compat_r; [exact Hm'|]. now apply Qlt_le_weak.
    + assert (Hh : pow2 (exponent z + 1) <= pow2 (-1)) by (apply pow2_le; lia).
      assert (E1 : pow2 (-1) <= 1 - epsilon) by (vm_compute; discriminate).
      lra.
  - assert (E1 : 0 <= 1 - epsilon) by (vm_compute; discriminate). lra.
Qed.

(** [Math.floor(r * n)] for a draw [r] and a positive [n]. *)
Lemma floor_round_bounds r (n : Z) :
  0 <= r -> r < 1 -> round r == r -> (0 < n)%Z ->
  (0 <= Qfloor (round (r * inject_Z n)) < n)%Z.
Proof.
  intros H0 H1 Hr Hn.
  assert (Hpos : 1 <= inject_Z n).
  { change 1 with (inject_Z 1). rewrite <- Zle_Qle. lia. }
  assert (Hx : 0 <= r * inject_Z n) by (apply Qmult_le_0_compat; lra).
  split.
  - rewrite <- (Qfloor_Z 0). apply Qfloor_resp_le, round_nonneg, Hx.
  - rewrite Zlt_Qlt. eapply Qle_lt_trans; [apply Qfloor_le|].
    apply round_below; [exact Hx|exact Hpos|].
    rewrite (Qmult_comm (inject_Z n)).
    apply Qmult_le_compat_r; [|lra]. now apply unit_le.
Qed.

(** [0.6 * 5] is [3], [3 * 0.1] is [0.30000000000000004] and
    [0.6666666666666666 * 3] is [2]; the least positive value is
    [2 ^ -1074], and half of it is rounded to zero. *)
Example round_samples :
  round (round (3 # 5) * 5) = 3
  /\ round (3 * round (1 # 10)) = 1351079888211149 # 4503599627370496
  /\ round (round (2 # 3) * 3) = 2
  /\ round (pow2 (-1074)) == pow2 (-1074)
  /\ round (pow2 (-1075)) = 0.
Proof. repeat split; vm_compute; reflexivity. Qed.

End RoundFacts.

End Binary64Facts.

(** * Facts about the primitives *)

Section NumberFacts.

Lemma to_Z_of_Z z : Number.to_Z (of_Z z) = Some z.
Proof.
  unfold Number.to_Z, of_Z. rewrite Qfloor_Z, Qeq_bool_refl. reflexivity.
Qed.

Lemma rounds_of_Z z : rounds (of_Z z) = Z.to_nat z.
Proof. unfold rounds, of_Z. now rewrite Qceiling_Z. Qed.

(** [rounds] counts the values of [i] for which the test [i < bound] of the
    loop succeeds. *)
Lemma rounds_spec bound (i : nat) :
  Number.lt (of_nat i) bound = true <-> (i < rounds bound)%nat.
Proof.
  destruct bound as [|q]; cbn [Number.lt of_nat of_Z rounds].
  - split; [discriminate|lia].
  - rewrite negb_true_iff. split.
    + intros H.
      assert (Hlt : (inject_Z (Z.of_nat i) < q)%Q).
      { apply Qnot_le_lt. intros Hle. apply Qle_bool_iff in Hle. congruence. }
      assert (Z.of_nat i < Qceiling q)%Z; [|lia].
      rewrite Zlt_Qlt. eapply Qlt_le_trans; [exact Hlt|apply Qle_ceiling].
    + intros H. apply not_true_is_false. intros Hle. apply Qle_bool_iff in Hle.
      assert (Hc : (Z.of_nat i <= Qceiling q - 1)%Z) by lia.
      rewrite Zle_Qle in Hc.
      pose proof (Qceiling_lt q) as Hq.
      apply (Qlt_irrefl q).
      eapply Qle_lt_trans; [exact Hle|].
      eapply Qle_lt_trans; [exact Hc|exact Hq].
Qed.

Lemma in_unit_spec r :
  in_unit r = true <-> (0 <= r /\ r < 1 /\ Binary64.round r == r)%Q.
Proof.
  unfold in_unit.
  rewrite !andb_true_iff, negb_true_iff, Qle_bool_iff, Qeq_bool_iff.
  split.
  - intros [[H0 H1] Hr]. split; [exact H0|]. split; [|exact Hr].
    apply Qnot_le_lt. intros H. apply Qle_bool_iff in H. congruence.
  - intros (H0 & H1 & Hr). split; [split; [exact H0|]|exact Hr].
    destruct (Qle_bool 1 r) eqn:E; auto.
    apply Qle_bool_iff in E. exfalso. eapply Qlt_not_le; eauto.
Qed.

(** A draw selects a valid index of a non-empty sequence: the product is
    rounded below the length. *)
Lemma floor_draw_bounds r (len : Z) :
  in_unit r = true -> (0 < len)%Z ->
  (0 <= Qfloor (Binary64.round (r * inject_Z len)) < len)%Z.
Proof.
  intros Hr Hlen. apply in_unit_spec in Hr. destruct Hr as (H0 & H1 & Hr).
  now apply Binary64Facts.floor_round_bounds.
Qed.

Lemma drawn_index_lt r len :
  in_unit r = true -> (0 < len)%nat -> (drawn_index r len < len)%nat.
Proof.
  intros Hr Hlen. unfold drawn_index.
  pose proof (floor_draw_bounds r (Z.of_nat len) Hr ltac:(lia)). lia.
Qed.

(** Uniformity, up to the rounding of the product: the index [k] is
    selected by the draws [r] with [k <= r * len <= (k + 1) * (1 - epsilon)],
    and by draws with [k * (1 - epsilon) <= r * len < k + 1] only. *)
Lemma drawn_index_interval r len k :
  in_unit r = true -> (0 < len)%nat -> (Z.of_nat len < 2 ^ 53)%Z ->
  ((inject_Z (Z.of_nat k) <= r * inject_Z (Z.of_nat len)
    /\ r * inject_Z (Z.of_nat len)
       <= inject_Z (Z.of_nat k + 1) * (1 - Binary64.epsilon))%Q ->
   drawn_index r len = k)
  /\ (drawn_index r len = k ->
      (inject_Z (Z.of_nat k) * (1 - Binary64.epsilon)
       <= r * inject_Z (Z.of_nat len)
       /\ r * inject_Z (Z.of_nat len) < inject_Z (Z.of_nat k + 1))%Q).
Proof.
  intros Hr Hlen H53. unfold drawn_index.
  pose proof (floor_draw_bounds r (Z.of_nat len) Hr ltac:(lia)) as Hb.
  apply in_unit_spec in Hr. destruct Hr as (H0 & H1 & _).
  set (x := (r * inject_Z (Z.of_nat len))%Q) in *.
  assert (Hlen' : (1 <= inject_Z (Z.of_nat len))%Q).
  { change 1%Q with (inject_Z 1). rewrite <- Zle_Qle. lia. }
  assert (Hx0 : (0 <= x)%Q) by (apply Qmult_le_0_compat; lra).
  assert (Hx53 : (x < Binary64.pow2 53)%Q).
  { apply Qle_lt_trans with (y := inject_Z (Z.of_nat len)).
    - unfold x. rewrite <- (Qmult_1_l (inject_Z (Z.of_nat len))) at 2.
      apply Qmult_le_compat_r; lra.
    - rewrite Binary64Facts.pow2_Z by lia. now rewrite <- Zlt_Qlt. }
  split.
  - intros [Hlo Hhi].
    assert (Qfloor (Binary64.round x) = Z.of_nat k); [|lia].
    apply Z.le_antisymm.
    + apply Z.lt_succ_r. rewrite Zlt_Qlt.
      eapply Qle_lt_trans; [apply Qfloor_le|].
      apply Binary64Facts.round_below; [exact Hx0| |exact Hhi].
      change 1%Q with (inject_Z 1). rewrite <- Zle_Qle. lia.
    + rewrite <- (Qfloor_Z (Z.of_nat k)). apply Qfloor_resp_le.
      now apply Binary64Facts.round_ge_Z.
  - intros Hk.
    assert (Hfl : Qfloor (Binary64.round x) = Z.of_nat k) by lia.
    pose proof (Qfloor_le (Binary64.round x)) as Hle.
    pose proof (Qlt_floor (Binary64.round x)) as Hlt.
    rewrite Hfl in Hle, Hlt. split.
    + destruct k as [|k].
      * change (inject_Z (Z.of_nat 0)) with 0%Q. lra.
      * apply Qnot_lt_le. intros Hc.
        assert (Binary64.round x < inject_Z (Z.of_nat (S k)))%Q; [|lra].
        apply Binary64Facts.round_below; [exact Hx0| |lra].
        change 1%Q with (inject_Z 1). rewrite <- Zle_Qle. lia.
    + apply Qnot_le_lt. intros Hc.
      pose proof (Binary64Facts.round_ge_Z x (Z.of_nat k + 1) Hx0 Hx53 Hc). lra.
Qed.

(** Sums below [2 ^ 53] of integers that are not negative are exact. *)
Lemma add_of_Z (a b : Z) :
  (0 <= a + b < 2 ^ 53)%Z -> Number.add (of_Z a) (of_Z b) = of_Z (a + b).
Proof.
  intros H. unfold Number.add, of_Z. f_equal.
  rewrite (Binary64Facts.round_comp _ (inject_Z (a + b)))
    by (now rewrite inject_Z_plus).
  now apply Binary64Facts.round_Z.
Qed.

End NumberFacts.

Section MonadFacts.

Context {A B : Type}.

Lemma bind_lift (o : outcome A) (f : A -> M B) n :
  bind (lift o) f n
  = match o with
    | Return a => f a n
    | Throw e => Throw e
    | Unmodelled => Unmodelled
    end.
Proof. destruct o; reflexivity. Qed.

Lemma bind_returns (m : M A) (f : A -> M B) n a n' :
  m n = Return (a, n') -> bind m f n = f a n'.
Proof. unfold bind. now intros ->. Qed.

End MonadFacts.

Section AccessFacts.

Lemma get_own ps k x : own_prop k ps = Some x -> get (VObj ps) k = Return x.
Proof. intros H. simpl. now rewrite H. Qed.

Lemma get_absent ps k :
  own_prop k ps = None -> inherited k = false ->
  get (VObj ps) k = Return VUndefined.
Proof. intros H Hk. simpl. now rewrite H, Hk. Qed.


Lemma lookup_path_cons v k path x :
  lookup_path v (k :: path) = Some x ->
  exists ps y, v = VObj ps /\ own_prop k ps = Some y /\ lookup_path y path = Some x.
Proof.
  simpl. destruct v; try discriminate.
  destruct (own_prop k props) eqn:E; try discriminate. eauto.
Qed.

Lemma lookup_path_nil v x : lookup_path v [] = Some x -> v = x.
Proof. simpl. congruence. Qed.

Lemma cr_range_cases cr :
  cr_range cr ∈ [ "cr17+"; "cr11-16"; "cr5-10"; "cr0-4" ].
Proof.
  unfold cr_range.
  repeat match goal with |- context [if ?b then _ else _] => destruct b end;
    set_solver.
Qed.

Lemma cr_range_not_inherited cr : inherited (cr_range cr) = false.
Proof.
  pose proof (cr_range_cases cr) as H.
  repeat (apply elem_of_cons in H as [-> | H]; [reflexivity|]).
  inversion H.
Qed.

End AccessFacts.

(** Reads a path hypothesis off into the shape of the table. *)
Ltac path_inv H :=
  repeat lazymatch type of H with
    | lookup_path _ (_ :: _) = Some _ =>
        let ps := fresh "ps" in
        let y := fresh "y" in
        let Hv := fresh "Hv" in
        let Hk := fresh "Hk" in
        apply lookup_path_cons in H as (ps & y & Hv & Hk & H);
        try (injection Hv as Hv); subst
    | lookup_path _ [] = Some _ => apply lookup_path_nil in H; subst
    end.

Section PickFacts.

Variable rnd : source.

Lemma pick_index_array l n :
  pick_index rnd (VArr l) n
  = Return (of_Z (Qfloor (Binary64.round (rnd n * inject_Z (Z.of_nat (length l))))),
            S n).
Proof. reflexivity. Qed.

(** A pick from a non-empty array returns the element at the drawn index
    and consumes one draw. *)
Lemma pick_array l n :
  in_unit (rnd n) = true -> l <> [] ->
  exists x, l !! drawn_index (rnd n) (length l) = Some x
            /\ pick rnd (VArr l) n = Return (x, S n).
Proof.
  intros Hr Hl.
  assert (Hlen : (0 < length l)%nat) by (destruct l; simpl; [congruence|lia]).
  pose proof (drawn_index_lt _ _ Hr Hlen) as Hlt.
  destruct (lookup_lt_is_Some_2 l _ Hlt) as [x Hx].
  exists x. split; [exact Hx|].
  unfold pick, bind. rewrite pick_index_array. unfold lift, get_at.
  rewrite to_Z_of_Z.
  pose proof (floor_draw_bounds _ (Z.of_nat (length l)) Hr ltac:(lia)) as Hb.
  destruct (Z.leb_spec
              0 (Qfloor (Binary64.round (rnd n * inject_Z (Z.of_nat (length l))))));
    [|lia].
  unfold drawn_index in Hx.
  change (default [] (elements (VArr l))) with l. now rewrite Hx.
Qed.


Lemma length_of_array l :
  get (VArr l) "length" = Return (VNum (of_nat (length l))).
Proof. reflexivity. Qed.

Lemma strict_eq_zero_length (l : list value) :
  strict_eq_number (VNum (of_nat (length l))) (of_Z 0)
  = match l with [] => true | _ :: _ => false end.
Proof.
  destruct l as [|x l]; [reflexivity|].
  unfold strict_eq_number, of_nat, of_Z, Number.eq.
  apply not_true_is_false. intros H. apply Qeq_bool_eq in H.
  revert H. unfold Qeq, inject_Z, Qnum, Qden. simpl length. lia.
Qed.

End PickFacts.

(** * The treasure generator *)

Section TreasureFacts.

Variable net : network.
Variable rnd : source.

(** [generate_treasure] on a table that has the requested type: the
    bucket read is the one [cr_range] names, absent when the type does not
    own it. *)
Lemma generate_treasure_phases cr type data t buckets n :
  fetchData net "treasure.json" = Return data ->
  lookup_path data [ "treasure" ] = Some (VObj t) ->
  own_prop (default "individual" type) t = Some (VObj buckets) ->
  generate_treasure net rnd cr type n
  = (coins <- treasure_coins rnd
                (default VUndefined (own_prop (cr_range cr) buckets)) ;;
     treasureItems <- treasure_items rnd
                        (default VUndefined (own_prop "items" t))
                        cr (default "individual" type) ;;
     ret (VObj [ ("challengeRating", VNum (Num cr));
                 ("type", VStr (default "individual" type));
                 ("coins", VObj coins);
                 ("items", VArr treasureItems) ])) n.
Proof.
  intros Hfetch Hpath Htype. path_inv Hpath.
  assert (Hbucket : get (VObj buckets) (cr_range cr)
                    = Return (default VUndefined (own_prop (cr_range cr) buckets))).
  { destruct (own_prop (cr_range cr) buckets) eqn:E.
    - now apply get_own.
    - apply get_absent; auto using cr_range_not_inherited. }
  assert (Hitems : get (VObj t) "items"
                   = Return (default VUndefined (own_prop "items" t))).
  { destruct (own_prop "items" t) eqn:E.
    - now apply get_own.
    - now apply get_absent. }
  unfold generate_treasure, fetch. cbv zeta.
  rewrite bind_lift, Hfetch. cbv beta iota.
  rewrite bind_lift, (get_own _ _ _ Hk). cbn [and_then].
  rewrite (get_own _ _ _ Htype). cbn [and_then]. rewrite Hbucket.
  cbv beta iota.
  rewrite bind_lift. cbn [and_then]. rewrite Hitems. reflexivity.
Qed.

End TreasureFacts.

(** C1 — [generate_treasure] selects its bucket by the thresholds 17, 11 and
    5, tried in that order: a rating of at least 17 selects "cr17+", otherwise
    one of at least 11 selects "cr11-16", otherwise one of at least 5 selects
    "cr5-10", otherwise "cr0-4"; the ratings 16 and 17 select "cr11-16" and
    "cr17+".  The bucket selected is the only one the call reads: two tables
    that agree on it and on the items give the same outcome. *)
Theorem cr_range_thresholds (cr : Q) :
  ((17 <= cr)%Q -> cr_range cr = "cr17+")
  /\ ((11 <= cr)%Q /\ (cr < 17)%Q -> cr_range cr = "cr11-16")
  /\ ((5 <= cr)%Q /\ (cr < 11)%Q -> cr_range cr = "cr5-10")
  /\ ((cr < 5)%Q -> cr_range cr = "cr0-4")
  /\ cr_range 16 = "cr11-16"
  /\ cr_range 17 = "cr17+"
  /\ forall net net' rnd type n data data' t t' buckets buckets',
      fetchData net "treasure.json" = Return data ->
      fetchData net' "treasure.json" = Return data' ->
      lookup_path data [ "treasure" ] = Some (VObj t) ->
      lookup_path data' [ "treasure" ] = Some (VObj t') ->
      own_prop (default "individual" type) t = Some (VObj buckets) ->
      own_prop (default "individual" type) t' = Some (VObj buckets') ->
      own_prop (cr_range cr) buckets = own_prop (cr_range cr) buckets' ->
      own_prop "items" t = own_prop "items" t' ->
      generate_treasure net rnd cr type n = generate_treasure net' rnd cr type n.
Proof.
  assert (Hge : forall k : Z, Number.ge (Num cr) (of_Z k) = true <-> (inject_Z k <= cr)%Q).
  { intros k. unfold Number.ge, of_Z. apply Qle_bool_iff. }
  assert (Hlt : forall k : Z, (cr < inject_Z k)%Q -> Number.ge (Num cr) (of_Z k) = false).
  { intros k H. apply not_true_is_false. rewrite Hge. now apply Qlt_not_le. }
  repeat split.
  - intros H. unfold cr_range. now rewrite (proj2 (Hge 17%Z) H).
  - intros [H1 H2]. unfold cr_range.
    now rewrite (Hlt 17%Z H2), (proj2 (Hge 11%Z) H1).
  - intros [H1 H2]. unfold cr_range.
    assert (cr < 17)%Q by (eapply Qlt_trans; [exact H2|reflexivity]).
    now rewrite (Hlt 17%Z), (Hlt 11%Z H2), (proj2 (Hge 5%Z) H1).
  - intros H. unfold cr_range.
    assert (cr < 11)%Q by (eapply Qlt_trans; [exact H|reflexivity]).
    assert (cr < 17)%Q by (eapply Qlt_trans; [exact H|reflexivity]).
    now rewrite (Hlt 17%Z), (Hlt 11%Z), (Hlt 5%Z).
  - intros net net' rnd type n data data' t t' buckets buckets'
      Hf Hf' Hp Hp' Ht Ht' Hb Hi.
    rewrite (generate_treasure_phases net rnd cr type data t buckets n Hf Hp Ht).
    rewrite (generate_treasure_phases net' rnd cr type data' t' buckets' n Hf' Hp' Ht').
    now rewrite Hb, Hi.
Qed.

(** * Records *)

Section ObjectFacts.

Implicit Types (k : string) (v : value) (ps : list (string * value)).

Lemma has_prop_true k ps : has_prop k ps = true <-> is_Some (own_prop k ps).
Proof. unfold has_prop. apply bool_decide_eq_true. Qed.

Lemma has_prop_false k ps : has_prop k ps = false <-> own_prop k ps = None.
Proof.
  unfold has_prop. rewrite bool_decide_eq_false, <- eq_None_not_Some.
  reflexivity.
Qed.

Lemma own_prop_app k ps qs :
  own_prop k (ps ++ qs)
  = match own_prop k ps with Some x => Some x | None => own_prop k qs end.
Proof.
  induction ps as [|[k' v'] ps IH]; simpl; [reflexivity|].
  destruct (String.eqb k' k); auto.
Qed.

Lemma own_prop_replace_eq k v ps :
  is_Some (own_prop k ps) -> own_prop k (replace_prop k v ps) = Some v.
Proof.
  induction ps as [|[k' v'] ps IH]; simpl; intros [x Hx]; [discriminate|].
  destruct (String.eqb_spec k' k) as [->|Hne]; simpl.
  - now rewrite String.eqb_refl.
  - rewrite (proj2 (String.eqb_neq k' k) Hne). eauto.
Qed.

Lemma own_prop_replace_ne k k' v ps :
  k <> k' -> own_prop k' (replace_prop k v ps) = own_prop k' ps.
Proof.
  intros Hne. induction ps as [|[k0 v0] ps IH]; simpl; [reflexivity|].
  destruct (String.eqb_spec k0 k) as [->|Hne0]; simpl.
  - rewrite (proj2 (String.eqb_neq k k') Hne). reflexivity.
  - destruct (String.eqb k0 k'); auto.
Qed.

Lemma own_prop_cons_None k k0 v0 ps :
  own_prop k ((k0, v0) :: ps) = None <-> k0 <> k /\ own_prop k ps = None.
Proof.
  simpl. destruct (String.eqb_spec k0 k) as [->|Hne].
  - split; [discriminate|intros [? ?]; congruence].
  - split; [intros; split; auto|intros [_ ?]; auto].
Qed.

Lemma own_prop_None k ps : own_prop k ps = None <-> k ∉ ps.*1.
Proof.
  induction ps as [|[k0 v0] ps IH].
  - simpl. split; [intros _; apply not_elem_of_nil|reflexivity].
  - rewrite own_prop_cons_None, IH. simpl. rewrite not_elem_of_cons.
    split; intros [? ?]; split; auto.
Qed.

Lemma own_prop_insert_index k k' i v ps :
  own_prop k ps = None ->
  own_prop k' (insert_index i k v ps)
  = if String.eqb k k' then Some v else own_prop k' ps.
Proof.
  induction ps as [|[k0 v0] ps IH]; intros Hnone; [reflexivity|].
  apply own_prop_cons_None in Hnone as [Hne Hnone].
  cbn [insert_index].
  destruct (array_index k0) as [j|]; [destruct (j <? i)%nat|]; try reflexivity.
  cbn [own_prop]. rewrite (IH Hnone).
  destruct (String.eqb_spec k0 k') as [->|]; [|reflexivity].
  now rewrite (proj2 (String.eqb_neq k k')) by congruence.
Qed.

(** Reading a record after a property was defined. *)
Lemma own_prop_define k k' v ps :
  own_prop k' (define_prop k v ps)
  = if String.eqb k k' then Some v else own_prop k' ps.
Proof.
  unfold define_prop. destruct (has_prop k ps) eqn:Hhas.
  - apply has_prop_true in Hhas.
    destruct (String.eqb_spec k k') as [->|Hne].
    + now apply own_prop_replace_eq.
    + now apply own_prop_replace_ne.
  - apply has_prop_false in Hhas.
    destruct (array_index k).
    + now apply own_prop_insert_index.
    + rewrite own_prop_app. simpl.
      destruct (String.eqb_spec k k') as [->|Hne].
      * now rewrite Hhas.
      * now destruct (own_prop k' ps).
Qed.

Lemma fold_define_absent (es : list (string * value)) ps k :
  own_prop k es = None ->
  own_prop k (fold_left (fun acc kv => define_prop kv.1 kv.2 acc) es ps)
  = own_prop k ps.
Proof.
  revert ps. induction es as [|[k0 v0] es IH]; intros ps Hnone; [reflexivity|].
  apply own_prop_cons_None in Hnone as [Hne Hnone].
  cbn [fold_left]. rewrite (IH _ Hnone), own_prop_define. cbn [fst snd].
  now rewrite (proj2 (String.eqb_neq k0 k)).
Qed.

Lemma fold_define_present (es : list (string * value)) ps k :
  NoDup es.*1 ->
  own_prop k (fold_left (fun acc kv => define_prop kv.1 kv.2 acc) es ps)
  = match own_prop k es with Some x => Some x | None => own_prop k ps end.
Proof.
  revert ps. induction es as [|[k0 v0] es IH]; intros ps Hnd; [reflexivity|].
  inversion Hnd as [|? ? Hnotin Hnd']; subst.
  cbn [fold_left fst snd]. rewrite (IH _ Hnd'), own_prop_define. cbn [own_prop].
  destruct (String.eqb_spec k0 k) as [->|Hne]; [|reflexivity].
  now rewrite (proj2 (own_prop_None k es)).
Qed.

(** [{...ps, ...v}]: the fields of [v] take precedence over those of
    [ps]. *)
Lemma spread_into_field ps v k :
  NoDup (entries v).*1 ->
  own_prop k (spread_into ps v)
  = match own_prop k (entries v) with
    | Some x => Some x
    | None => own_prop k ps
    end.
Proof. apply fold_define_present. Qed.

Lemma spread_into_absent ps v k :
  own_prop k (entries v) = None -> own_prop k (spread_into ps v) = own_prop k ps.
Proof. apply fold_define_absent. Qed.

End ObjectFacts.

(** * The encounter generator *)

Section EncounterFacts.

Variable net : network.
Variable rnd : source.

(** On a non-empty list [generate_encounter] spends one draw and returns
    the echoed fields with the record at the drawn index spread over
    them. *)
Lemma generate_encounter_found level environment difficulty data encounters n :
  fetchData net "encounters.json" = Return data ->
  lookup_path data [ "encounters"; environment; default "medium" difficulty ]
  = Some (VArr encounters) ->
  encounters <> [] ->
  in_unit (rnd n) = true ->
  exists chosen,
    encounters !! drawn_index (rnd n) (length encounters) = Some chosen
    /\ generate_encounter net rnd level environment difficulty n
       = Return (VObj (spread_into
                         (echoed level environment (default "medium" difficulty))
                         chosen), S n).
Proof.
  intros Hfetch Hpath Hne Hr. path_inv Hpath.
  destruct (pick_array rnd encounters n Hr Hne) as (chosen & Hchosen & Hpick).
  exists chosen. split; [exact Hchosen|].
  unfold generate_encounter, fetch. cbv zeta.
  rewrite bind_lift, Hfetch. cbv beta iota.
  rewrite bind_lift. unfold nested.
  rewrite (get_own _ _ _ Hk). cbn [and_then].
  rewrite (get_own _ _ _ Hk0). cbn [and_then].
  unfold get_opt. rewrite (get_own _ _ _ Hk1).
  cbv beta iota. change (or_else (VArr encounters) (VArr [])) with (VArr encounters).
  rewrite bind_lift, length_of_array. cbv beta iota.
  rewrite strict_eq_zero_length.
  destruct encounters as [|e encounters]; [congruence|].
  rewrite (bind_returns _ _ _ _ _ Hpick). reflexivity.
Qed.

End EncounterFacts.

(** C4, as the code has it — on a non-empty encounter list
    [generate_encounter] returns the record chosen by the draw with the
    caller's [environment], [difficulty] and [level] (as [partyLevel])
    written under it: a field of the chosen record takes precedence over an
    echoed field of the same name, and [partyLevel], [environment] and
    [difficulty] equal the inputs whenever the chosen record has no field of
    that name. *)
Theorem generate_encounter_merges net rnd level environment difficulty data
    encounters n :
  fetchData net "encounters.json" = Return data ->
  lookup_path data [ "encounters"; environment; default "medium" difficulty ]
  = Some (VArr encounters) ->
  encounters <> [] ->
  in_unit (rnd n) = true ->
  exists chosen result,
    encounters !! drawn_index (rnd n) (length encounters) = Some chosen
    /\ generate_encounter net rnd level environment difficulty n
       = Return (result, S n)
    /\ (forall k, own_prop k (entries chosen) = None ->
                  field k result
                  = own_prop k (echoed level environment
                                  (default "medium" difficulty)))
    /\ (NoDup (entries chosen).*1 ->
        forall k x, own_prop k (entries chosen) = Some x ->
                    field k result = Some x)
    /\ (own_prop "partyLevel" (entries chosen) = None ->
        field "partyLevel" result = Some level)
    /\ (own_prop "environment" (entries chosen) = None ->
        field "environment" result = Some (VStr environment))
    /\ (own_prop "difficulty" (entries chosen) = None ->
        field "difficulty" result = Some (VStr (default "medium" difficulty))).
Proof.
  intros Hfetch Hpath Hne Hr.
  destruct (generate_encounter_found net rnd level environment difficulty
              data encounters n Hfetch Hpath Hne Hr) as (chosen & Hchosen & Hrun).
  exists chosen. eexists. split; [exact Hchosen|]. split; [exact Hrun|].
  cbn [field].
  assert (Habsent : forall k, own_prop k (entries chosen) = None ->
            own_prop k (spread_into
                          (echoed level environment (default "medium" difficulty))
                          chosen)
            = own_prop k (echoed level environment (default "medium" difficulty))).
  { intros k Hk. now apply spread_into_absent. }
  repeat split.
  - exact Habsent.
  - intros Hnd k x Hk. rewrite spread_into_field by exact Hnd. now rewrite Hk.
  - intros Hk. now rewrite (Habsent _ Hk).
  - intros Hk. now rewrite (Habsent _ Hk).
  - intros Hk. now rewrite (Habsent _ Hk).
Qed.

Lemma generate_encounter_merges_witness :
  exists chosen result,
    chosen = VObj [ ("name", VStr "Bandit ambush") ]
    /\ generate_encounter (serving "encounters.json" Sample.encounters)
         (Sample.always (1 # 2)) (VNum (of_Z 3)) "forest" None 0
       = Return (result, 1%nat)
    /\ field "partyLevel" result = Some (VNum (of_Z 3))
    /\ field "name" result = Some (VStr "Bandit ambush").
Proof.
  destruct (generate_encounter_merges
              (serving "encounters.json" Sample.encounters)
              (Sample.always (1 # 2)) (VNum (of_Z 3)) "forest" None
              Sample.encounters
              [ VObj [ ("name", VStr "Wolf pack"); ("partyLevel", VNum (of_Z 5)) ];
                VObj [ ("name", VStr "Bandit ambush") ] ]
              0%nat)
    as (chosen & result & Hchosen & Hrun & _ & Hmerged & Hlevel & _).
  - reflexivity.
  - reflexivity.
  - discriminate.
  - reflexivity.
  - vm_compute in Hchosen. injection Hchosen as <-.
    exists (VObj [ ("name", VStr "Bandit ambush") ]), result.
    split; [reflexivity|]. split; [exact Hrun|]. split.
    + apply Hlevel. reflexivity.
    + apply Hmerged.
      * vm_compute. repeat constructor. intros H. inversion H.
      * reflexivity.
Defined.

(** C4, as the claim words it, fails on a record that has its own
    [partyLevel]: the level of the caller is overwritten. *)
Lemma generate_encounter_overridden :
  lookup_path Sample.encounters [ "encounters"; "forest"; "medium" ]
  = Some (VArr [ VObj [ ("name", VStr "Wolf pack"); ("partyLevel", VNum (of_Z 5)) ];
                 VObj [ ("name", VStr "Bandit ambush") ] ])
  /\ exists result,
      generate_encounter (serving "encounters.json" Sample.encounters)
        (Sample.always 0) (VNum (of_Z 3)) "forest" (Some "medium") 0
      = Return (result, 1%nat)
      /\ field "partyLevel" result = Some (VNum (of_Z 5))
      /\ field "partyLevel" result <> Some (VNum (of_Z 3)).
Proof.
  split; [reflexivity|].
  eexists. split; [vm_compute; reflexivity|].
  split; [reflexivity|]. vm_compute. discriminate.
Qed.

(** * The weather generator *)

Section WeatherFacts.

Variable net : network.
Variable rnd : source.




End WeatherFacts.




(** * The two kinds of error *)

Section ErrorFacts.

Variable net : network.
Variable rnd : source.






End ErrorFacts.




(** C8 — what the code does where the claim fails: when the fetched table
    has no entry for the requested type, [data.treasure[type]] is undefined
    and reading the bucket from it throws a TypeError, whatever the rating
    and the draws. *)
Theorem generate_treasure_unknown_type net rnd cr type data t n :
  fetchData net "treasure.json" = Return data ->
  lookup_path data [ "treasure" ] = Some (VObj t) ->
  own_prop (default "individual" type) t = None ->
  inherited (default "individual" type) = false ->
  generate_treasure net rnd cr type n = Throw TypeError.
Proof.
  intros Hfetch Hpath Hnone Hk. path_inv Hpath.
  unfold generate_treasure, fetch. cbv zeta.
  rewrite bind_lift, Hfetch. cbv beta iota.
  rewrite bind_lift, (get_own _ _ _ Hk0). cbn [and_then].
  rewrite (get_absent _ _ Hnone Hk). reflexivity.
Qed.

Lemma generate_treasure_unknown_type_witness :
  generate_treasure (serving "treasure.json" Sample.treasure)
    (Sample.always (1 # 2)) 3 (Some "gems") 0
  = Throw TypeError.
Proof.
  eapply (generate_treasure_unknown_type
            (serving "treasure.json" Sample.treasure) (Sample.always (1 # 2))
            3 (Some "gems") Sample.treasure).
  - reflexivity.
  - reflexivity.
  - reflexivity.
  - reflexivity.
Defined.

(** * Dice *)

Section ParseFacts.

Lemma digit_not_space c d : digit_of c = Some d -> is_space c = false.
Proof.
  unfold digit_of, is_space. intros H.
  destruct ((48 <=? N_of_ascii c)%N && (N_of_ascii c <=? 57)%N) eqn:E; [|discriminate].
  apply andb_true_iff in E as [E1 E2].
  apply N.leb_le in E1, E2.
  apply orb_false_iff. split.
  - apply andb_false_iff. right. apply N.leb_gt. lia.
  - apply N.eqb_neq. lia.
Qed.

Lemma digit_not_char c d (x : ascii) :
  digit_of c = Some d -> digit_of x = None -> Ascii.eqb c x = false.
Proof.
  intros Hc Hx. destruct (Ascii.eqb_spec c x) as [->|]; congruence.
Qed.

Lemma radix_digit_decimal c d : digit_of c = Some d -> radix_digit 10 c = Some d.
Proof.
  unfold digit_of, radix_digit. intros H.
  destruct ((48 <=? N_of_ascii c)%N && (N_of_ascii c <=? 57)%N) eqn:E; [|discriminate].
  injection H as <-.
  apply andb_true_iff in E as [E1 E2]. apply N.leb_le in E1, E2.
  replace (N_of_ascii c - 48 <? 10)%N with true; [reflexivity|].
  symmetry. apply N.ltb_lt. lia.
Qed.

Lemma leading_digits_numeral s acc n :
  digits_value s acc = Some n ->
  leading_digits 10 s (Some acc) = Some n.
Proof.
  revert acc. induction s as [|c s IH]; intros acc; simpl.
  - congruence.
  - destruct (digit_of c) as [d|] eqn:Hd; [|discriminate].
    rewrite (radix_digit_decimal _ _ Hd). intros H. now apply IH.
Qed.

Lemma parseInt_numeral s n : numeral s n -> parseInt_string s = of_Z (Z.of_N n).
Proof.
  intros [Hne Hv]. destruct s as [|c s]; [congruence|].
  cbn [digits_value] in Hv.
  destruct (digit_of c) as [d|] eqn:Hd; [|discriminate].
  unfold parseInt_string. cbn [trim_start].
  rewrite (digit_not_space _ _ Hd).
  rewrite (digit_not_char c d "-" Hd eq_refl), (digit_not_char c d "+" Hd eq_refl).
  assert (Hlead : leading_digits 10 (String c s) None = Some n).
  { cbn [leading_digits]. rewrite (radix_digit_decimal _ _ Hd).
    apply leading_digits_numeral. exact Hv. }
  destruct s as [|c1 s].
  - now rewrite Hlead.
  - assert (Hx : (Ascii.eqb c1 "x" || Ascii.eqb c1 "X") = false).
    { cbn [digits_value] in Hv.
      destruct (digit_of c1) as [d1|] eqn:Hd1; [|discriminate].
      now rewrite (digit_not_char c1 d1 "x" Hd1 eq_refl),
        (digit_not_char c1 d1 "X" Hd1 eq_refl). }
    rewrite Hx, andb_false_r. now rewrite Hlead.
Qed.

Lemma split_numeral s acc n :
  digits_value s acc = Some n -> split "d" s = [ s ].
Proof.
  revert acc. induction s as [|c s IH]; intros acc; simpl; [reflexivity|].
  destruct (digit_of c) as [d|] eqn:Hd; [|discriminate].
  intros H. rewrite (digit_not_char c d "d" Hd eq_refl).
  now rewrite (IH _ H).
Qed.

Lemma split_dice_spec a b acc acc' n m :
  digits_value a acc = Some n -> digits_value b acc' = Some m ->
  split "d" (a +:+ "d" +:+ b) = [ a; b ].
Proof.
  revert acc. induction a as [|c a IH]; intros acc Ha Hb.
  - change ("" +:+ "d" +:+ b) with (String "d" b). cbn [split].
    rewrite Ascii.eqb_refl. now rewrite (split_numeral _ _ _ Hb).
  - cbn [digits_value] in Ha.
    destruct (digit_of c) as [d|] eqn:Hd; [|discriminate].
    change (String c a +:+ "d" +:+ b) with (String c (a +:+ "d" +:+ b)).
    cbn [split]. rewrite (digit_not_char c d "d" Hd eq_refl).
    now rewrite (IH _ Ha Hb).
Qed.

End ParseFacts.

Section DiceFacts.

Variable rnd : source.

Lemma face_bounds sides r :
  in_unit r = true -> (0 < sides)%N -> (1 <= face sides r <= Z.of_N sides)%Z.
Proof.
  intros Hr Hs. unfold face.
  pose proof (floor_draw_bounds r (Z.of_N sides) Hr ltac:(lia)). lia.
Qed.

Lemma dice_total_bounds sides n count :
  unit_source rnd -> (0 < sides)%N ->
  (Z.of_nat count <= dice_total rnd sides n count
   <= Z.of_nat count * Z.of_N sides)%Z.
Proof.
  intros Hrnd Hs. revert n. induction count as [|count IH]; intros n.
  - simpl. lia.
  - cbn [dice_total]. pose proof (face_bounds sides (rnd n) (Hrnd n) Hs).
    specialize (IH (S n)). nia.
Qed.

Lemma roll_total sides count (total : Z) n :
  unit_source rnd -> (0 < sides)%N -> (0 <= total)%Z ->
  (total + Z.of_nat count * Z.of_N sides < 2 ^ 53)%Z ->
  roll rnd (of_Z (Z.of_N sides)) count (of_Z total) n
  = Return (of_Z (total + dice_total rnd sides n count), (n + count)%nat).
Proof.
  intros Hrnd Hs. revert total n.
  induction count as [|count IH]; intros total n H0 H53.
  - cbn [roll ret dice_total]. now rewrite Nat.add_0_r, Z.add_0_r.
  - cbn [roll]. unfold bind at 1. unfold random.
    pose proof (face_bounds sides (rnd n) (Hrnd n) Hs) as Hface.
    cbn [dice_total]. unfold face in Hface |- *.
    set (f := Qfloor (Binary64.round (rnd n * inject_Z (Z.of_N sides)))) in *.
    change (Number.floor (Number.mul (Num (rnd n)) (of_Z (Z.of_N sides))))
      with (of_Z f).
    assert (Hc : (Z.of_nat (S count) * Z.of_N sides
                  = Z.of_nat count * Z.of_N sides + Z.of_N sides)%Z) by lia.
    assert (Hn : (0 <= Z.of_nat count * Z.of_N sides)%Z)
      by (apply Z.mul_nonneg_nonneg; lia).
    rewrite add_of_Z; [|lia]. rewrite add_of_Z; [|lia].
    rewrite IH; [|lia|lia]. f_equal. f_equal; [f_equal; lia|lia].
Qed.

Lemma coin_value_total diceData count sides multiplier n :
  unit_source rnd ->
  coin_entry diceData count sides multiplier ->
  (0 < sides)%N -> (Z.of_N count * Z.of_N sides < 2 ^ 53)%Z ->
  coin_value rnd diceData n
  = Return (Num (Binary64.round
                   (inject_Z (dice_total rnd sides n (N.to_nat count))
                    * multiplier)),
            (n + N.to_nat count)%nat).
Proof.
  intros Hrnd (sN & sM & HN & HM & Hdice & Hmult) Hs H53.
  destruct diceData as [| | | | | |ps]; try discriminate. cbn [field] in *.
  pose proof (proj2 HN) as HvN. pose proof (proj2 HM) as HvM.
  unfold coin_value.
  rewrite bind_lift, (get_own _ _ _ Hdice). cbv beta iota.
  rewrite bind_lift. cbn [split_d].
  rewrite (split_dice_spec _ _ _ _ _ _ HvN HvM). cbv beta iota.
  cbn [fmap list_fmap lookup list_lookup from_option id].
  rewrite bind_lift. cbn [parseInt]. rewrite (parseInt_numeral _ _ HN).
  cbv beta iota.
  rewrite bind_lift. cbn [parseInt]. rewrite (parseInt_numeral _ _ HM).
  cbv beta iota.
  rewrite rounds_of_Z.
  replace (Z.to_nat (Z.of_N count)) with (N.to_nat count) by lia.
  rewrite (bind_returns _ _ _ _ _
             (roll_total sides (N.to_nat count) 0 n Hrnd Hs ltac:(lia) ltac:(lia))).
  rewrite bind_lift, (get_own _ _ _ Hmult). cbv beta iota.
  rewrite bind_lift. reflexivity.
Qed.

End DiceFacts.

Section CoinFacts.

Variable rnd : source.

(** The products of the two ends of the range enclose the product of a
    total between them. *)
Lemma in_range_total count sides multiplier total :
  (Z.of_N count <= total <= Z.of_N count * Z.of_N sides)%Z ->
  (0 <= multiplier)%Q ->
  in_range (Binary64.round (inject_Z total * multiplier)) count sides multiplier.
Proof.
  intros [Hlo Hhi] Hk. unfold in_range.
  assert (H0 : (0 <= inject_Z (Z.of_N count))%Q).
  { change 0%Q with (inject_Z 0). rewrite <- Zle_Qle. lia. }
  assert (Hlo' : (inject_Z (Z.of_N count) <= inject_Z total)%Q)
    by now rewrite <- Zle_Qle.
  split.
  - apply Binary64Facts.round_mono.
    + now apply Qmult_le_0_compat.
    + now apply Qmult_le_compat_r.
  - apply Binary64Facts.round_mono.
    + apply Qmult_le_0_compat; [lra|exact Hk].
    + apply Qmult_le_compat_r; [|exact Hk]. now rewrite <- Zle_Qle.
Qed.

(** With a multiplier that is an integer the products are exact. *)
Lemma round_integer_product (total m : Z) :
  (0 <= total)%Z -> (0 <= m)%Z -> (total * m < 2 ^ 53)%Z ->
  Binary64.round (inject_Z total * inject_Z m) = inject_Z (total * m).
Proof.
  intros Ht Hm H53.
  rewrite (Binary64Facts.round_comp _ (inject_Z (total * m)))
    by (now rewrite inject_Z_mult).
  apply Binary64Facts.round_Z. nia.
Qed.

(** The value stored for one coin kind. *)
Lemma coin_value_in_range diceData count sides multiplier n :
  unit_source rnd ->
  coin_entry diceData count sides multiplier ->
  (0 < sides)%N -> (Z.of_N count * Z.of_N sides < 2 ^ 53)%Z ->
  (0 <= multiplier)%Q ->
  exists v,
    coin_value rnd diceData n = Return (Num v, (n + N.to_nat count)%nat)
    /\ v = Binary64.round
             (inject_Z (dice_total rnd sides n (N.to_nat count)) * multiplier)
    /\ in_range v count sides multiplier.
Proof.
  intros Hrnd Hentry Hs H53 Hk.
  eexists. split.
  { exact (coin_value_total rnd diceData count sides multiplier n Hrnd Hentry
             Hs H53). }
  split; [reflexivity|].
  apply in_range_total; [|exact Hk].
  pose proof (dice_total_bounds rnd sides n (N.to_nat count) Hrnd Hs). lia.
Qed.

(** The coin loop stores a value in range under every coin kind and leaves
    the other keys alone. *)
Lemma generate_coins_in_range todo coins n :
  unit_source rnd ->
  Forall coin_entry_ok todo ->
  NoDup todo.*1 ->
  exists coins' n',
    generate_coins rnd todo coins n = Return (coins', n')
    /\ (forall c, c ∉ todo.*1 -> own_prop c coins' = own_prop c coins)
    /\ (forall c d, (c, d) ∈ todo -> c <> "items" ->
          exists count sides multiplier v start,
            coin_entry d count sides multiplier
            /\ own_prop c coins' = Some (VNum (Num v))
            /\ v = Binary64.round
                     (inject_Z (dice_total rnd sides start (N.to_nat count))
                      * multiplier)
            /\ in_range v count sides multiplier).
Proof.
  intros Hrnd Hok. revert coins n.
  induction Hok as [|[c0 d0] todo Hok0 Hok IH]; intros coins n Hnd.
  - exists coins, n. split; [reflexivity|]. split; [reflexivity|].
    intros c d Hin. inversion Hin.
  - inversion Hnd as [|? ? Hnotin Hnd']; subst. cbn [generate_coins].
    destruct (String.eqb_spec c0 "items") as [->|Hc0]; cbn [negb].
    + destruct (IH coins n Hnd') as (coins' & n' & Hrun & Hkeep & Hcoins).
      exists coins', n'. split; [exact Hrun|]. split.
      * intros c Hc. apply Hkeep. cbn in Hc. now apply not_elem_of_cons in Hc.
      * intros c d Hin Hc. apply elem_of_cons in Hin as [Heq|Hin].
        -- injection Heq as -> ->. congruence.
        -- now apply Hcoins.
    + destruct Hok0 as [Hitems|(Hproto & count & sides & multiplier
                                  & Hentry & Hs & H53 & Hk & _)];
        [cbn in Hitems; congruence|].
      cbn [fst snd] in *.
      destruct (coin_value_in_range d0 count sides multiplier n Hrnd Hentry Hs
                  H53 Hk)
        as (v & Hrun0 & Hv & Hrange).
      rewrite (bind_returns _ _ _ _ _ Hrun0).
      assert (Hassign : assign_prop c0 (VNum (Num v)) coins
                        = define_prop c0 (VNum (Num v)) coins).
      { unfold assign_prop.
        now rewrite (proj2 (String.eqb_neq c0 "__proto__") Hproto). }
      rewrite Hassign.
      destruct (IH (define_prop c0 (VNum (Num v)) coins)
                  (n + N.to_nat count)%nat Hnd')
        as (coins' & n' & Hrun & Hkeep & Hcoins).
      exists coins', n'. split; [exact Hrun|]. split.
      * intros c Hc. cbn in Hc. apply not_elem_of_cons in Hc as [Hne Hc].
        rewrite (Hkeep c Hc), own_prop_define.
        now rewrite (proj2 (String.eqb_neq c0 c)) by congruence.
      * intros c d Hin Hc. apply elem_of_cons in Hin as [Heq|Hin].
        -- injection Heq as -> ->.
           exists count, sides, multiplier, v, n.
           split; [exact Hentry|]. split; [|split; [exact Hv|exact Hrange]].
           rewrite (Hkeep c0 Hnotin), own_prop_define.
           now rewrite String.eqb_refl.
        -- now apply Hcoins.
Qed.

End CoinFacts.

(** * The items of a hoard *)

Section ItemFacts.

Variable rnd : source.

Lemma floor_draw_nonneg r (len : nat) :
  in_unit r = true ->
  (0 <= Qfloor (Binary64.round (r * inject_Z (Z.of_nat len))))%Z.
Proof.
  intros Hr. apply in_unit_spec in Hr as [H0 _].
  rewrite <- (Qfloor_Z 0). apply Qfloor_resp_le, Binary64Facts.round_nonneg.
  apply Qmult_le_0_compat; [exact H0|].
  change 0%Q with (inject_Z 0). rewrite <- Zle_Qle. lia.
Qed.

(** A pick from an array, empty or not. *)
Lemma pick_any l n :
  in_unit (rnd n) = true -> pick rnd (VArr l) n = Return (picked l (rnd n), S n).
Proof.
  intros Hr. unfold pick, bind. rewrite pick_index_array.
  unfold lift, get_at. rewrite to_Z_of_Z.
  pose proof (floor_draw_nonneg _ (length l) Hr) as Hnn.
  destruct (Z.leb_spec
              0 (Qfloor (Binary64.round (rnd n * inject_Z (Z.of_nat (length l))))));
    [|lia].
  reflexivity.
Qed.

Lemma picked_elem l r :
  in_unit r = true -> l <> [] -> picked l r ∈ l.
Proof.
  intros Hr Hl. unfold picked.
  assert (Hlen : (0 < length l)%nat) by (destruct l; simpl; [congruence|lia]).
  destruct (lookup_lt_is_Some_2 l _ (drawn_index_lt _ _ Hr Hlen)) as [x Hx].
  rewrite Hx. cbn. eapply list_elem_of_lookup_2. exact Hx.
Qed.

Lemma generate_items_array pool count acc n :
  unit_source rnd ->
  generate_items rnd (VArr pool) count acc n
  = Return (acc ++ ((fun i => picked pool (rnd (n + i)%nat)) <$> seq 0 count),
            (n + count)%nat).
Proof.
  intros Hrnd. revert acc n. induction count as [|count IH]; intros acc n.
  - cbn [generate_items ret seq fmap list_fmap].
    now rewrite app_nil_r, Nat.add_0_r.
  - cbn [generate_items]. rewrite (bind_returns _ _ _ _ _ (pick_any pool n (Hrnd n))).
    rewrite IH. f_equal. f_equal; [|lia].
    rewrite <- app_assoc. f_equal. cbn [seq fmap list_fmap app].
    rewrite Nat.add_0_r. f_equal.
    rewrite <- fmap_S_seq, <- list_fmap_compose.
    apply list_fmap_ext. intros i x _. cbn. f_equal. f_equal. lia.
Qed.

(** The number of items: one more than the index drawn among three. *)
Lemma rounds_items r :
  in_unit r = true ->
  rounds (Number.add (Number.floor (Number.mul (Num r) (of_Z 3))) (of_Z 1))
  = S (drawn_index r 3).
Proof.
  intros Hr.
  pose proof (floor_draw_bounds r 3 Hr ltac:(lia)) as Hb.
  change (Number.floor (Number.mul (Num r) (of_Z 3)))
    with (of_Z (Qfloor (Binary64.round (r * inject_Z 3)))).
  rewrite add_of_Z by lia. rewrite rounds_of_Z. unfold drawn_index.
  change (Z.of_nat 3) with 3%Z. lia.
Qed.

Lemma treasure_items_skipped items cr type n :
  ~ (type = "hoard" /\ (5 <= cr)%Q) ->
  treasure_items rnd items cr type n = Return ([], n).
Proof.
  intros Hnot. unfold treasure_items.
  destruct (String.eqb_spec type "hoard") as [->|]; [|reflexivity].
  destruct (Number.ge (Num cr) (of_Z 5)) eqn:E; [|reflexivity].
  exfalso. apply Hnot. split; [reflexivity|].
  unfold Number.ge, of_Z in E. now apply Qle_bool_iff in E.
Qed.

Lemma treasure_items_drawn items cr name pool n :
  unit_source rnd ->
  (5 <= cr)%Q ->
  (name = "magic_major" /\ (11 <= cr)%Q) \/ (name = "magic_medium" /\ (cr < 11)%Q) ->
  field name items = Some (VArr pool) ->
  treasure_items rnd items cr "hoard" n
  = Return ((fun i => picked pool (rnd (S n + i)%nat))
              <$> seq 0 (S (drawn_index (rnd n) 3)),
            (S n + S (drawn_index (rnd n) 3))%nat).
Proof.
  intros Hrnd H5 Hname Hpool.
  destruct items as [| | | | | |ps]; try discriminate. cbn [field] in Hpool.
  unfold treasure_items. cbn [String.eqb Ascii.eqb Bool.eqb andb].
  replace (Number.ge (Num cr) (of_Z 5)) with true
    by (symmetry; now apply Qle_bool_iff).
  assert (Hget : (if Number.ge (Num cr) (of_Z 11)
                  then get (VObj ps) "magic_major"
                  else get (VObj ps) "magic_medium") = Return (VArr pool)).
  { destruct Hname as [[-> H11]|[-> H11]].
    - replace (Number.ge (Num cr) (of_Z 11)) with true
        by (symmetry; now apply Qle_bool_iff).
      now apply get_own.
    - replace (Number.ge (Num cr) (of_Z 11)) with false.
      + now apply get_own.
      + symmetry. apply not_true_is_false. intros E.
        apply Qle_bool_iff in E. now apply Qlt_not_le in H11. }
  rewrite bind_lift, Hget. cbv beta iota.
  unfold bind at 1. unfold random. rewrite (rounds_items _ (Hrnd n)).
  now rewrite generate_items_array.
Qed.

End ItemFacts.

(** C2 — [generate_treasure] adds items exactly for the type "hoard" at a
    rating of at least 5.  In every other case, so for every rating below 5,
    the items are empty whatever the draws.  For a hoard the draw after the
    coins fixes the number of items, one more than the index it selects
    among three, hence 1, 2 or 3, each for the draws of one third of the
    unit interval up to the rounding of the product [3 * r]; each following
    draw picks one item of the pool at the index it selects, the same item
    possibly more than once; the pool is [magic_major] from rating 11 on and
    [magic_medium] below. *)
Theorem hoard_items net rnd cr type data t buckets coins n n1 :
  fetchData net "treasure.json" = Return data ->
  lookup_path data [ "treasure" ] = Some (VObj t) ->
  own_prop (default "individual" type) t = Some (VObj buckets) ->
  treasure_coins rnd (default VUndefined (own_prop (cr_range cr) buckets)) n
  = Return (coins, n1) ->
  (~ (default "individual" type = "hoard" /\ (5 <= cr)%Q) ->
   generate_treasure net rnd cr type n
   = Return (treasure_record cr (default "individual" type) coins [], n1))
  /\ ((cr < 5)%Q ->
      generate_treasure net rnd cr type n
      = Return (treasure_record cr (default "individual" type) coins [], n1))
  /\ (default "individual" type = "hoard" -> (5 <= cr)%Q -> unit_source rnd ->
      forall name pool,
        (name = "magic_major" /\ (11 <= cr)%Q)
        \/ (name = "magic_medium" /\ (cr < 11)%Q) ->
        lookup_path (VObj t) [ "items"; name ] = Some (VArr pool) ->
        let count := S (drawn_index (rnd n1) 3) in
        generate_treasure net rnd cr type n
        = Return (treasure_record cr "hoard" coins
                    ((fun i => picked pool (rnd (S n1 + i)%nat)) <$> seq 0 count),
                  (S n1 + count)%nat)
        /\ (1 <= count <= 3)%nat
        /\ (forall k : nat,
              ((inject_Z (Z.of_nat k) <= rnd n1 * inject_Z 3
                /\ rnd n1 * inject_Z 3
                   <= inject_Z (Z.of_nat k + 1) * (1 - Binary64.epsilon))%Q ->
               count = S k)
              /\ (count = S k ->
                  (inject_Z (Z.of_nat k) * (1 - Binary64.epsilon)
                   <= rnd n1 * inject_Z 3
                   /\ rnd n1 * inject_Z 3 < inject_Z (Z.of_nat k + 1))%Q))
        /\ (pool <> [] -> forall i, picked pool (rnd i) ∈ pool)).
Proof.
  intros Hfetch Hpath Htype Hcoins.
  assert (Hskip : ~ (default "individual" type = "hoard" /\ (5 <= cr)%Q) ->
            generate_treasure net rnd cr type n
            = Return (treasure_record cr (default "individual" type) coins [], n1)).
  { intros Hnot.
    rewrite (generate_treasure_phases net rnd cr type data t buckets n
               Hfetch Hpath Htype).
    rewrite (bind_returns _ _ _ _ _ Hcoins).
    now rewrite (bind_returns _ _ _ _ _ (treasure_items_skipped rnd _ cr _ n1 Hnot)). }
  split; [exact Hskip|]. split.
  - intros Hlt. apply Hskip. intros [_ Hge]. now apply Qlt_not_le in Hlt.
  - intros Hhoard H5 Hrnd name pool Hname Hpool count.
    apply lookup_path_cons in Hpool as (? & y & [= <-] & Hitems & Hpool).
    apply lookup_path_cons in Hpool as (ips & z & -> & Hfield & [= ->]).
    split; [|split; [|split]].
    + rewrite (generate_treasure_phases net rnd cr type data t buckets n
                 Hfetch Hpath Htype).
      rewrite (bind_returns _ _ _ _ _ Hcoins).
      rewrite Hitems, Hhoard. cbn [from_option id].
      change (field name (VObj ips) = Some (VArr pool)) in Hfield.
      now rewrite (bind_returns _ _ _ _ _
                     (treasure_items_drawn rnd _ cr name pool n1 Hrnd H5 Hname Hfield)).
    + unfold count.
      pose proof (drawn_index_lt (rnd n1) 3 (Hrnd n1) ltac:(lia)). lia.
    + intros k. unfold count.
      destruct (drawn_index_interval (rnd n1) 3 k (Hrnd n1) ltac:(lia)
                  ltac:(reflexivity)) as [Hin Hout].
      split.
      * intros H. now rewrite (Hin H).
      * intros [= Hk]. now apply Hout.
    + intros Hne i. apply picked_elem; [apply Hrnd|exact Hne].
Qed.

Lemma hoard_items_witness :
  exists coins n1,
    generate_treasure (serving "treasure.json" Sample.treasure)
      (Sample.always (1 # 2)) 7 (Some "hoard") 0
    = Return (treasure_record 7 "hoard" coins
                [ VStr "Bag of Holding"; VStr "Bag of Holding" ], n1)
    /\ generate_treasure (serving "treasure.json" Sample.treasure)
         (Sample.always (1 # 2)) 4 (Some "hoard") 0
       = Return (treasure_record 4 "hoard" [] [], 0%nat).
Proof.
  destruct (hoard_items (serving "treasure.json" Sample.treasure)
              (Sample.always (1 # 2)) 7 (Some "hoard") Sample.treasure
              _ _ _ 0%nat _ eq_refl eq_refl eq_refl eq_refl)
    as (_ & _ & Hhoard).
  destruct (hoard_items (serving "treasure.json" Sample.treasure)
              (Sample.always (1 # 2)) 4 (Some "hoard") Sample.treasure
              _ _ _ 0%nat _ eq_refl eq_refl eq_refl eq_refl)
    as (_ & Hlow & _).
  destruct (Hhoard eq_refl ltac:(discriminate) ltac:(intros i; reflexivity)
              "magic_medium" [ VStr "Potion of Healing"; VStr "Bag of Holding" ])
    as (Hrun & _).
  - right. split; reflexivity.
  - reflexivity.
  - eexists _, _. split; [exact Hrun|]. apply Hlow. reflexivity.
Defined.

(** * The coins of a bucket *)

(** What holds of [generate_treasure] when the bucket is absent and the
    type is present: the coin loop is skipped and the record has no
    coins. *)
Lemma generate_treasure_absent_bucket net rnd cr type data t buckets items n n1 :
  fetchData net "treasure.json" = Return data ->
  lookup_path data [ "treasure" ] = Some (VObj t) ->
  own_prop (default "individual" type) t = Some (VObj buckets) ->
  own_prop (cr_range cr) buckets = None ->
  treasure_items rnd (default VUndefined (own_prop "items" t)) cr
    (default "individual" type) n
  = Return (items, n1) ->
  generate_treasure net rnd cr type n
  = Return (treasure_record cr (default "individual" type) [] items, n1).
Proof.
  intros Hfetch Hpath Htype Hbucket Hitems.
  rewrite (generate_treasure_phases net rnd cr type data t buckets n
             Hfetch Hpath Htype).
  rewrite Hbucket. cbn [from_option]. unfold treasure_coins. cbn [truthy].
  unfold bind at 1. cbn [ret]. now rewrite (bind_returns _ _ _ _ _ Hitems).
Qed.

(** C7 — for a coin entry with the dice "NdM" and the multiplier k,
    [generate_treasure] stores under the coin kind the product, as the
    engine rounds it, of k and the sum of the faces of N dice, each the face
    in 1..M that its own draw selects.  The stored value lies between the
    products N*k and N*M*k as the engine computes them.  With a multiplier
    that is an integer these products are exact: the stored value is the
    integer total times k and lies between N*k and N*M*k, and for "2d6"
    with the multiplier 10 between 20 and 120. *)
Theorem coin_values_in_range net rnd cr type data t buckets todo n :
  fetchData net "treasure.json" = Return data ->
  lookup_path data [ "treasure" ] = Some (VObj t) ->
  own_prop (default "individual" type) t = Some (VObj buckets) ->
  own_prop (cr_range cr) buckets = Some (VObj todo) ->
  NoDup todo.*1 ->
  Forall coin_entry_ok todo ->
  unit_source rnd ->
  (forall start, exists items n',
      treasure_items rnd (default VUndefined (own_prop "items" t)) cr
        (default "individual" type) start
      = Return (items, n')) ->
  (exists coins items n',
      generate_treasure net rnd cr type n
      = Return (treasure_record cr (default "individual" type) coins items, n')
      /\ forall coinType diceData,
          (coinType, diceData) ∈ todo -> coinType <> "items" ->
          exists count sides multiplier v start,
            coin_entry diceData count sides multiplier
            /\ own_prop coinType coins = Some (VNum (Num v))
            /\ v = Binary64.round
                     (inject_Z (dice_total rnd sides start (N.to_nat count))
                      * multiplier)
            /\ in_range v count sides multiplier)
  /\ (forall sides i, (0 < sides)%N ->
        (1 <= face sides (rnd i) <= Z.of_N sides)%Z)
  /\ (forall diceData count sides (m : Z) start,
        coin_entry diceData count sides (inject_Z m) ->
        (0 < sides)%N -> (0 <= m)%Z ->
        (Z.of_N count * Z.of_N sides < 2 ^ 53)%Z ->
        (Z.of_N count * Z.of_N sides * m < 2 ^ 53)%Z ->
        exists v : Z,
          coin_value rnd diceData start
          = Return (of_Z v, (start + N.to_nat count)%nat)
          /\ v = (dice_total rnd sides start (N.to_nat count) * m)%Z
          /\ (Z.of_N count * m <= v <= Z.of_N count * Z.of_N sides * m)%Z)
  /\ (forall diceData start,
        coin_entry diceData 2 6 10 ->
        exists v : Z,
          coin_value rnd diceData start = Return (of_Z v, (start + 2)%nat)
          /\ (20 <= v <= 120)%Z).
Proof.
  intros Hfetch Hpath Htype Hbucket Hnd Hok Hrnd Hitems.
  assert (Hexact : forall diceData count sides (m : Z) start,
            coin_entry diceData count sides (inject_Z m) ->
            (0 < sides)%N -> (0 <= m)%Z ->
            (Z.of_N count * Z.of_N sides < 2 ^ 53)%Z ->
            (Z.of_N count * Z.of_N sides * m < 2 ^ 53)%Z ->
            exists v : Z,
              coin_value rnd diceData start
              = Return (of_Z v, (start + N.to_nat count)%nat)
              /\ v = (dice_total rnd sides start (N.to_nat count) * m)%Z
              /\ (Z.of_N count * m <= v <= Z.of_N count * Z.of_N sides * m)%Z).
  { intros diceData count sides m start Hentry Hs Hm H53 Hm53.
    pose proof (dice_total_bounds rnd sides start (N.to_nat count) Hrnd Hs)
      as Hb.
    rewrite N_nat_Z in Hb.
    exists (dice_total rnd sides start (N.to_nat count) * m)%Z.
    split; [|split; [reflexivity|nia]].
    rewrite (coin_value_total rnd diceData count sides (inject_Z m) start
               Hrnd Hentry Hs H53).
    unfold of_Z. rewrite round_integer_product; [reflexivity|lia|exact Hm|nia]. }
  split; [|split; [|split; [exact Hexact|]]].
  - destruct (generate_coins_in_range rnd todo [] n Hrnd Hok Hnd)
      as (coins & n1 & Hcoins & _ & Hrange).
    destruct (Hitems n1) as (items & n' & Hrun).
    exists coins, items, n'. split; [|exact Hrange].
    rewrite (generate_treasure_phases net rnd cr type data t buckets n
               Hfetch Hpath Htype).
    rewrite Hbucket. cbn [from_option id]. unfold treasure_coins.
    cbn [truthy entries].
    rewrite (bind_returns _ _ _ _ _ Hcoins).
    now rewrite (bind_returns _ _ _ _ _ Hrun).
  - intros sides i Hs. now apply face_bounds.
  - intros diceData start Hentry.
    destruct (Hexact diceData 2%N 6%N 10%Z start Hentry ltac:(reflexivity)
                ltac:(lia) ltac:(reflexivity) ltac:(reflexivity))
      as (v & Hrun & _ & Hv).
    exists v. split; [exact Hrun|]. lia.
Qed.

Lemma coin_values_in_range_witness :
  exists coins n' v,
    generate_treasure (serving "treasure.json" Sample.treasure)
      (Sample.always (1 # 2)) 3 None 0
    = Return (treasure_record 3 "individual" coins [], n')
    /\ own_prop "gp" coins = Some (VNum (Num v))
    /\ (20 <= v)%Q /\ (v <= 120)%Q.
Proof.
  destruct (coin_values_in_range (serving "treasure.json" Sample.treasure)
              (Sample.always (1 # 2)) 3 None Sample.treasure
              _ _ _ 0%nat eq_refl eq_refl eq_refl eq_refl)
    as ((coins & items & n' & Hrun & Hcoins) & _ & _).
  - vm_compute. repeat constructor; intros H; inversion H; subst;
      match goal with H : _ ∈ _ |- _ => inversion H end.
  - constructor; [|constructor; [|constructor]];
      right; (split; [discriminate|]).
    + exists 5%N, 6%N, 1%Q.
      split; [|split; [reflexivity|split; [reflexivity|split; discriminate]]].
      exists "5", "6". repeat split; discriminate || reflexivity.
    + exists 2%N, 6%N, 10%Q.
      split; [|split; [reflexivity|split; [reflexivity|split; discriminate]]].
      exists "2", "6". repeat split; discriminate || reflexivity.
  - intros i. reflexivity.
  - intros start. exists [], start. reflexivity.
  - destruct (Hcoins "gp" (VObj [ ("dice", VStr "2d6");
                                  ("multiplier", VNum (of_Z 10)) ]))
      as (count & sides & multiplier & v & start & Hentry & Hv & _ & Hlo & Hhi).
    + apply elem_of_cons. right. apply elem_of_cons. now left.
    + discriminate.
    + assert (items = []) as ->.
      { vm_compute in Hrun. now injection Hrun as _ <- _. }
      destruct Hentry as (sN & sM & [_ HN] & [_ HM] & Hdice & Hmult).
      cbn in Hdice, Hmult. injection Hmult as <-.
      assert (sN = "2" /\ sM = "6") as [-> ->].
      { injection Hdice as Hdice.
        assert (Hs : split "d" "2d6" = [ sN; sM ])
          by (rewrite Hdice; eapply split_dice_spec; eauto).
        injection Hs as <- <-. split; reflexivity. }
      injection HN as <-. injection HM as <-.
      exists coins, n', v. split; [exact Hrun|]. split; [exact Hv|].
      split.
      * eapply Qle_trans; [|exact Hlo]. vm_compute. discriminate.
      * eapply Qle_trans; [exact Hhi|]. vm_compute. discriminate.
Defined.

(** C7, as the claim words it, fails for a multiplier that is not an
    integer: with one die of three sides and the multiplier 0.1, the face 3
    gives the value 0.30000000000000004, above three times the
    multiplier. *)
Lemma coin_value_above_range :
  let k := Binary64.round (1 # 10) in
  let bucket := VObj [ ("sp", VObj [ ("dice", VStr "1d3");
                                     ("multiplier", VNum (Num k)) ]) ] in
  let table := VObj [ ("treasure",
                       VObj [ ("individual", VObj [ ("cr0-4", bucket) ]) ]) ] in
  in_unit (3 # 4) = true
  /\ coin_entry (VObj [ ("dice", VStr "1d3"); ("multiplier", VNum (Num k)) ])
       1 3 k
  /\ exists v,
      generate_treasure (serving "treasure.json" table) (Sample.always (3 # 4))
        3 None 0
      = Return (treasure_record 3 "individual" [ ("sp", VNum (Num v)) ] [],
                1%nat)
      /\ (inject_Z (1 * 3) * k < v)%Q
      /\ (3 # 10 < v)%Q.
Proof.
  cbv zeta. split; [reflexivity|]. split.
  - exists "1", "3". repeat split; discriminate || reflexivity.
  - eexists. split; [vm_compute; reflexivity|]. split; reflexivity.
Qed.

(** * The personality generator *)

Section PersonalityFacts.

Variable rnd : source.

Lemma number_eq_sym a b : Number.eq a b = Number.eq b a.
Proof. destruct a, b; cbn; auto using Qeq_bool_comm. Qed.

Lemma same_value_zero_sym a b : same_value_zero a b = same_value_zero b a.
Proof.
  destruct a as [i [| |x|[|x]|x|x|x]], b as [j [| |y|[|y]|y|y|y]];
    cbn; auto using number_eq_sym, Qeq_bool_comm.
  - now destruct x, y.
  - apply eq_true_iff_eq. rewrite !String.eqb_eq. split; congruence.
Qed.

(** A value read at an index is the same value as itself. *)
Lemma same_value_zero_refl z v : same_value_zero (of_Z z, v) (of_Z z, v) = true.
Proof.
  destruct v as [| |x|[|x]|x|x|x]; cbn; auto using Qeq_bool_refl, String.eqb_refl.
  now destruct x.
Qed.

(** On primitives the identity of [includes] is the equality of values. *)
Lemma same_value_zero_primitive i j v :
  is_primitive v = true -> same_value_zero (of_Z i, v) (of_Z j, v) = true.
Proof.
  destruct v as [| |x|[|x]|x|x|x]; cbn; try discriminate;
    auto using Qeq_bool_refl, String.eqb_refl.
  now destruct x.
Qed.

Lemma includes_false selected x :
  includes selected x = false <-> Forall (fun s => same_value_zero s x = false) selected.
Proof.
  unfold includes. induction selected as [|s selected IH]; cbn.
  - split; [constructor|reflexivity].
  - rewrite orb_false_iff, IH, Forall_cons. reflexivity.
Qed.

Lemma chosen_from_nil pool : chosen_from pool [].
Proof. split; [constructor|]. intros i j a b H. inversion H. Qed.

Lemma chosen_from_snoc pool selected k x :
  chosen_from pool selected ->
  pool !! k = Some x ->
  includes selected (of_Z (Z.of_nat k), x) = false ->
  chosen_from pool (selected ++ [ (of_Z (Z.of_nat k), x) ]).
Proof.
  intros [Hat Hapart] Hk Hnew. apply includes_false in Hnew. split.
  - apply Forall_app. split; [exact Hat|]. constructor; [|constructor]. eauto.
  - intros i j a b Hi Hj Hlt.
    destruct (decide (j < length selected)%nat) as [Hj'|Hj'].
    + rewrite lookup_app_l in Hi, Hj by lia. eauto.
    + assert (j = length selected) as ->.
      { apply lookup_lt_Some in Hj. rewrite length_app in Hj. cbn in Hj. lia. }
      rewrite lookup_app_l in Hi by lia.
      rewrite lookup_app_r, Nat.sub_diag in Hj by lia. injection Hj as <-.
      eapply Forall_forall in Hnew; [exact Hnew|].
      eapply list_elem_of_lookup_2. exact Hi.
Qed.

(** One round of the loop on a non-empty pool. *)
Lemma pick_position pool n :
  in_unit (rnd n) = true -> pool <> [] ->
  exists x,
    pool !! drawn_index (rnd n) (length pool) = Some x
    /\ pick_index rnd (VArr pool) n
       = Return (of_Z (Z.of_nat (drawn_index (rnd n) (length pool))), S n)
    /\ get_at (VArr pool) (of_Z (Z.of_nat (drawn_index (rnd n) (length pool))))
       = Return x.
Proof.
  intros Hr Hne.
  assert (Hlen : (0 < length pool)%nat) by (destruct pool; simpl; [congruence|lia]).
  destruct (lookup_lt_is_Some_2 pool _ (drawn_index_lt _ _ Hr Hlen)) as [x Hx].
  exists x. split; [exact Hx|].
  pose proof (floor_draw_nonneg _ (length pool) Hr) as Hnn.
  split.
  - rewrite pick_index_array. unfold drawn_index. now rewrite Z2Nat.id.
  - unfold get_at. rewrite to_Z_of_Z.
    destruct (Z.leb_spec 0 (Z.of_nat (drawn_index (rnd n) (length pool)))); [|lia].
    rewrite Nat2Z.id. change (default [] (elements (VArr pool))) with pool.
    now rewrite Hx.
Qed.

Lemma select_traits_chosen pool remaining selected n :
  unit_source rnd -> pool <> [] ->
  chosen_from pool selected ->
  exists selected',
    select_traits rnd pool remaining selected n
    = Return (selected', (n + remaining)%nat)
    /\ chosen_from pool selected'
    /\ (length selected <= length selected' <= length selected + remaining)%nat.
Proof.
  intros Hrnd Hne. revert selected n.
  induction remaining as [|remaining IH]; intros selected n Hsel.
  - exists selected. cbn [select_traits ret]. rewrite Nat.add_0_r.
    split; [reflexivity|]. split; [exact Hsel|lia].
  - destruct (pick_position pool n (Hrnd n) Hne) as (x & Hx & Hidx & Hget).
    cbn [select_traits]. rewrite (bind_returns _ _ _ _ _ Hidx).
    rewrite bind_lift, Hget. cbv beta iota.
    set (e := (of_Z (Z.of_nat (drawn_index (rnd n) (length pool))), x)).
    destruct (includes selected e) eqn:Hinc; cbn [negb].
    + destruct (IH selected (S n) Hsel) as (selected' & Hrun & Hsel' & Hlen).
      exists selected'. rewrite Hrun. split; [f_equal; f_equal; lia|].
      split; [exact Hsel'|lia].
    + destruct (IH (selected ++ [ e ]) (S n)
                  (chosen_from_snoc _ _ _ _ Hsel Hx Hinc))
        as (selected' & Hrun & Hsel' & Hlen).
      exists selected'. rewrite Hrun. split; [f_equal; f_equal; lia|].
      split; [exact Hsel'|]. rewrite length_app in Hlen. cbn in Hlen. lia.
Qed.

(** With a source that always selects the same index, nothing is added
    after the first entry. *)
Lemma select_traits_same_index pool remaining k x n :
  unit_source rnd -> pool <> [] ->
  (forall i, drawn_index (rnd i) (length pool) = k) ->
  pool !! k = Some x ->
  select_traits rnd pool remaining [ (of_Z (Z.of_nat k), x) ] n
  = Return ([ (of_Z (Z.of_nat k), x) ], (n + remaining)%nat).
Proof.
  intros Hrnd Hne Hsame Hk. revert n.
  induction remaining as [|remaining IH]; intros n.
  - cbn [select_traits ret]. now rewrite Nat.add_0_r.
  - destruct (pick_position pool n (Hrnd n) Hne) as (y & Hy & Hidx & Hget).
    rewrite Hsame in Hy, Hidx, Hget.
    assert (y = x) as -> by congruence.
    cbn [select_traits]. rewrite (bind_returns _ _ _ _ _ Hidx).
    rewrite bind_lift, Hget. cbv beta iota.
    cbn [includes existsb]. rewrite same_value_zero_refl. cbn [orb negb].
    rewrite IH. f_equal. f_equal. lia.
Qed.

Lemma rounds_min (count : Z) (len : nat) :
  rounds (Number.min (of_Z count) (of_nat len))
  = Z.to_nat (Z.min count (Z.of_nat len)).
Proof.
  unfold Number.min, of_nat, of_Z.
  destruct (Qle_bool (inject_Z count) (inject_Z (Z.of_nat len))) eqn:E.
  - apply Qle_bool_iff in E. rewrite <- Zle_Qle in E.
    cbn [rounds]. rewrite Qceiling_Z. f_equal. lia.
  - assert (~ (count <= Z.of_nat len)%Z).
    { intros H. rewrite Zle_Qle in H. apply Qle_bool_iff in H. congruence. }
    cbn [rounds]. rewrite Qceiling_Z. f_equal. lia.
Qed.

End PersonalityFacts.

Section PersonalityRun.

Variable net : network.
Variable rnd : source.

Lemma generate_personality_loop count data traits ideals bonds flaws quirks n :
  fetchData net "traits.json" = Return data ->
  field "traits" data = Some (VArr traits) ->
  field "ideals" data = Some (VArr ideals) ->
  field "bonds" data = Some (VArr bonds) ->
  field "flaws" data = Some (VArr flaws) ->
  field "quirks" data = Some (VArr quirks) ->
  generate_personality net rnd count n
  = (let allTraits := traits ++ ideals ++ bonds ++ flaws ++ quirks in
     selected <- select_traits rnd allTraits
                   (Z.to_nat (Z.min (default 4%Z count)
                                (Z.of_nat (length allTraits)))) [] ;;
     ret (VObj [ ("traits", VArr (selected.*2)) ]))%tool n.
Proof.
  intros Hfetch H1 H2 H3 H4 H5.
  destruct data as [| | | | | |ps]; try discriminate. cbn [field] in *.
  unfold generate_personality, fetch. cbv zeta.
  rewrite bind_lift, Hfetch. cbv beta iota.
  rewrite bind_lift, (get_own _ _ _ H1). cbn [and_then iterate elements].
  rewrite bind_lift, (get_own _ _ _ H2). cbn [and_then iterate elements].
  rewrite bind_lift, (get_own _ _ _ H3). cbn [and_then iterate elements].
  rewrite bind_lift, (get_own _ _ _ H4). cbn [and_then iterate elements].
  rewrite bind_lift, (get_own _ _ _ H5). cbn [and_then iterate elements].
  now rewrite rounds_min.
Qed.

End PersonalityRun.

(** C6 — [generate_personality] returns traits of the pool, no two of them
    the same value, at most [count] and at most as many as the pool has:
    the loop runs min(count, pool size) rounds and a round that draws a
    trait already selected adds nothing, so the result may be shorter than
    [count]; with a source that always selects the same index it has
    exactly one trait. *)
Theorem personality_traits_distinct net rnd count data
    traits ideals bonds flaws quirks n :
  fetchData net "traits.json" = Return data ->
  field "traits" data = Some (VArr traits) ->
  field "ideals" data = Some (VArr ideals) ->
  field "bonds" data = Some (VArr bonds) ->
  field "flaws" data = Some (VArr flaws) ->
  field "quirks" data = Some (VArr quirks) ->
  unit_source rnd ->
  (0 <= default 4 count)%Z ->
  let pool := traits ++ ideals ++ bonds ++ flaws ++ quirks in
  exists selected n',
    generate_personality net rnd count n
    = Return (VObj [ ("traits", VArr (selected.*2)) ], n')
    /\ (Z.of_nat (length selected) <= default 4 count)%Z
    /\ (length selected <= length pool)%nat
    /\ (forall i j a b,
          selected !! i = Some a -> selected !! j = Some b -> i <> j ->
          same_value_zero a b = false)
    /\ (Forall (fun v => is_primitive v = true) pool -> NoDup (selected.*2))
    /\ Forall (fun v => v ∈ pool) (selected.*2)
    /\ ((forall i j, drawn_index (rnd i) (length pool)
                     = drawn_index (rnd j) (length pool)) ->
        (1 <= default 4 count)%Z -> pool <> [] ->
        length selected = 1%nat).
Proof.
  intros Hfetch H1 H2 H3 H4 H5 Hrnd Hcount pool.
  rewrite (generate_personality_loop net rnd count data traits ideals bonds
             flaws quirks n Hfetch H1 H2 H3 H4 H5).
  cbv zeta. fold pool.
  set (rounds := Z.to_nat (Z.min (default 4%Z count) (Z.of_nat (length pool)))).
  destruct (decide (pool = [])) as [Hempty|Hne].
  - exists [], n. assert (rounds = 0%nat) as ->.
    { unfold rounds. rewrite Hempty. cbn [length]. lia. }
    split; [reflexivity|]. cbn [length fmap list_fmap].
    split; [lia|]. split; [lia|]. split; [intros i j a b H; inversion H|].
    split; [intros _; constructor|]. split; [constructor|].
    intros _ _ Hpool. congruence.
  - destruct (select_traits_chosen rnd pool rounds [] n Hrnd Hne
                (chosen_from_nil pool))
      as (selected & Hrun & [Hat Hapart] & Hlen).
    cbn [length] in Hlen.
    assert (Hpair : forall i j a b,
               selected !! i = Some a -> selected !! j = Some b -> i <> j ->
               same_value_zero a b = false).
    { intros i j a b Hi Hj Hij.
      destruct (decide (i < j)%nat); [eauto|].
      rewrite same_value_zero_sym. eapply (Hapart j i); eauto. lia. }
    exists selected, (n + rounds)%nat.
    split; [now rewrite (bind_returns _ _ _ _ _ Hrun)|].
    split; [unfold rounds in Hlen; lia|].
    split; [unfold rounds in Hlen; lia|].
    split; [exact Hpair|].
    split; [|split].
    + intros Hprim. apply NoDup_alt. intros i j x Hi Hj.
      destruct (decide (i = j)) as [|Hij]; [assumption|exfalso].
      rewrite list_lookup_fmap in Hi, Hj.
      destruct (selected !! i) as [[ia a]|] eqn:Ha; [|discriminate].
      destruct (selected !! j) as [[ib b]|] eqn:Hb; [|discriminate].
      cbn in Hi, Hj. injection Hi as ->. injection Hj as ->.
      pose proof (Hpair i j _ _ Ha Hb Hij) as Hdiff.
      eapply Forall_forall in Hat as Hia; [|eapply list_elem_of_lookup_2; exact Ha].
      eapply Forall_forall in Hat as Hib; [|eapply list_elem_of_lookup_2; exact Hb].
      destruct Hia as (ka & Hka & Hxa), Hib as (kb & Hkb & _).
      cbn [fst snd] in *. subst ia ib.
      rewrite same_value_zero_primitive in Hdiff; [discriminate|].
      eapply Forall_forall in Hprim; [exact Hprim|].
      eapply list_elem_of_lookup_2. exact Hxa.
    + apply Forall_fmap. eapply Forall_impl; [exact Hat|].
      intros [i v] (k & _ & Hk). cbn in *. eapply list_elem_of_lookup_2. exact Hk.
    + intros Hsame H1c _.
      assert (Hrounds : exists m, rounds = S m).
      { exists (Nat.pred rounds). unfold rounds.
        assert (0 < length pool)%nat by (destruct pool; cbn; [congruence|lia]).
        lia. }
      destruct Hrounds as [m Hm]. rewrite Hm in Hrun.
      destruct (pick_position rnd pool n (Hrnd n) Hne) as (x & Hx & Hidx & Hget).
      cbn [select_traits] in Hrun. rewrite (bind_returns _ _ _ _ _ Hidx) in Hrun.
      rewrite bind_lift, Hget in Hrun. cbv beta iota in Hrun.
      cbn [includes existsb negb app] in Hrun.
      rewrite (select_traits_same_index rnd pool m _ x (S n) Hrnd Hne
                 (fun i => Hsame i n) Hx) in Hrun.
      injection Hrun as <- _. reflexivity.
Qed.

Lemma personality_traits_distinct_witness :
  exists (selected : list (number * value)) (n' : nat),
    generate_personality (serving "traits.json" Sample.traits)
      (Sample.always (1 # 2)) None 0
    = Return (VObj [ ("traits", VArr (selected.*2)) ], n')
    /\ length selected = 1%nat.
Proof.
  destruct (personality_traits_distinct (serving "traits.json" Sample.traits)
              (Sample.always (1 # 2)) None Sample.traits
              [ VStr "Brave"; VStr "Curious" ] [ VStr "Honor" ] []
              [ VStr "Brave" ] [ VStr "Hums while working" ] 0%nat)
    as (selected & n' & Hrun & _ & _ & _ & _ & _ & Hone).
  - reflexivity.
  - reflexivity.
  - reflexivity.
  - reflexivity.
  - reflexivity.
  - reflexivity.
  - intros i. reflexivity.
  - discriminate.
  - exists selected, n'. split; [exact Hrun|]. apply Hone.
    + intros i j. reflexivity.
    + discriminate.
    + discriminate.
Defined.

(** * Determinism *)

Section Determinism.

Variables rnd rnd' : source.
Hypothesis same_draws : forall i, (rnd i == rnd' i)%Q.

Lemma bind_ext {A B} (m m' : M A) (f f' : A -> M B) n :
  m n = m' n -> (forall a n1, f a n1 = f' a n1) -> bind m f n = bind m' f' n.
Proof.
  intros Hm Hf. unfold bind. rewrite Hm.
  destruct (m' n) as [[a n1]| |]; auto.
Qed.

(** [Math.floor(Math.random() * x)] depends on the draw as a number only. *)
Lemma floor_mul_ext i (x : number) :
  Number.floor (Number.mul (Num (rnd i)) x)
  = Number.floor (Number.mul (Num (rnd' i)) x).
Proof.
  destruct x as [|y]; [reflexivity|]. cbn [Number.mul Number.floor].
  f_equal. f_equal. apply Binary64Facts.round_comp. now rewrite (same_draws i).
Qed.

Lemma pick_index_ext xs n : pick_index rnd xs n = pick_index rnd' xs n.
Proof.
  unfold pick_index, bind, random, lift, ret.
  destruct (get xs "length") as [len| |]; try reflexivity.
  destruct (to_number len) as [x| |]; try reflexivity.
  now rewrite floor_mul_ext.
Qed.

Lemma pick_ext xs n : pick rnd xs n = pick rnd' xs n.
Proof. unfold pick. apply bind_ext; [apply pick_index_ext|reflexivity]. Qed.

Lemma roll_ext diceSize remaining total n :
  roll rnd diceSize remaining total n = roll rnd' diceSize remaining total n.
Proof.
  revert total n. induction remaining as [|remaining IH]; intros total n;
    [reflexivity|].
  cbn [roll]. unfold bind, random. rewrite floor_mul_ext. apply IH.
Qed.

Lemma coin_value_ext diceData n :
  coin_value rnd diceData n = coin_value rnd' diceData n.
Proof.
  unfold coin_value.
  repeat (apply bind_ext; [try reflexivity|intros ? ?]).
  - apply roll_ext.
  - reflexivity.
Qed.

Lemma generate_coins_ext todo coins n :
  generate_coins rnd todo coins n = generate_coins rnd' todo coins n.
Proof.
  revert coins n. induction todo as [|[coinType diceData] todo IH];
    intros coins n; [reflexivity|].
  cbn [generate_coins]. destruct (negb (String.eqb coinType "items")); [|apply IH].
  apply bind_ext; [apply coin_value_ext|]. intros amount n1. apply IH.
Qed.

Lemma generate_items_ext itemPool remaining treasureItems n :
  generate_items rnd itemPool remaining treasureItems n
  = generate_items rnd' itemPool remaining treasureItems n.
Proof.
  revert treasureItems n. induction remaining as [|remaining IH];
    intros treasureItems n; [reflexivity|].
  cbn [generate_items]. apply bind_ext; [apply pick_ext|]. intros item n1. apply IH.
Qed.

Lemma select_traits_ext allTraits remaining selected n :
  select_traits rnd allTraits remaining selected n
  = select_traits rnd' allTraits remaining selected n.
Proof.
  revert selected n. induction remaining as [|remaining IH];
    intros selected n; [reflexivity|].
  cbn [select_traits]. apply bind_ext; [apply pick_index_ext|]. intros i n1.
  apply bind_ext; [reflexivity|]. intros trait n2. apply IH.
Qed.

Lemma treasure_coins_ext treasureData n :
  treasure_coins rnd treasureData n = treasure_coins rnd' treasureData n.
Proof.
  unfold treasure_coins. destruct (truthy treasureData); [|reflexivity].
  apply generate_coins_ext.
Qed.

Lemma treasure_items_ext items cr type n :
  treasure_items rnd items cr type n = treasure_items rnd' items cr type n.
Proof.
  unfold treasure_items.
  destruct (String.eqb type "hoard" && Number.ge (Num cr) (of_Z 5)); [|reflexivity].
  apply bind_ext; [reflexivity|]. intros itemPool n1.
  unfold bind, random. rewrite floor_mul_ext. apply generate_items_ext.
Qed.

Variables net net' : network.

Lemma run_ext c n :
  fetchData net (table_of c) = fetchData net' (table_of c) ->
  run net rnd c n = run net' rnd' c n.
Proof.
  intros Hfetch.
  destruct c; cbn [run table_of] in *;
    unfold generate_encounter, generate_npc_name, generate_location_name,
      generate_personality, generate_treasure, generate_weather,
      generate_plot_hook, fetch; cbv zeta; rewrite Hfetch;
    repeat first
      [ reflexivity
      | apply pick_ext
      | apply select_traits_ext
      | apply treasure_coins_ext
      | apply treasure_items_ext
      | apply bind_ext; [|intros ? ?]
      | match goal with
        | |- (if ?b then _ else _) _ = (if ?b then _ else _) _ => destruct b
        end ].
Qed.

End Determinism.

(** C10 — a tool is a function of its arguments, of the table the fetch
    delivers and of the numbers the random source produces: two runs that
    start at the same draw, receive the same answer to their fetch and draw
    the same numbers end with the same outcome, record for record. *)
Theorem run_deterministic (c : call) net net' rnd rnd' n :
  fetchData net (table_of c) = fetchData net' (table_of c) ->
  (forall i, (rnd i == rnd' i)%Q) ->
  run net rnd c n = run net' rnd' c n.
Proof. intros Hfetch Hdraws. now apply run_ext. Qed.

Lemma run_deterministic_witness :
  run (serving "encounters.json" Sample.encounters) (Sample.always (1 # 2))
    (Encounter (VNum (of_Z 3)) "forest" None) 0
  = run Sample.mirror (Sample.always (2 # 4))
      (Encounter (VNum (of_Z 3)) "forest" None) 0.
Proof.
  apply (run_deterministic (Encounter (VNum (of_Z 3)) "forest" None)
           (serving "encounters.json" Sample.encounters) Sample.mirror
           (Sample.always (1 # 2)) (Sample.always (2 # 4)) 0%nat).
  - reflexivity.
  - intros i. reflexivity.
Defined.

(** * The frame of a run over the store *)

Module StoreFacts.

Import Store.
Local Open Scope store_scope.

Section Frame.

Variable base : heap.

Lemma keeps_ret {A} (a : A) (Q : A -> Prop) : Q a -> keeps base (hret a) Q.
Proof. intros HQ h n Hh. cbn. split; [exact Hh|]. now intros ? ? [= <- _]. Qed.

Lemma keeps_bind {A B} (m : H A) (f : A -> H B) (P : A -> Prop) (Q : B -> Prop) :
  keeps base m P -> (forall a, P a -> keeps base (f a) Q) ->
  keeps base (hbind m f) Q.
Proof.
  intros Hm Hf h n Hh. destruct (Hm h n Hh) as [Hsub HP]. unfold hbind.
  destruct (m h n) as [h1 [[a n1]| |]]; cbn in *.
  - apply Hf; eauto.
  - split; [exact Hsub|discriminate].
  - split; [exact Hsub|discriminate].
Qed.

Lemma keeps_weaken {A} (m : H A) (P Q : A -> Prop) :
  keeps base m P -> (forall a, P a -> Q a) -> keeps base m Q.
Proof.
  intros Hm HPQ h n Hh. destruct (Hm h n Hh) as [Hsub HP]. split; eauto.
Qed.

Lemma keeps_read {A} (f : heap -> outcome A) : keeps base (read f) (fun _ => True).
Proof. intros h n Hh. cbn. split; [exact Hh|trivial]. Qed.

Lemma keeps_random rnd : keeps base (random rnd) (fun _ => True).
Proof. intros h n Hh. cbn. split; [exact Hh|trivial]. Qed.

Lemma fresh_not_in_base (h : heap) : base ⊆ h -> base !! fresh (dom h) = None.
Proof.
  intros Hh. apply not_elem_of_dom. intros Hin.
  apply (is_fresh (dom h)). eapply subseteq_dom; eauto.
Qed.

Lemma keeps_alloc o : keeps base (alloc o) (fresh_in base).
Proof.
  intros h n Hh. unfold alloc. cbn. split.
  - apply insert_subseteq_r; [now apply fresh_not_in_base|exact Hh].
  - intros a n' [= <- _]. exists (fresh (dom h)). split; [reflexivity|].
    now apply fresh_not_in_base.
Qed.

Lemma keeps_push target x :
  fresh_in base target -> keeps base (push target x) (fun _ => True).
Proof.
  intros (l & -> & Hl) h n Hh. unfold push.
  destruct (h !! l) as [[es|ps]|]; cbn; (split; [|trivial]); try exact Hh.
  now apply insert_subseteq_r.
Qed.

Lemma keeps_assign target k x :
  fresh_in base target -> keeps base (assign target k x) (fun _ => True).
Proof.
  intros (l & -> & Hl) h n Hh. unfold assign.
  destruct (h !! l) as [[es|ps]|]; cbn; (split; [|trivial]); try exact Hh.
  now apply insert_subseteq_r.
Qed.

End Frame.

(** Runs through a computation made of reads, draws, allocations and writes
    to new cells. *)
Ltac frame :=
  repeat first
    [ apply keeps_read
    | apply keeps_random
    | apply keeps_alloc
    | apply keeps_ret; exact I
    | apply keeps_push; assumption
    | apply keeps_assign; assumption
    | assumption
    | eapply keeps_weaken; [apply keeps_alloc|intros ? _; exact I]
    | eapply keeps_bind; [|intros ? ?]
    | match goal with
      | |- keeps _ (if ?b then _ else _) _ => destruct b
      | |- keeps _ (let x := _ in _) _ => cbv zeta
      end ].

Section FrameOfTools.

Variable net : network.
Variable rnd : source.
Variable base : heap.

Lemma keeps_pick_index xs : keeps base (pick_index rnd xs) (fun _ => True).
Proof. unfold pick_index. frame. Qed.

Lemma keeps_pick xs : keeps base (pick rnd xs) (fun _ => True).
Proof.
  unfold pick. eapply keeps_bind; [apply keeps_pick_index|]. intros. frame.
Qed.

Lemma keeps_or_empty found : keeps base (or_empty found) (fun _ => True).
Proof. unfold or_empty. frame. Qed.

Lemma keeps_spread_new ps v : keeps base (spread_new ps v) (fresh_in base).
Proof. unfold spread_new. frame. Qed.

Lemma keeps_select_traits allTraits selected remaining :
  fresh_in base selected ->
  keeps base (select_traits rnd allTraits selected remaining) (fun _ => True).
Proof.
  intros Hsel. induction remaining as [|remaining IH]; cbn [select_traits].
  - frame.
  - eapply keeps_bind; [apply keeps_pick|]. intros trait _.
    unfold includes. frame.
Qed.

Lemma keeps_roll diceSize remaining total :
  keeps base (roll rnd diceSize remaining total) (fun _ => True).
Proof.
  revert total. induction remaining as [|remaining IH]; intros total;
    cbn [roll]; frame. apply IH.
Qed.

Lemma keeps_coin_value diceData :
  keeps base (coin_value rnd diceData) (fun _ => True).
Proof.
  unfold coin_value.
  eapply keeps_bind; [apply keeps_read|]. intros dice _.
  eapply keeps_bind with (P := fun _ => True).
  { unfold split_d. destruct dice; frame. }
  intros rolls _. frame. apply keeps_roll.
Qed.

Lemma keeps_generate_coins todo coins :
  fresh_in base coins ->
  keeps base (generate_coins rnd todo coins) (fun _ => True).
Proof.
  intros Hcoins. induction todo as [|[coinType diceData] todo IH];
    cbn [generate_coins]; [frame|].
  destruct (negb (String.eqb coinType "items")); [|exact IH].
  eapply keeps_bind; [apply keeps_coin_value|]. intros amount _. frame.
Qed.

Lemma keeps_generate_items itemPool treasureItems remaining :
  fresh_in base treasureItems ->
  keeps base (generate_items rnd itemPool treasureItems remaining) (fun _ => True).
Proof.
  intros Hitems. induction remaining as [|remaining IH];
    cbn [generate_items]; [frame|].
  eapply keeps_bind; [apply keeps_pick|]. intros item _. frame.
Qed.

End FrameOfTools.

(** Parsing a document only adds cells. *)
Lemma load_extends (v : value) : forall h : heap, h ⊆ (load v h).2.
Proof.
  revert v. fix IH 1. intros [| | | | |l|ps] h; cbn [load]; try reflexivity.
  - set (load_all := fix load_all (l : list value) (h : heap)
                       : list hvalue * heap :=
                       match l with
                       | [] => ([], h)
                       | x :: r =>
                           let '(hx, h1) := load x h in
                           let '(hr, h2) := load_all r h1 in
                           (hx :: hr, h2)
                       end).
    assert (Hall : forall h, h ⊆ (load_all l h).2).
    { induction l as [|x r IHr]; intros h0; cbn; [reflexivity|].
      pose proof (IH x h0) as Hx. destruct (load x h0) as [hx h1].
      pose proof (IHr h1) as Hr. destruct (load_all r h1) as [hr h2].
      cbn in *. etrans; eauto. }
    specialize (Hall h). destruct (load_all l h) as [es h1]. cbn in *.
    etrans; [exact Hall|]. apply insert_subseteq.
    apply not_elem_of_dom, is_fresh.
  - set (load_props := fix load_props (ps : list (string * value)) (h : heap)
                         : list (string * hvalue) * heap :=
                         match ps with
                         | [] => ([], h)
                         | (k, x) :: r =>
                             let '(hx, h1) := load x h in
                             let '(hr, h2) := load_props r h1 in
                             ((k, hx) :: hr, h2)
                         end).
    assert (Hall : forall h, h ⊆ (load_props ps h).2).
    { induction ps as [|[k x] r IHr]; intros h0; cbn; [reflexivity|].
      pose proof (IH x h0) as Hx. destruct (load x h0) as [hx h1].
      pose proof (IHr h1) as Hr. destruct (load_props r h1) as [hr h2].
      cbn in *. etrans; eauto. }
    specialize (Hall h). destruct (load_props ps h) as [hps h1]. cbn in *.
    etrans; [exact Hall|]. apply insert_subseteq.
    apply not_elem_of_dom, is_fresh.
Qed.

Lemma framed_fetch {B} net filename (body : hvalue -> H B) fresh h n :
  (forall base d, keeps base (body d) (fresh base)) ->
  framed net filename (hbind (fetch net filename) body) fresh h n.
Proof.
  intros Hbody. unfold framed, hbind, fetch.
  destruct (fetchData net filename) as [data| |]; try reflexivity.
  destruct (load data h) as [d h1]. cbn [snd]. now apply Hbody.
Qed.

Ltac frame_tool :=
  repeat first
    [ apply keeps_read
    | apply keeps_random
    | apply keeps_alloc
    | apply keeps_ret; exact I
    | apply keeps_pick
    | apply keeps_or_empty
    | apply keeps_spread_new
    | apply keeps_select_traits; assumption
    | apply keeps_generate_coins; assumption
    | apply keeps_generate_items; assumption
    | eapply keeps_bind; [|intros ? ?]
    | match goal with
      | |- keeps _ (if ?b then _ else _) _ => destruct b
      end ].

Lemma run_framed net rnd (c : call) h n :
  framed net (table_of c) (run net rnd c) fresh_in h n.
Proof.
  destruct c; cbn [run table_of];
    unfold generate_encounter, generate_npc_name, generate_location_name,
      generate_personality, generate_treasure, generate_weather,
      generate_plot_hook; cbv zeta;
    apply framed_fetch; intros base d; frame_tool.
Qed.

(** C9 — no tool changes the table it fetched: however a run ends, every
    cell that the store had before the call is unchanged, and when the
    fetch delivered a table every cell of the parsed table is unchanged
    too; the writes of a tool (the pushes to [selected] and to
    [treasureItems], the assignments to [coins]) go to cells it created,
    and the record it returns is a cell created after the table. *)
Theorem fetched_table_unchanged net rnd (c : call) (h : heap) n :
  h ⊆ (run net rnd c h n).1
  /\ forall data,
      fetchData net (table_of c) = Return data ->
      h ⊆ (load data h).2
      /\ (load data h).2 ⊆ (run net rnd c h n).1
      /\ forall result n',
          (run net rnd c h n).2 = Return (result, n') ->
          exists l, result = HRef l
                    /\ (load data h).2 !! l = None
                    /\ h !! l = None.
Proof.
  pose proof (run_framed net rnd c h n) as Hframed. unfold framed in Hframed.
  destruct (fetchData net (table_of c)) as [data| |] eqn:Hfetch.
  - destruct Hframed as [Hsub Hfresh].
    pose proof (load_extends data h) as Hload. split; [etrans; eauto|].
    intros data' [= <-]. split; [exact Hload|]. split; [exact Hsub|].
    intros result n' Hrun. destruct (Hfresh result n' Hrun) as (l & -> & Hl).
    exists l. split; [reflexivity|]. split; [exact Hl|].
    eapply lookup_weaken_None; eauto.
  - rewrite Hframed. split; [reflexivity|discriminate].
  - rewrite Hframed. split; [reflexivity|discriminate].
Qed.

End StoreFacts.

(** * Agreement of the two translations

    Every tool run over the store agrees with the same tool run over
    trees.  The reads of a value of the store see what the tree it stands
    for holds; a loop that writes to a cell it has allocated keeps what
    the other cells hold. *)

Module AgreementFacts.


Import Store Agreement.

Lemma value_ind' (P : value -> Prop) :
  P VUndefined -> P VNull -> (forall b, P (VBool b)) -> (forall n, P (VNum n)) ->
  (forall s, P (VStr s)) ->
  (forall l, Forall P l -> P (VArr l)) ->
  (forall ps, Forall (fun p => P p.2) ps -> P (VObj ps)) ->
  forall v, P v.
Proof.
  intros Hu Hn Hb Hnum Hs Harr Hobj. fix IH 1. intros [| |b|n|s|l|ps].
  - exact Hu.
  - exact Hn.
  - apply Hb.
  - apply Hnum.
  - apply Hs.
  - apply Harr. induction l as [|x l IHl]; constructor; [apply IH|exact IHl].
  - apply Hobj. induction ps as [|[k x] ps IHps]; constructor;
      [apply IH|exact IHps].
Qed.

Section Repr.

Lemma Forall2_Forall_impl {A B} (P Q : A -> B -> Prop) (F : B -> Prop) l k :
  Forall2 P l k -> Forall F k -> (forall a b, F b -> P a b -> Q a b) ->
  Forall2 Q l k.
Proof.
  intros H2 HF Himpl. induction H2; inversion HF; subst; constructor; auto.
Qed.

Lemma repr_mono h h' hv v : h ⊆ h' -> repr h hv v -> repr h' hv v.
Proof.
  intros Hsub. revert hv. induction v as [| |b|n|s|l IHl|ps IHps] using value_ind';
    intros hv Hrepr; inversion Hrepr; subst; try constructor.
  - econstructor; [eapply lookup_weaken; eauto|].
    eapply Forall2_Forall_impl; [eassumption|exact IHl|]. cbn. auto.
  - econstructor; [eapply lookup_weaken; eauto|].
    eapply Forall2_Forall_impl; [eassumption|exact IHps|].
    cbn. intros hp p Hp [Hk Hr]. split; auto.
Qed.

Lemma repr_props_mono h h' hps ps :
  h ⊆ h' -> repr_props h hps ps -> repr_props h' hps ps.
Proof.
  intros Hsub H. eapply Forall2_impl; [exact H|].
  intros hp p [Hk Hp]. split; [exact Hk|]. eapply repr_mono; eauto.
Qed.

Lemma repr_all_mono h h' hvs vs :
  h ⊆ h' -> Forall2 (repr h) hvs vs -> Forall2 (repr h') hvs vs.
Proof.
  intros Hsub H. eapply Forall2_impl; [exact H|].
  intros hx x Hx. eapply repr_mono; eauto.
Qed.

Lemma repr_truthy h hv v : repr h hv v -> htruthy hv = truthy v.
Proof. now destruct 1. Qed.

Lemma repr_strict_eq_number h hv v n :
  repr h hv v -> hstrict_eq_number hv n = strict_eq_number v n.
Proof. now destruct 1. Qed.

Lemma repr_to_number h hv v :
  repr h hv v -> same_outcome eq (hto_number hv) (to_number v).
Proof. destruct 1; cbn; constructor; reflexivity. Qed.

Lemma repr_parseInt h hv v :
  repr h hv v -> same_outcome eq (hparseInt hv) (parseInt v).
Proof. destruct 1; cbn; constructor; reflexivity. Qed.

Lemma repr_to_string h hv v :
  repr h hv v -> same_outcome eq (hto_string hv) (to_string v).
Proof.
  destruct 1; cbn; try (constructor; reflexivity).
  destruct (key_of_number n); constructor; reflexivity.
Qed.

Lemma repr_chars h s : Forall2 (repr h) (hchars s) (chars s).
Proof.
  unfold hchars, chars. induction (String.list_ascii_of_string s); cbn;
    constructor; [constructor|assumption].
Qed.

Lemma own_prop_repr h hps ps k :
  repr_props h hps ps ->
  option_Forall2 (repr h) (own_prop k hps) (own_prop k ps).
Proof.
  induction 1 as [|[hk hv] [k' v] hps ps [Hk Hv] _ IH]; cbn in *; [constructor|].
  subst. destruct (String.eqb k' k); [now constructor|exact IH].
Qed.

Lemma lookup_repr h (hvs : list hvalue) (vs : list value) i :
  Forall2 (repr h) hvs vs ->
  repr h (default HUndefined (hvs !! i)) (default VUndefined (vs !! i)).
Proof.
  intros H. destruct (proj1 (Forall2_lookup _ _ _) H i) as [hv v Hv|]; cbn;
    [exact Hv|constructor].
Qed.

(** What the reads of a value see, in a store [h] that extends the store
    [b] the value is represented in. *)
Lemma repr_elements b h hv v :
  repr b hv v -> b ⊆ h ->
  option_Forall2 (Forall2 (repr b)) (helements h hv) (elements v).
Proof.
  intros Hrepr Hsub. destruct Hrepr; cbn; try constructor.
  - apply repr_chars.
  - erewrite lookup_weaken by eauto. now constructor.
  - erewrite lookup_weaken by eauto. constructor.
Qed.

Lemma repr_hprops b h hv v :
  repr b hv v -> b ⊆ h ->
  match hprops h hv, v with
  | Some hps, VObj ps => repr_props b hps ps
  | None, VObj _ => False
  | Some _, _ => False
  | None, _ => True
  end.
Proof.
  intros Hrepr Hsub. destruct Hrepr; cbn; auto.
  - now erewrite lookup_weaken by eauto.
  - now erewrite lookup_weaken by eauto.
Qed.

Lemma repr_dangling b h hv v : repr b hv v -> b ⊆ h -> dangling h hv = false.
Proof.
  intros Hrepr Hsub. destruct Hrepr; cbn; auto;
    apply bool_decide_eq_false; erewrite lookup_weaken by eauto; discriminate.
Qed.

Lemma indexed_same b (hel : option (list hvalue)) (el : option (list value)) k :
  option_Forall2 (Forall2 (repr b)) hel el ->
  same_outcome (repr b)
    (if String.eqb k "length" then
       Return (match hel with
               | Some l => HNum (of_nat (length l))
               | None => HUndefined
               end)
     else if String.eqb k "NaN" then Return HUndefined
     else match array_index k with
          | Some i => Return (default HUndefined (default [] hel !! i))
          | None => Unmodelled
          end)
    (if String.eqb k "length" then
       Return (match el with
               | Some l => VNum (of_nat (length l))
               | None => VUndefined
               end)
     else if String.eqb k "NaN" then Return VUndefined
     else match array_index k with
          | Some i => Return (default VUndefined (default [] el !! i))
          | None => Unmodelled
          end).
Proof.
  intros Hel. destruct (String.eqb k "length").
  - constructor. destruct Hel as [hl l Hall|]; [|constructor].
    rewrite (Forall2_length _ _ _ Hall). constructor.
  - destruct (String.eqb k "NaN"); [constructor; constructor|].
    destruct (array_index k) as [i|]; [|constructor]. constructor.
    destruct Hel as [hl l Hall|]; cbn; [now apply lookup_repr|constructor].
Qed.

Lemma repr_get b h hv v k :
  repr b hv v -> b ⊆ h -> same_outcome (repr b) (hget h hv k) (get v k).
Proof.
  intros Hrepr Hsub.
  pose proof (repr_elements b h hv v Hrepr Hsub) as Hel.
  pose proof (repr_hprops b h hv v Hrepr Hsub) as Hps.
  pose proof (repr_dangling b h hv v Hrepr Hsub) as Hd.
  destruct Hrepr; try (constructor; fail); unfold hget, get; rewrite Hd.
  - now apply indexed_same.
  - now apply indexed_same.
  - now apply indexed_same.
  - destruct (hprops h (HRef l)) as [hps0|]; [contradiction|].
    now apply indexed_same.
  - destruct (hprops h (HRef l)) as [hps0|]; [|contradiction].
    destruct (own_prop_repr b hps0 ps k Hps); [now constructor|].
    destruct (inherited k); constructor. constructor.
Qed.

Lemma repr_get_opt b h hv v k :
  repr b hv v -> b ⊆ h -> same_outcome (repr b) (hget_opt h hv k) (get_opt v k).
Proof.
  intros Hrepr Hsub. pose proof (repr_get b h hv v k Hrepr Hsub) as Hget.
  destruct Hrepr; try exact Hget; constructor; constructor.
Qed.

Lemma repr_get_at b h hv v n :
  repr b hv v -> b ⊆ h -> same_outcome (repr b) (hget_at h hv n) (get_at v n).
Proof.
  intros Hrepr Hsub.
  pose proof (repr_elements b h hv v Hrepr Hsub) as Hel.
  pose proof (repr_hprops b h hv v Hrepr Hsub) as Hps.
  pose proof (repr_dangling b h hv v Hrepr Hsub) as Hd.
  assert (Hindexed : forall hel el,
             option_Forall2 (Forall2 (repr b)) hel el ->
             same_outcome (repr b)
               (match Number.to_Z n with
                | Some z =>
                    if (0 <=? z)%Z
                    then Return (default HUndefined (default [] hel !! Z.to_nat z))
                    else Return HUndefined
                | None => Return HUndefined
                end)
               (match Number.to_Z n with
                | Some z =>
                    if (0 <=? z)%Z
                    then Return (default VUndefined (default [] el !! Z.to_nat z))
                    else Return VUndefined
                | None => Return VUndefined
                end)).
  { intros hel el H. destruct (Number.to_Z n) as [z|]; [|constructor; constructor].
    destruct (0 <=? z)%Z; constructor; [|constructor].
    destruct H as [hl l Hall|]; cbn; [now apply lookup_repr|constructor]. }
  destruct Hrepr; try (constructor; fail); unfold hget_at, get_at; rewrite Hd.
  - now apply Hindexed.
  - now apply Hindexed.
  - now apply Hindexed.
  - destruct (hprops h (HRef l)) as [hps0|]; [contradiction|].
    now apply Hindexed.
  - destruct (hprops h (HRef l)) as [hps0|]; [|contradiction].
    destruct (key_of_number n) as [k|]; constructor.
    destruct (own_prop_repr b hps0 ps k Hps); [assumption|constructor].
Qed.

Lemma same_outcome_and_then {A B A' B'} (R : A -> A' -> Prop) (S : B -> B' -> Prop)
    (o : outcome A) (o' : outcome A') (f : A -> outcome B) (f' : A' -> outcome B') :
  same_outcome R o o' ->
  (forall a a', R a a' -> same_outcome S (f a) (f' a')) ->
  same_outcome S (and_then o f) (and_then o' f').
Proof. intros [a a' Ha|e|] Hf; cbn; [auto|constructor|constructor]. Qed.

Lemma repr_nested b h hv v top k1 k2 :
  repr b hv v -> b ⊆ h ->
  same_outcome (repr b) (hnested h hv top k1 k2) (nested v top k1 k2).
Proof.
  intros Hrepr Hsub. unfold hnested, nested.
  eapply same_outcome_and_then; [apply (repr_get b); assumption|].
  intros t t' Ht.
  eapply same_outcome_and_then; [apply (repr_get b); assumption|].
  intros e e' He. now apply repr_get_opt.
Qed.

Lemma repr_imap_keys b (key : nat -> string) (hl : list hvalue) (l : list value) :
  Forall2 (repr b) hl l ->
  repr_props b (imap (fun i x => (key i, x)) hl) (imap (fun i x => (key i, x)) l).
Proof.
  intros H. revert key. induction H as [|hx x hl' l' Hx _ IH]; intros key; cbn.
  - constructor.
  - constructor; [split; [reflexivity|exact Hx]|]. apply (IH (fun i => key (S i))).
Qed.

Lemma repr_indexed_props b (hl : list hvalue) (l : list value) :
  Forall2 (repr b) hl l -> repr_props b (hindexed_props hl) (indexed_props l).
Proof. apply (repr_imap_keys b (fun i => pretty (N.of_nat i))). Qed.

Lemma repr_entries b h hv v :
  repr b hv v -> b ⊆ h -> repr_props b (hentries h hv) (entries v).
Proof.
  intros Hrepr Hsub. unfold hentries, hprops, helements.
  destruct Hrepr as [| | | |s|l hvs vs Hl Hvs|l hps ps Hl Hps]; cbn [entries].
  - constructor.
  - constructor.
  - constructor.
  - constructor.
  - apply repr_indexed_props. apply repr_chars.
  - rewrite (lookup_weaken _ _ _ _ Hl Hsub). now apply repr_indexed_props.
  - rewrite (lookup_weaken _ _ _ _ Hl Hsub). exact Hps.
Qed.

Lemma repr_iterate b h hv v :
  repr b hv v -> b ⊆ h ->
  same_outcome (Forall2 (repr b)) (hiterate h hv) (iterate v).
Proof.
  intros Hrepr Hsub. unfold hiterate, iterate.
  destruct (repr_elements b h hv v Hrepr Hsub); constructor. assumption.
Qed.

(** The parsed document stands for the document. *)
Lemma load_repr (v : value) : forall h : heap, repr (load v h).2 (load v h).1 v.
Proof.
  induction v as [| |b|n|s|l IHl|ps IHps] using value_ind'; intros h;
    cbn [load]; try constructor.
  - set (load_all := fix load_all (l : list value) (h : heap)
                       : list hvalue * heap :=
                       match l with
                       | [] => ([], h)
                       | x :: r =>
                           let '(hx, h1) := load x h in
                           let '(hr, h2) := load_all r h1 in
                           (hx :: hr, h2)
                       end).
    assert (Hall : forall h, h ⊆ (load_all l h).2
                             /\ Forall2 (repr (load_all l h).2) (load_all l h).1 l).
    { induction IHl as [|x r Hx _ IHr]; intros h0; cbn; [split; [reflexivity|constructor]|].
      pose proof (StoreFacts.load_extends x h0) as Hext. specialize (Hx h0).
      destruct (load x h0) as [hx h1].
      destruct (IHr h1) as [Hsub Hr]. destruct (load_all r h1) as [hr h2].
      cbn in *. split; [etrans; eauto|]. constructor; [|exact Hr].
      eapply repr_mono; eauto. }
    destruct (Hall h) as [Hsub Hl]. destruct (load_all l h) as [es h1]. cbn in *.
    assert (Hfresh : h1 !! fresh (dom h1) = None)
      by apply not_elem_of_dom, is_fresh.
    econstructor; [apply lookup_insert_eq|].
    eapply Forall2_impl; [exact Hl|]. intros hx x Hx.
    eapply repr_mono; [|exact Hx]. now apply insert_subseteq.
  - set (load_props := fix load_props (ps : list (string * value)) (h : heap)
                         : list (string * hvalue) * heap :=
                         match ps with
                         | [] => ([], h)
                         | (k, x) :: r =>
                             let '(hx, h1) := load x h in
                             let '(hr, h2) := load_props r h1 in
                             ((k, hx) :: hr, h2)
                         end).
    assert (Hall : forall h, h ⊆ (load_props ps h).2
                             /\ repr_props (load_props ps h).2 (load_props ps h).1 ps).
    { induction IHps as [|[k x] r Hx _ IHr]; intros h0; cbn;
        [split; [reflexivity|constructor]|].
      pose proof (StoreFacts.load_extends x h0) as Hext. specialize (Hx h0).
      cbn in Hx. destruct (load x h0) as [hx h1].
      destruct (IHr h1) as [Hsub Hr]. destruct (load_props r h1) as [hr h2].
      cbn in *. split; [etrans; eauto|]. constructor; [|exact Hr].
      split; [reflexivity|]. eapply repr_mono; eauto. }
    destruct (Hall h) as [Hsub Hl]. destruct (load_props ps h) as [hps h1]. cbn in *.
    assert (Hfresh : h1 !! fresh (dom h1) = None)
      by apply not_elem_of_dom, is_fresh.
    econstructor; [apply lookup_insert_eq|].
    eapply repr_props_mono; [|exact Hl]. now apply insert_subseteq.
Qed.

End Repr.

Section Properties.

Context {V V' : Type} (R : V -> V' -> Prop).

Let related := Forall2 (fun (hp : string * V) (p : string * V') =>
                          hp.1 = p.1 /\ R hp.2 p.2).

Lemma related_own_prop hps ps k :
  related hps ps -> option_Forall2 R (own_prop k hps) (own_prop k ps).
Proof.
  induction 1 as [|[hk hv] [k' v] hps ps [Hk Hv] _ IH]; cbn in *; [constructor|].
  subst. destruct (String.eqb k' k); [now constructor|exact IH].
Qed.

Lemma related_has_prop hps ps k : related hps ps -> has_prop k hps = has_prop k ps.
Proof.
  intros H. unfold has_prop.
  destruct (related_own_prop hps ps k H); apply bool_decide_ext;
    split; intros [? ?]; eauto; discriminate.
Qed.

Lemma related_replace hps ps k hx x :
  related hps ps -> R hx x -> related (replace_prop k hx hps) (replace_prop k x ps).
Proof.
  intros H Hx. induction H as [|[hk hv] [k' v] hps ps [Hk Hv] Hrest IH]; cbn in *;
    [constructor|].
  subst. destruct (String.eqb k' k); constructor; auto.
Qed.

Lemma related_insert_index hps ps i k hx x :
  related hps ps -> R hx x ->
  related (insert_index i k hx hps) (insert_index i k x ps).
Proof.
  intros H Hx. induction H as [|[hk hv] [k' v] hps ps [Hk Hv] Hrest IH];
    cbn [insert_index fst snd] in *.
  - constructor; [split; auto|constructor].
  - subst. destruct (array_index k') as [j|].
    + destruct (j <? i)%nat.
      * constructor; [split; auto|exact IH].
      * constructor; [split; auto|]. constructor; [split; auto|exact Hrest].
    + constructor; [split; auto|]. constructor; [split; auto|exact Hrest].
Qed.

Lemma related_define hps ps k hx x :
  related hps ps -> R hx x -> related (define_prop k hx hps) (define_prop k x ps).
Proof.
  intros H Hx. unfold define_prop. rewrite (related_has_prop hps ps k H).
  destruct (has_prop k ps); [now apply related_replace|].
  destruct (array_index k); [now apply related_insert_index|].
  apply Forall2_app; [exact H|]. constructor; [split; auto|constructor].
Qed.

Lemma related_assign hps ps k hx x :
  related hps ps -> R hx x -> related (assign_prop k hx hps) (assign_prop k x ps).
Proof.
  intros H Hx. unfold assign_prop. rewrite (related_has_prop hps ps k H).
  destruct (String.eqb k "__proto__" && negb (has_prop k ps)); [exact H|].
  now apply related_define.
Qed.

Lemma related_fold_define hes es hps ps :
  related hes es -> related hps ps ->
  related (fold_left (fun acc kv => define_prop kv.1 kv.2 acc) hes hps)
    (fold_left (fun acc kv => define_prop kv.1 kv.2 acc) es ps).
Proof.
  intros He. revert hps ps.
  induction He as [|[hk hv] [k v] hes es [Hk Hv] _ IH]; intros hps ps Hps;
    cbn in *; [exact Hps|].
  subst. apply IH. now apply related_define.
Qed.

End Properties.

Lemma agrees_ret {A A'} (R : heap -> A -> A' -> Prop) a a' h n :
  R h a a' -> agrees h R (hret a) (ret a') h n.
Proof.
  intros HR. split; [reflexivity|]. cbn. constructor. split; [reflexivity|exact HR].
Qed.

Lemma agrees_base {A A'} (R : heap -> A -> A' -> Prop) b b' (m : H A) (p : M A') h n :
  b ⊆ b' -> agrees b' R m p h n -> agrees b R m p h n.
Proof. intros Hb [Hsub Hsame]. split; [etrans; eauto|exact Hsame]. Qed.

(** The rule of sequencing: what follows starts in a store that has the
    cells the first part kept. *)
Lemma agrees_bind {A A' B B'} (R1 : heap -> A -> A' -> Prop) (R2 : heap -> B -> B' -> Prop)
    b b1 (m : H A) (p : M A') (f : A -> H B) (g : A' -> M B') h n :
  b ⊆ b1 ->
  agrees b1 R1 m p h n ->
  (forall a a' h1 n1, b1 ⊆ h1 -> R1 h1 a a' -> agrees b R2 (f a) (g a') h1 n1) ->
  agrees b R2 (hbind m f) (bind p g) h n.
Proof.
  intros Hb [Hsub Hsame] Hf. unfold agrees, hbind, bind in *.
  destruct (m h n) as [h1 o]. cbn [fst snd] in *.
  inversion Hsame as [[a n1] [a' n1'] [Hn HR] Ho Hp|e Ho Hp|Ho Hp]; subst;
    cbn [fst snd] in *.
  - subst n1'. exact (Hf a a' h1 n1 Hsub HR).
  - split; [etrans; eauto|constructor].
  - split; [etrans; eauto|constructor].
Qed.

(** Sequencing of runs that only add cells. *)
Lemma agrees_step {A A' B B'} (R1 : heap -> A -> A' -> Prop) (R2 : heap -> B -> B' -> Prop)
    (m : H A) (p : M A') (f : A -> H B) (g : A' -> M B') h n :
  agrees h R1 m p h n ->
  (forall a a' h1 n1, h ⊆ h1 -> R1 h1 a a' -> agrees h1 R2 (f a) (g a') h1 n1) ->
  agrees h R2 (hbind m f) (bind p g) h n.
Proof.
  intros Hm Hf. eapply agrees_bind; [reflexivity|exact Hm|].
  intros a a' h1 n1 Hsub HR. eapply agrees_base; [exact Hsub|]. now apply Hf.
Qed.

(** The same, where the run over trees has a [let] for the first part. *)
Lemma agrees_step_let {A A' B B'} (R1 : heap -> A -> A' -> Prop) (R2 : heap -> B -> B' -> Prop)
    (m : H A) (x : A') (f : A -> H B) (g : A' -> M B') h n :
  agrees h R1 m (ret x) h n ->
  (forall a a' h1 n1, h ⊆ h1 -> R1 h1 a a' -> agrees h1 R2 (f a) (g a') h1 n1) ->
  agrees h R2 (hbind m f) (g x) h n.
Proof. intros Hm Hf. exact (agrees_step R1 R2 m (ret x) f g h n Hm Hf). Qed.

Lemma agrees_weaken {A A'} (R R' : heap -> A -> A' -> Prop) b (m : H A) (p : M A') h n :
  agrees b R m p h n ->
  (forall h' a a', b ⊆ h' -> R h' a a' -> R' h' a a') ->
  agrees b R' m p h n.
Proof.
  intros [Hsub Hsame] HR. split; [exact Hsub|].
  destruct Hsame as [a a' [Hn Ha]|e|]; constructor. split; auto.
Qed.

Lemma agrees_ext {A A'} (R : heap -> A -> A' -> Prop) b (m : H A) (p p' : M A') h n :
  p n = p' n -> agrees b R m p h n -> agrees b R m p' h n.
Proof. intros Hp [Hsub Hsame]. split; [exact Hsub|]. now rewrite <- Hp. Qed.

Lemma agrees_read {A A'} (S : A -> A' -> Prop) (R : heap -> A -> A' -> Prop)
    (f : heap -> outcome A) (o : outcome A') h n :
  same_outcome S (f h) o -> (forall a a', S a a' -> R h a a') ->
  agrees h R (read f) (lift o) h n.
Proof.
  intros Hsame HR. split; [reflexivity|]. unfold read, lift. cbn [snd].
  destruct Hsame as [a a' Ha|e|]; constructor. split; [reflexivity|auto].
Qed.

Lemma agrees_random rnd h n :
  agrees h (fun _ a a' => a = a') (random rnd) (Tree.random rnd) h n.
Proof. split; [reflexivity|]. cbn. constructor. split; reflexivity. Qed.

Lemma agrees_alloc {A'} (R : heap -> hvalue -> A' -> Prop) o (a' : A') (h : heap) n :
  (forall l, h !! l = None -> R (<[l := o]> h) (HRef l) a') ->
  agrees h R (alloc o) (ret a') h n.
Proof.
  intros HR. assert (Hfresh : h !! fresh (dom h) = None)
    by apply not_elem_of_dom, is_fresh.
  split.
  - cbn. now apply insert_subseteq.
  - cbn. constructor. split; [reflexivity|]. now apply HR.
Qed.

Lemma agrees_alloc_obj hps ps (h : heap) n :
  repr_props h hps ps ->
  agrees h repr (alloc (HObj hps)) (ret (VObj ps)) h n.
Proof.
  intros Hps. apply agrees_alloc. intros l Hl.
  econstructor; [apply lookup_insert_eq|].
  eapply repr_props_mono; [|exact Hps]. now apply insert_subseteq.
Qed.

Lemma agrees_alloc_arr hvs vs (h : heap) n :
  Forall2 (repr h) hvs vs ->
  agrees h repr (alloc (HArr hvs)) (ret (VArr vs)) h n.
Proof.
  intros Hvs. apply agrees_alloc. intros l Hl.
  econstructor; [apply lookup_insert_eq|].
  eapply Forall2_impl; [exact Hvs|]. intros hx x Hx.
  eapply repr_mono; [|exact Hx]. now apply insert_subseteq.
Qed.

(** Lifts what is known of the values to a larger store. *)
Ltac lift_to Hsub :=
  repeat match goal with
  | H : repr ?h _ _ |- _ =>
      match type of Hsub with h ⊆ _ => apply (repr_mono _ _ _ _ Hsub) in H end
  | H : repr_props ?h _ _ |- _ =>
      match type of Hsub with h ⊆ _ => apply (repr_props_mono _ _ _ _ Hsub) in H end
  | H : Forall2 (repr ?h) _ _ |- _ =>
      match type of Hsub with h ⊆ _ => apply (repr_all_mono _ _ _ _ Hsub) in H end
  end.

Tactic Notation "step" tactic3(tac) "as" ident(x) ident(x') ident(HR) :=
  eapply agrees_step;
  [solve [tac]|let Hsub := fresh "Hsub" in
    intros x x' ? ? Hsub HR; cbv beta in HR; lift_to Hsub; clear Hsub].

Tactic Notation "step" tactic3(tac) :=
  let x := fresh "x" in let x' := fresh "x'" in let HR := fresh "HR" in
  step tac as x x' HR.

Section Picks.

Variable net : network.
Variable rnd : source.

Lemma fetch_agrees filename h n :
  agrees h repr (fetch net filename) (Tree.fetch net filename) h n.
Proof.
  unfold fetch, Tree.fetch, lift, agrees.
  destruct (fetchData net filename) as [data| |]; cbn.
  - pose proof (load_repr data h) as Hrepr.
    pose proof (StoreFacts.load_extends data h) as Hext.
    destruct (load data h) as [d h1]. cbn in *.
    split; [exact Hext|]. constructor. split; [reflexivity|exact Hrepr].
  - split; [reflexivity|constructor].
  - split; [reflexivity|constructor].
Qed.

Lemma read_get_agrees h hv v k n :
  repr h hv v ->
  agrees h repr (read (fun h => hget h hv k)) (lift (get v k)) h n.
Proof.
  intros Hv. eapply agrees_read; [now apply (repr_get h)|]. intros ? ? Hr. exact Hr.
Qed.

Lemma read_get_at_agrees h hv v i n :
  repr h hv v ->
  agrees h repr (read (fun h => hget_at h hv i)) (lift (get_at v i)) h n.
Proof.
  intros Hv. eapply agrees_read; [now apply (repr_get_at h)|]. intros ? ? Hr. exact Hr.
Qed.

Lemma read_to_number_agrees h hv v n :
  repr h hv v ->
  agrees h (fun _ a a' => a = a') (read (fun _ => hto_number hv)) (lift (to_number v)) h n.
Proof.
  intros Hv. eapply agrees_read; [eapply repr_to_number; exact Hv|].
  intros ? ? Hr. exact Hr.
Qed.

Lemma read_to_string_agrees h hv v n :
  repr h hv v ->
  agrees h (fun _ a a' => a = a') (read (fun _ => hto_string hv)) (lift (to_string v)) h n.
Proof.
  intros Hv. eapply agrees_read; [eapply repr_to_string; exact Hv|].
  intros ? ? Hr. exact Hr.
Qed.

Lemma pick_index_agrees b hxs xs h n :
  repr b hxs xs -> b ⊆ h ->
  agrees h (fun _ i i' => i = i') (pick_index rnd hxs) (Tree.pick_index rnd xs) h n.
Proof.
  intros Hxs Hb. unfold pick_index, Tree.pick_index.
  eapply agrees_bind; [reflexivity|apply agrees_random|].
  intros r r' h1 n1 Hsub1 ->.
  eapply agrees_bind; [exact Hsub1| |].
  { eapply (agrees_read (repr b)); [|intros ? ? Hr; exact Hr].
    apply (repr_get b); [exact Hxs|etrans; eauto]. }
  intros len len' h2 n2 Hsub2 Hlen. cbv beta in Hlen.
  eapply agrees_bind; [etrans; eauto| |].
  { eapply (agrees_read eq); [|intros ? ? Hr; exact Hr].
    eapply repr_to_number. exact Hlen. }
  intros x x' h3 n3 Hsub3 ->.
  eapply agrees_base; [|apply agrees_ret; reflexivity].
  etrans; [exact Hsub1|]. etrans; eauto.
Qed.

(** A pick is represented where the pool is. *)
Lemma pick_agrees b hxs xs h n :
  repr b hxs xs -> b ⊆ h ->
  agrees h (fun _ a a' => repr b a a') (pick rnd hxs) (Tree.pick rnd xs) h n.
Proof.
  intros Hxs Hb. unfold pick, Tree.pick.
  eapply agrees_bind; [reflexivity|now apply (pick_index_agrees b)|].
  intros i i' h1 n1 Hsub1 ->.
  eapply agrees_base; [exact Hsub1|].
  eapply (agrees_read (repr b)); [|intros ? ? Hr; exact Hr].
  apply (repr_get_at b); [exact Hxs|etrans; eauto].
Qed.

End Picks.

(** [found || []], a [let] of the run over trees. *)
Tactic Notation "step_or_empty" tactic3(tac) "as" ident(x) ident(x') ident(HR) :=
  match goal with
  | |- agrees _ _ _ ?p _ _ =>
      match p with
      | context [or_else ?a ?b] =>
          let p' := eval pattern (or_else a b) in p in
          match p' with
          | ?g _ => eapply (agrees_step_let _ _ _ (or_else a b) _ g)
          end
      end
  end;
  [solve [tac]|let Hsub := fresh "Hsub" in
    intros x x' ? ? Hsub HR; cbv beta in HR; lift_to Hsub; clear Hsub].

Lemma bind_lift_and_then {A B C} (o : outcome A) (f : A -> outcome B)
    (k : B -> M C) n :
  bind (lift (and_then o f)) k n = bind (lift o) (fun a => bind (lift (f a)) k) n.
Proof. now destruct o. Qed.

Lemma lift_and_then {A B} (o : outcome A) (f : A -> outcome B) n :
  bind (lift o) (fun a => lift (f a)) n = lift (and_then o f) n.
Proof. now destruct o. Qed.

Ltac props :=
  repeat first
    [apply Forall2_nil_2
    |apply Forall2_cons_2;
     [split; [reflexivity|cbn [snd]; try constructor; try assumption]|]].

Section Lookups.

Variable net : network.
Variable rnd : source.

Lemma or_empty_agrees found found' h n :
  repr h found found' ->
  agrees h repr (or_empty found) (ret (or_else found' (VArr []))) h n.
Proof.
  intros Hf. unfold or_empty, or_else. rewrite (repr_truthy _ _ _ Hf).
  destruct (truthy found').
  - now apply agrees_ret.
  - apply agrees_alloc_arr. constructor.
Qed.

Lemma spread_new_agrees hps ps hv v h n :
  repr_props h hps ps -> repr h hv v ->
  agrees h repr (spread_new hps hv) (ret (VObj (spread_into ps v))) h n.
Proof.
  intros Hps Hv. unfold spread_new.
  eapply (agrees_step (fun h a a' => repr_props h a a') repr _
            (lift (Return (entries v))) _
            (fun c => ret (VObj (fold_left (fun acc kv => define_prop kv.1 kv.2 acc)
                                   c ps)))).
  - eapply (agrees_read (repr_props h)); [|intros ? ? Hr; exact Hr].
    constructor. now apply repr_entries.
  - intros copied copied' h1 n1 Hsub Hc. lift_to Hsub.
    apply agrees_alloc_obj. unfold spread_into. now apply related_fold_define.
Qed.

Lemma read_nested_agrees h hv v top k1 k2 n :
  repr h hv v ->
  agrees h repr (read (fun h => hnested h hv top k1 k2)) (lift (nested v top k1 k2)) h n.
Proof.
  intros Hv. eapply agrees_read; [now apply (repr_nested h)|]. intros ? ? Hr. exact Hr.
Qed.

Lemma generate_npc_name_agrees race gender h n :
  agrees h repr (generate_npc_name net rnd race gender)
    (Tree.generate_npc_name net rnd race gender) h n.
Proof.
  unfold generate_npc_name, Tree.generate_npc_name.
  step (apply fetch_agrees) as data data' Hdata.
  step (now apply read_nested_agrees) as found found' Hfound.
  step_or_empty (now apply or_empty_agrees) as names names' Hnames.
  step (now apply read_get_agrees) as len len' Hlen.
  rewrite (repr_strict_eq_number _ _ _ _ Hlen).
  destruct (strict_eq_number len' (of_Z 0)).
  - apply agrees_alloc_obj. props.
  - step (eapply pick_agrees; [eassumption|reflexivity]) as name name' Hname.
    apply agrees_alloc_obj. props.
Qed.

Lemma generate_encounter_agrees level level' environment difficulty h n :
  repr h level level' ->
  agrees h repr (generate_encounter net rnd level environment difficulty)
    (Tree.generate_encounter net rnd level' environment difficulty) h n.
Proof.
  intros Hlevel. unfold generate_encounter, Tree.generate_encounter.
  cbv zeta.
  step (apply fetch_agrees) as data data' Hdata.
  step (now apply read_nested_agrees) as found found' Hfound.
  step_or_empty (now apply or_empty_agrees) as encounters encounters' Hencounters.
  step (now apply read_get_agrees) as len len' Hlen.
  rewrite (repr_strict_eq_number _ _ _ _ Hlen).
  destruct (strict_eq_number len' (of_Z 0)).
  - apply agrees_alloc_obj. props.
  - step (eapply pick_agrees; [eassumption|reflexivity]) as encounter encounter' Hencounter.
    apply spread_new_agrees; [props|assumption].
Qed.

Lemma read_get2_agrees h hv v k1 k2 n :
  repr h hv v ->
  agrees h repr
    (read (fun h => (table <- hget h hv k1 ;; hget h table k2)%outcome))
    (lift (table <- get v k1 ;; get table k2)%outcome) h n.
Proof.
  intros Hv. eapply agrees_read; [|intros ? ? Hr; exact Hr].
  eapply same_outcome_and_then; [now apply (repr_get h)|].
  intros t t' Ht. now apply (repr_get h).
Qed.

Lemma generate_plot_hook_agrees theme level level' h n :
  repr h level level' ->
  agrees h repr (generate_plot_hook net rnd theme level)
    (Tree.generate_plot_hook net rnd theme level') h n.
Proof.
  intros Hlevel. unfold generate_plot_hook, Tree.generate_plot_hook.
  step (apply fetch_agrees) as data data' Hdata.
  eapply agrees_ext; [apply bind_lift_and_then|].
  step (now apply read_get2_agrees) as found found' Hfound.
  step_or_empty (now apply or_empty_agrees) as hooks hooks' Hhooks.
  step (now apply read_get_agrees) as len len' Hlen.
  rewrite (repr_strict_eq_number _ _ _ _ Hlen).
  destruct (strict_eq_number len' (of_Z 0)).
  - apply agrees_alloc_obj. props.
  - step (eapply pick_agrees; [eassumption|reflexivity]) as hook hook' Hhook.
    apply agrees_alloc_obj. props.
Qed.

Lemma generate_location_name_agrees type h n :
  agrees h repr (generate_location_name net rnd type)
    (Tree.generate_location_name net rnd type) h n.
Proof.
  unfold generate_location_name, Tree.generate_location_name.
  step (apply fetch_agrees) as data data' Hdata.
  eapply agrees_ext; [apply bind_lift_and_then|].
  step (now apply read_get2_agrees) as location location' Hlocation.
  rewrite (repr_truthy _ _ _ Hlocation).
  destruct (truthy location'); cbn [negb].
  - step (now apply read_get_agrees) as prefixes prefixes' Hprefixes.
    step (eapply pick_agrees; [eassumption|reflexivity]) as prefix prefix' Hprefix.
    step (now apply read_get_agrees) as suffixes suffixes' Hsuffixes.
    step (eapply pick_agrees; [eassumption|reflexivity]) as suffix suffix' Hsuffix.
    step (now apply read_to_string_agrees) as p p' Hp. subst p'.
    step (now apply read_to_string_agrees) as q q' Hq. subst q'.
    apply agrees_alloc_obj. props.
  - apply agrees_alloc_obj. props.
Qed.

Lemma repr_of_option h season : repr h (hof_option season) (of_option season).
Proof. destruct season; constructor. Qed.

Lemma read_test_agrees h data data' climate season n :
  repr h data data' ->
  agrees h repr
    (read (fun h => if htruthy (hof_option season)
                    then hnested h data "weather" climate (default "" season)
                    else Return (hof_option season)))
    (lift (if truthy (of_option season)
           then nested data' "weather" climate (default "" season)
           else Return (of_option season))) h n.
Proof.
  intros Hdata. eapply (agrees_read (repr h)); [|intros ? ? Hr; exact Hr].
  rewrite (repr_truthy h _ _ (repr_of_option h season)).
  destruct (truthy (of_option season));
    [now apply (repr_nested h)|constructor; apply repr_of_option].
Qed.

Lemma read_options_agrees h data data' climate season (test : bool) n :
  repr h data data' ->
  agrees h repr
    (if test then
       read (fun h => (w <- hget h data "weather" ;;
                       byClimate <- hget h w climate ;;
                       hget h byClimate (default "" season))%outcome)
     else
       (any <- read (fun h => hnested h data "weather" climate "any") ;;
        or_empty any)%store)
    (lift (if test then
             (w <- get data' "weather" ;;
              byClimate <- get w climate ;;
              get byClimate (default "" season))%outcome
           else
             (any <- nested data' "weather" climate "any" ;;
              Return (or_else any (VArr [])))%outcome)) h n.
Proof.
  intros Hdata. destruct test.
  - eapply (agrees_read (repr h)); [|intros ? ? Hr; exact Hr].
    eapply same_outcome_and_then; [now apply (repr_get h)|].
    intros w w' Hw.
    eapply same_outcome_and_then; [now apply (repr_get h)|].
    intros c c' Hc. now apply (repr_get h).
  - eapply agrees_ext; [apply lift_and_then|].
    step (now apply read_nested_agrees) as any any' Hany.
    now apply or_empty_agrees.
Qed.

Lemma generate_weather_agrees climate season h n :
  agrees h repr (generate_weather net rnd climate season)
    (Tree.generate_weather net rnd climate season) h n.
Proof.
  unfold generate_weather, Tree.generate_weather.
  step (apply fetch_agrees) as data data' Hdata.
  step (apply read_test_agrees; assumption) as test test' Htest.
  rewrite (repr_truthy _ _ _ Htest).
  step (apply read_options_agrees; assumption) as weatherOptions weatherOptions' Hoptions.
  step (now apply read_get_agrees) as len len' Hlen.
  rewrite (repr_strict_eq_number _ _ _ _ Hlen).
  destruct (strict_eq_number len' (of_Z 0)).
  - apply agrees_alloc_obj. props.
  - step (eapply pick_agrees; [eassumption|reflexivity]) as description description' Hdescription.
    apply agrees_alloc_obj. props. apply repr_of_option.
Qed.

End Lookups.

Section Treasure.

Variable net : network.
Variable rnd : source.

Lemma roll_agrees diceSize remaining : forall total h n,
  agrees h (fun _ a a' => a = a') (roll rnd diceSize remaining total)
    (Tree.roll rnd diceSize remaining total) h n.
Proof.
  induction remaining as [|k IH]; intros total h n; cbn [roll Tree.roll].
  - apply agrees_ret. reflexivity.
  - step (apply agrees_random) as r r' Hr. subst r'. apply IH.
Qed.

Lemma repr_strings h (xs : list string) :
  Forall2 (repr h) (HStr <$> xs) (VStr <$> xs).
Proof. induction xs; cbn; constructor; [constructor|assumption]. Qed.

Lemma split_d_agrees h dice dice' n :
  repr h dice dice' ->
  agrees h (fun h r l => repr h r (VArr l)) (split_d dice)
    (lift (Tree.split_d dice')) h n.
Proof.
  intros Hd. destruct Hd; cbn [split_d Tree.split_d];
    try (eapply (agrees_read (fun _ _ => False)); [constructor|intros ? ? []]).
  apply (agrees_alloc (fun h r l => repr h r (VArr l))). intros l Hl.
  econstructor; [apply lookup_insert_eq|].
  apply repr_strings.
Qed.

Lemma read_parse_agrees h rolls l (i : nat) n :
  repr h rolls (VArr l) ->
  agrees h (fun _ a a' => a = a')
    (read (fun h => (x <- hget_at h rolls (of_Z (Z.of_nat i)) ;; hparseInt x)%outcome))
    (lift (parseInt (default VUndefined (l !! i)))) h n.
Proof.
  intros Hr. eapply (agrees_read eq); [|intros ? ? Hx; exact Hx].
  change (parseInt (default VUndefined (l !! i)))
    with (and_then (Return (default VUndefined (l !! i))) parseInt).
  eapply same_outcome_and_then; [|intros x x' Hx; eapply repr_parseInt; exact Hx].
  pose proof (repr_get_at h h rolls (VArr l) (of_Z (Z.of_nat i)) Hr) as Hget.
  unfold get_at in Hget. rewrite to_Z_of_Z in Hget.
  replace (0 <=? Z.of_nat i)%Z with true in Hget by (symmetry; apply Z.leb_le; lia).
  rewrite Nat2Z.id in Hget. now apply Hget.
Qed.

Lemma coin_value_agrees h diceData diceData' n :
  repr h diceData diceData' ->
  agrees h (fun _ a a' => a = a') (coin_value rnd diceData)
    (Tree.coin_value rnd diceData') h n.
Proof.
  intros Hd. unfold coin_value, Tree.coin_value.
  step (now apply read_get_agrees) as dice dice' Hdice.
  step (now apply split_d_agrees) as rolls rolls' Hrolls.
  step (now apply (read_parse_agrees _ _ _ 0)) as numDice numDice' HnumDice.
  subst numDice'.
  step (now apply (read_parse_agrees _ _ _ 1)) as diceSize diceSize' HdiceSize.
  subst diceSize'.
  step (apply roll_agrees) as total total' Htotal. subst total'.
  step (now apply read_get_agrees) as multiplier multiplier' Hmultiplier.
  step (now apply read_to_number_agrees) as m m' Hm. subst m'.
  apply agrees_ret. reflexivity.
Qed.

(** The coin loop writes to the one cell [lc], which [b] does not have. *)
Lemma generate_coins_agrees b lc : forall htodo todo hcoins coins h n,
  repr_props b htodo todo -> b ⊆ h -> b !! lc = None ->
  h !! lc = Some (HObj hcoins) -> repr_props b hcoins coins ->
  agrees b
    (fun h' _ coins' => exists hc, h' !! lc = Some (HObj hc) /\ repr_props b hc coins')
    (generate_coins rnd htodo (HRef lc)) (Tree.generate_coins rnd todo coins) h n.
Proof.
  intros htodo todo hcoins coins h n Htodo. revert hcoins coins h n.
  induction Htodo as [|[hk hd] [k d] htodo todo [Hk Hd] Hrest IH];
    intros hcoins coins h n Hb Hlc Hh Hcoins;
    cbn [generate_coins Tree.generate_coins].
  - eapply agrees_base; [exact Hb|]. apply agrees_ret. eauto.
  - cbn [fst snd] in *. subst hk. destruct (negb (String.eqb k "items")).
    + eapply agrees_bind; [exact Hb| |].
      { apply (coin_value_agrees h). eapply repr_mono; eauto. }
      intros amount amount' h1 n1 Hsub1 ->.
      assert (Hh1 : h1 !! lc = Some (HObj hcoins)) by (eapply lookup_weaken; eauto).
      unfold agrees, hbind, assign. rewrite Hh1. cbn [fst snd].
      eapply IH; [ |exact Hlc|apply lookup_insert_eq|].
      * apply insert_subseteq_r; [exact Hlc|]. etrans; eauto.
      * apply related_assign; [exact Hcoins|constructor].
    + now apply (IH hcoins).
Qed.

(** The item loop writes to the one cell [li], which [b] does not have. *)
Lemma generate_items_agrees b li pool pool' : forall remaining hitems items h n,
  repr b pool pool' -> b ⊆ h -> b !! li = None ->
  h !! li = Some (HArr hitems) -> Forall2 (repr b) hitems items ->
  agrees b
    (fun h' _ items' => exists hi, h' !! li = Some (HArr hi) /\ Forall2 (repr b) hi items')
    (generate_items rnd pool (HRef li) remaining)
    (Tree.generate_items rnd pool' remaining items) h n.
Proof.
  induction remaining as [|k IH]; intros hitems items h n Hpool Hb Hli Hh Hitems;
    cbn [generate_items Tree.generate_items].
  - eapply agrees_base; [exact Hb|]. apply agrees_ret. eauto.
  - eapply agrees_bind; [exact Hb|now apply (pick_agrees rnd b)|].
    intros item item' h1 n1 Hsub1 Hitem. cbv beta in Hitem.
    assert (Hh1 : h1 !! li = Some (HArr hitems)) by (eapply lookup_weaken; eauto).
    unfold agrees, hbind, push. rewrite Hh1. cbn [fst snd].
    eapply IH; [exact Hpool| |exact Hli|apply lookup_insert_eq|].
    + apply insert_subseteq_r; [exact Hli|]. etrans; eauto.
    + apply Forall2_app; [exact Hitems|]. constructor; [exact Hitem|constructor].
Qed.

(** A literal whose cell the run over trees has no name for. *)
Lemma agrees_alloc_left {B B'} (R : heap -> B -> B' -> Prop) b o
    (f : hvalue -> H B) (p : M B') (h : heap) n :
  (forall l, h !! l = None -> agrees b R (f (HRef l)) p (<[l := o]> h) n) ->
  agrees b R (hbind (alloc o) f) p h n.
Proof.
  intros Hf. unfold agrees, hbind, alloc. cbn.
  apply Hf, not_elem_of_dom, is_fresh.
Qed.

Lemma coins_phase_agrees b lc treasureData treasureData' h n :
  repr b treasureData treasureData' -> b ⊆ h -> b !! lc = None ->
  h !! lc = Some (HObj []) ->
  agrees b
    (fun h' _ coins' => exists hc, h' !! lc = Some (HObj hc) /\ repr_props b hc coins')
    (if htruthy treasureData then
       (todo <- read (fun h => Return (hentries h treasureData)) ;;
        generate_coins rnd todo (HRef lc))%store
     else hret tt)
    (treasure_coins rnd treasureData') h n.
Proof.
  intros Htd Hb Hlc Hh. unfold treasure_coins. rewrite (repr_truthy _ _ _ Htd).
  destruct (truthy treasureData').
  - unfold agrees, hbind, read. cbn [fst snd].
    eapply generate_coins_agrees; [now apply repr_entries|exact Hb|exact Hlc|exact Hh|].
    constructor.
  - eapply agrees_base; [exact Hb|]. apply agrees_ret. exists []. split; [exact Hh|constructor].
Qed.

Lemma items_phase_agrees b li items items' cr type h n :
  repr b items items' -> b ⊆ h -> b !! li = None ->
  h !! li = Some (HArr []) ->
  agrees b
    (fun h' _ found => exists hi, h' !! li = Some (HArr hi) /\ Forall2 (repr b) hi found)
    (if String.eqb type "hoard" && Number.ge (Num cr) (of_Z 5) then
       (itemPool <- read (fun h => if Number.ge (Num cr) (of_Z 11)
                                   then hget h items "magic_major"
                                   else hget h items "magic_medium") ;;
        r <- random rnd ;;
        generate_items rnd itemPool (HRef li)
          (rounds (Number.add (Number.floor (Number.mul r (of_Z 3))) (of_Z 1))))%store
     else hret tt)
    (treasure_items rnd items' cr type) h n.
Proof.
  intros Hitems Hb Hli Hh. unfold treasure_items.
  destruct (String.eqb type "hoard" && Number.ge (Num cr) (of_Z 5)).
  - eapply agrees_bind; [exact Hb| |].
    { eapply (agrees_read (repr b)); [|intros ? ? Hr; exact Hr].
      destruct (Number.ge (Num cr) (of_Z 11)); now apply (repr_get b). }
    intros itemPool itemPool' h1 n1 Hsub1 Hpool. cbv beta in Hpool.
    eapply agrees_bind; [etrans; [exact Hb|exact Hsub1]|apply agrees_random|].
    intros r r' h2 n2 Hsub2 ->.
    eapply generate_items_agrees; [exact Hpool| |exact Hli| |constructor].
    + etrans; [exact Hb|]. etrans; eauto.
    + eapply lookup_weaken; [exact Hh|]. etrans; eauto.
  - eapply agrees_base; [exact Hb|]. apply agrees_ret. exists []. split; [exact Hh|constructor].
Qed.

Lemma read_get3_agrees h hv v k1 k2 k3 n :
  repr h hv v ->
  agrees h repr
    (read (fun h => (t <- hget h hv k1 ;; u <- hget h t k2 ;; hget h u k3)%outcome))
    (lift (t <- get v k1 ;; u <- get t k2 ;; get u k3)%outcome) h n.
Proof.
  intros Hv. eapply agrees_read; [|intros ? ? Hr; exact Hr].
  eapply same_outcome_and_then; [now apply (repr_get h)|].
  intros t t' Ht.
  eapply same_outcome_and_then; [now apply (repr_get h)|].
  intros u u' Hu. now apply (repr_get h).
Qed.

Lemma generate_treasure_agrees cr type h n :
  agrees h repr (generate_treasure net rnd cr type)
    (Tree.generate_treasure net rnd cr type) h n.
Proof.
  unfold generate_treasure, Tree.generate_treasure. cbv zeta.
  step (apply fetch_agrees) as data data' Hdata.
  step (now apply read_get3_agrees) as treasureData treasureData' Htd.
  step (now apply read_get2_agrees) as items items' Hitems.
  clear h n h0 h1 n0 n1. rename h2 into h. rename n2 into n.
  apply agrees_alloc_left. intros lc Hlc.
  eapply agrees_bind; [reflexivity| |].
  { apply (coins_phase_agrees h lc); [exact Htd| |exact Hlc|apply lookup_insert_eq].
    now apply insert_subseteq. }
  intros _ coins' h1 n1 Hsub1 (hc & Hhc & Hcoins).
  eapply agrees_base; [exact Hsub1|]. lift_to Hsub1. clear Hsub1 Hlc.
  apply agrees_alloc_left. intros li Hli.
  eapply agrees_bind; [reflexivity| |].
  { apply (items_phase_agrees h1 li); [exact Hitems| |exact Hli|apply lookup_insert_eq].
    now apply insert_subseteq. }
  intros _ found h2 n2 Hsub2 (hi & Hhi & Hfound).
  eapply agrees_base; [exact Hsub2|]. lift_to Hsub2.
  apply agrees_alloc_obj. props.
  - econstructor; [eapply lookup_weaken; [exact Hhc|exact Hsub2]|exact Hcoins].
  - econstructor; [exact Hhi|exact Hfound].
Qed.

End Treasure.

Section Load.

Lemma load_arr l h :
  load (VArr l) h
  = (HRef (fresh (dom (load_all l h).2)),
     <[fresh (dom (load_all l h).2) := HArr (load_all l h).1]> (load_all l h).2).
Proof.
  change (load (VArr l) h)
    with (let '(es, h1) := load_all l h in
          (HRef (fresh (dom h1)), <[fresh (dom h1) := HArr es]> h1)).
  now destruct (load_all l h).
Qed.

Lemma load_obj ps h :
  load (VObj ps) h
  = (HRef (fresh (dom (load_props ps h).2)),
     <[fresh (dom (load_props ps h).2) := HObj (load_props ps h).1]>
       (load_props ps h).2).
Proof.
  change (load (VObj ps) h)
    with (let '(hps, h1) := load_props ps h in
          (HRef (fresh (dom h1)), <[fresh (dom h1) := HObj hps]> h1)).
  now destruct (load_props ps h).
Qed.

Lemma load_all_extends l : forall h, h ⊆ (load_all l h).2.
Proof.
  induction l as [|x l IH]; intros h; cbn [load_all]; [reflexivity|].
  pose proof (StoreFacts.load_extends x h) as Hx.
  destruct (load x h) as [hx h1]. specialize (IH h1).
  destruct (load_all l h1) as [hr h2]. cbn [fst snd] in *. etrans; eauto.
Qed.

Lemma load_props_extends ps : forall h, h ⊆ (load_props ps h).2.
Proof.
  induction ps as [|[k x] ps IH]; intros h; cbn [load_props]; [reflexivity|].
  pose proof (StoreFacts.load_extends x h) as Hx.
  destruct (load x h) as [hx h1]. specialize (IH h1).
  destruct (load_props ps h1) as [hr h2]. cbn [fst snd] in *. etrans; eauto.
Qed.

Lemma fresh_born (h1 h : heap) o :
  h ⊆ h1 -> born h (<[fresh (dom h1) := o]> h1) (fresh (dom h1)).
Proof.
  intros Hsub. split; [|rewrite lookup_insert_eq; eauto].
  eapply lookup_weaken_None; [|exact Hsub]. apply not_elem_of_dom, is_fresh.
Qed.

Lemma born_weaken h h1 h2 r : born h h1 r -> h1 ⊆ h2 -> born h h2 r.
Proof.
  intros [Hnone [o Ho]] Hsub. split; [exact Hnone|].
  exists o. eapply lookup_weaken; eauto.
Qed.

Lemma born_later h h1 h2 r : born h1 h2 r -> h ⊆ h1 -> born h h2 r.
Proof.
  intros [Hnone Hsome] Hsub. split; [|exact Hsome].
  eapply lookup_weaken_None; eauto.
Qed.

Lemma born_apart h h1 h2 r : born h h1 r -> born h1 h2 r -> False.
Proof. intros [_ [o Ho]] [Hnone _]. congruence. Qed.

(** The cell of a loaded array or object is new. *)
Lemma load_fresh v h r : (load v h).1 = HRef r -> born h (load v h).2 r.
Proof.
  destruct v as [| | | | |l|ps]; try discriminate.
  - rewrite load_arr. cbn [fst snd]. intros [= <-].
    apply fresh_born, load_all_extends.
  - rewrite load_obj. cbn [fst snd]. intros [= <-].
    apply fresh_born, load_props_extends.
Qed.

Lemma insert_fresh_subseteq (h : heap) o : h ⊆ <[fresh (dom h) := o]> h.
Proof. apply insert_subseteq, not_elem_of_dom, is_fresh. Qed.

Lemma load_all_refs l : forall h,
  NoDup (refs (load_all l h).1)
  /\ forall r, r ∈ refs (load_all l h).1 -> born h (load_all l h).2 r.
Proof.
  induction l as [|x l IH]; intros h; cbn [load_all].
  - split; [constructor|]. intros r Hr. cbn in Hr. now apply elem_of_nil in Hr.
  - pose proof (load_fresh x h) as Hfresh.
    pose proof (StoreFacts.load_extends x h) as Hx.
    destruct (load x h) as [hx h1]. specialize (IH h1).
    pose proof (load_all_extends l h1) as Hl.
    destruct (load_all l h1) as [hr h2]. cbn [fst snd] in *.
    destruct IH as [Hnodup Hborn].
    assert (Hrest : forall r, r ∈ refs hr -> born h h2 r)
      by (intros r Hr; eapply born_later; eauto).
    destruct hx as [| | | | |r0]; cbn [refs omap]; try (split; assumption).
    change (omap _ hr) with (refs hr). split.
    + constructor; [|exact Hnodup]. intros Hin.
      eapply born_apart; [now apply Hfresh|now apply Hborn].
    + intros r [->|Hr]%elem_of_cons; [|now apply Hrest].
      eapply born_weaken; [now apply Hfresh|exact Hl].
Qed.

Lemma refs_hchars s : refs (hchars s) = [].
Proof. unfold hchars. now induction (String.list_ascii_of_string s). Qed.

(** The elements of a loaded array are new cells, no two the same. *)
Lemma load_elements v h :
  NoDup (element_refs (load v h).2 (load v h).1)
  /\ forall r, r ∈ element_refs (load v h).2 (load v h).1 -> born h (load v h).2 r.
Proof.
  assert (Hnil : forall P : loc -> Prop,
             NoDup (@nil loc) /\ forall r, r ∈ @nil loc -> P r).
  { intros P. split; [constructor|]. intros r Hr. now apply elem_of_nil in Hr. }
  destruct v as [| |b|n|s|l|ps]; unfold element_refs; try apply Hnil.
  - cbn. rewrite refs_hchars. apply Hnil.
  - rewrite load_arr. cbn [fst snd helements]. rewrite lookup_insert_eq.
    cbn [from_option id]. destruct (load_all_refs l h) as [Hnodup Hborn].
    split; [exact Hnodup|]. intros r Hr.
    eapply born_weaken; [now apply Hborn|apply insert_fresh_subseteq].
  - rewrite load_obj. cbn [fst snd helements]. rewrite lookup_insert_eq.
    apply Hnil.
Qed.

Lemma element_refs_weaken h h' v :
  h ⊆ h' -> (forall l, v = HRef l -> is_Some (h !! l)) ->
  element_refs h' v = element_refs h v.
Proof.
  intros Hsub Hv. unfold element_refs. f_equal. f_equal.
  destruct v as [| | | | |l]; try reflexivity. cbn.
  destruct (Hv l eq_refl) as [o Ho]. rewrite Ho.
  now rewrite (lookup_weaken _ _ _ _ Ho Hsub).
Qed.

Lemma flat_map_element_refs h h' (hps : list (string * hvalue)) :
  h ⊆ h' -> Forall (fun p => forall l, p.2 = HRef l -> is_Some (h !! l)) hps ->
  flat_map (fun p => element_refs h' p.2) hps
  = flat_map (fun p => element_refs h p.2) hps.
Proof.
  intros Hsub Hall. induction Hall as [|p hps Hp _ IH]; [reflexivity|].
  cbn [flat_map]. rewrite IH. f_equal. now apply element_refs_weaken.
Qed.

Lemma load_props_present ps : forall h,
  Forall (fun p => forall l, p.2 = HRef l -> is_Some ((load_props ps h).2 !! l))
    (load_props ps h).1.
Proof.
  induction ps as [|[k x] ps IH]; intros h; cbn [load_props]; [constructor|].
  pose proof (load_fresh x h) as Hfresh.
  destruct (load x h) as [hx h1]. specialize (IH h1).
  pose proof (load_props_extends ps h1) as Hps.
  destruct (load_props ps h1) as [hr h2]. cbn [fst snd] in *.
  constructor; [|exact IH]. cbn [snd]. intros l ->.
  destruct (Hfresh l eq_refl) as [_ [o Ho]]. exists o. eapply lookup_weaken; eauto.
Qed.

Lemma load_props_refs ps : forall h,
  NoDup (flat_map (fun p => element_refs (load_props ps h).2 p.2) (load_props ps h).1)
  /\ forall r,
       r ∈ flat_map (fun p => element_refs (load_props ps h).2 p.2) (load_props ps h).1 ->
       born h (load_props ps h).2 r.
Proof.
  induction ps as [|[k x] ps IH]; intros h; cbn [load_props].
  - split; [constructor|]. intros r Hr. now apply elem_of_nil in Hr.
  - pose proof (load_fresh x h) as Hfresh.
    pose proof (load_elements x h) as [Hnodup Hborn].
    pose proof (StoreFacts.load_extends x h) as Hx.
    destruct (load x h) as [hx h1]. specialize (IH h1).
    pose proof (load_props_extends ps h1) as Hps.
    destruct (load_props ps h1) as [hr h2]. cbn [fst snd flat_map] in *.
    destruct IH as [Hnodup' Hborn'].
    rewrite (element_refs_weaken h1 h2 hx Hps)
      by (intros l Hl; now destruct (Hfresh l Hl)).
    split.
    + apply NoDup_app. split; [exact Hnodup|]. split; [|exact Hnodup'].
      intros r Hr Hr'. exact (born_apart h h1 h2 r (Hborn r Hr) (Hborn' r Hr')).
    + intros r [Hr|Hr]%elem_of_app.
      * eapply born_weaken; [now apply Hborn|exact Hps].
      * eapply born_later; [now apply Hborn'|exact Hx].
Qed.

Lemma load_separated v h : separated (load v h).2 (load v h).1.
Proof.
  intros hps. destruct v as [| |b|n|s|l|ps]; try discriminate.
  - rewrite load_arr. cbn [fst snd hprops]. now rewrite lookup_insert_eq.
  - rewrite load_obj. cbn [fst snd hprops]. rewrite lookup_insert_eq.
    intros [= <-].
    rewrite (flat_map_element_refs (load_props ps h).2);
      [apply load_props_refs|apply insert_fresh_subseteq|apply load_props_present].
Qed.

End Load.

Section Pools.

Variable net : network.
Variable rnd : source.

Lemma fetch_separated filename h n :
  agrees h (fun h' a a' => repr h' a a' /\ separated h' a)
    (fetch net filename) (Tree.fetch net filename) h n.
Proof.
  unfold fetch, Tree.fetch, lift, agrees.
  destruct (fetchData net filename) as [data| |]; cbn.
  - pose proof (load_repr data h) as Hrepr.
    pose proof (StoreFacts.load_extends data h) as Hext.
    pose proof (load_separated data h) as Hsep.
    destruct (load data h) as [d h1]. cbn in *.
    split; [exact Hext|]. constructor. split; [reflexivity|]. split; assumption.
  - split; [reflexivity|constructor].
  - split; [reflexivity|constructor].
Qed.

(** A read leaves the store as it is. *)
Lemma agrees_read_bind {A A' B B'} (S : A -> A' -> Prop) (R : heap -> B -> B' -> Prop)
    b (f : heap -> outcome A) (o : outcome A') (k : A -> H B) (k' : A' -> M B') h n :
  b ⊆ h ->
  same_outcome S (f h) o ->
  (forall a a', f h = Return a -> S a a' -> agrees b R (k a) (k' a') h n) ->
  agrees b R (hbind (read f) k) (bind (lift o) k') h n.
Proof.
  intros Hb Hsame Hk. unfold agrees, hbind, read, bind, lift.
  destruct Hsame as [a a' Ha|e|]; cbn [fst snd];
    [|split; [exact Hb|constructor]..].
  now apply Hk.
Qed.

(** Where a pool of the table was read from. *)
Lemma pool_located h data k a :
  array_index k = None ->
  (v <- hget h data k ;; hiterate h v)%outcome = Return a ->
  exists ps x, hprops h data = Some ps /\ own_prop k ps = Some x
               /\ helements h x = Some a.
Proof.
  intros Hk. unfold hget, hiterate, and_then.
  assert (Hleaf : forall x : option (list hvalue),
            match (if String.eqb k "length"
                   then Return (match x with
                                | Some l => HNum (of_nat (length l))
                                | None => HUndefined
                                end)
                   else if String.eqb k "NaN" then Return HUndefined
                        else match array_index k with
                             | Some i => Return (default HUndefined (default [] x !! i))
                             | None => Unmodelled
                             end) with
            | Return v => match helements h v with
                          | Some l => Return l
                          | None => Throw TypeError
                          end
            | Throw e => Throw e
            | Unmodelled => Unmodelled
            end = Return a -> False).
  { intros x. rewrite Hk. destruct (String.eqb k "length"); [now destruct x|].
    now destruct (String.eqb k "NaN"). }
  destruct data as [| |b|m|s|l]; try discriminate;
    try (intros Hr; exfalso; exact (Hleaf _ Hr)).
  cbn [dangling hprops]. case_bool_decide as Hl; [discriminate|].
  destruct (h !! l) as [[es|ps]|] eqn:Hcell; [| |congruence].
  - intros Hr. exfalso. cbn [helements] in Hr. rewrite Hcell in Hr.
    exact (Hleaf _ Hr).
  - destruct (own_prop k ps) as [x|] eqn:Hx.
    + destruct (helements h x) as [es|] eqn:Hes; [|discriminate].
      intros [= <-]. eauto.
    + destruct (inherited k); discriminate.
Qed.

Lemma own_prop_position {V} k (ps : list (string * V)) x :
  own_prop k ps = Some x -> exists i, ps !! i = Some (k, x).
Proof.
  induction ps as [|[k' v] ps IH]; cbn; [discriminate|].
  destruct (String.eqb_spec k' k) as [->|Hne].
  - intros [= <-]. now exists 0%nat.
  - intros Hx. destruct (IH Hx) as [i Hi]. now exists (Datatypes.S i).
Qed.

Lemma flat_map_apart {A B} (g : A -> list B) l i j x y r :
  NoDup (flat_map g l) -> l !! i = Some x -> l !! j = Some y -> i <> j ->
  r ∈ g x -> r ∈ g y -> False.
Proof.
  revert i j. induction l as [|z l IH]; intros i j Hnodup Hi Hj Hne Hx Hy;
    [discriminate|].
  cbn [flat_map] in Hnodup. apply NoDup_app in Hnodup as (Hz & Hzl & Hl).
  assert (Hin : forall k w, l !! k = Some w -> r ∈ g w -> r ∈ flat_map g l).
  { intros k w Hk Hw. apply list_elem_of_In, in_flat_map. exists w.
    split; [|now apply list_elem_of_In].
    apply list_elem_of_In. eapply list_elem_of_lookup_2; eauto. }
  destruct i as [|i], j as [|j]; cbn in Hi, Hj.
  - congruence.
  - injection Hi as ->. exact (Hzl r Hx (Hin j y Hj Hy)).
  - injection Hj as ->. exact (Hzl r Hy (Hin i x Hi Hx)).
  - eapply (IH i j); eauto.
Qed.

Lemma flat_map_NoDup_at {A B} (g : A -> list B) l i x :
  NoDup (flat_map g l) -> l !! i = Some x -> NoDup (g x).
Proof.
  revert i. induction l as [|z l IH]; intros i Hnodup Hi; [discriminate|].
  cbn [flat_map] in Hnodup. apply NoDup_app in Hnodup as (Hz & _ & Hl).
  destruct i as [|i]; cbn in Hi; [now injection Hi as ->|eauto].
Qed.

Lemma refs_app l k : refs (l ++ k) = refs l ++ refs k.
Proof. apply omap_app. Qed.

Lemma refs_distinct hall : NoDup (refs hall) -> distinct hall.
Proof.
  induction hall as [|e hall IH]; intros Hnodup i j l Hi Hj; [discriminate|].
  assert (Hin : forall k, hall !! k = Some (HRef l) -> l ∈ refs hall).
  { intros k Hk. apply list_elem_of_omap. exists (HRef l).
    split; [eapply list_elem_of_lookup_2; eauto|reflexivity]. }
  assert (Hrest : NoDup (refs hall)).
  { destruct e; cbn in Hnodup; try assumption. now apply NoDup_cons in Hnodup. }
  destruct i as [|i], j as [|j]; cbn in Hi, Hj.
  - reflexivity.
  - injection Hi as ->. cbn in Hnodup. apply NoDup_cons in Hnodup as [Hnot _].
    destruct Hnot. eauto.
  - injection Hj as ->. cbn in Hnodup. apply NoDup_cons in Hnodup as [Hnot _].
    destruct Hnot. eauto.
  - f_equal. eapply IH; eauto.
Qed.

Lemma pool_refs h data k a :
  array_index k = None ->
  (v <- hget h data k ;; hiterate h v)%outcome = Return a ->
  exists ps i x, hprops h data = Some ps /\ ps !! i = Some (k, x)
                 /\ element_refs h x = refs a.
Proof.
  intros Hk Hrun. destruct (pool_located h data k a Hk Hrun) as (ps & x & Hps & Hx & Ha).
  destruct (own_prop_position k ps x Hx) as [i Hi].
  exists ps, i, x. split; [exact Hps|]. split; [exact Hi|].
  unfold element_refs. now rewrite Ha.
Qed.

(** The five pools of a loaded table share no element. *)
Lemma pools_distinct h data traits ideals bonds flaws quirks :
  separated h data ->
  (v <- hget h data "traits" ;; hiterate h v)%outcome = Return traits ->
  (v <- hget h data "ideals" ;; hiterate h v)%outcome = Return ideals ->
  (v <- hget h data "bonds" ;; hiterate h v)%outcome = Return bonds ->
  (v <- hget h data "flaws" ;; hiterate h v)%outcome = Return flaws ->
  (v <- hget h data "quirks" ;; hiterate h v)%outcome = Return quirks ->
  distinct (traits ++ ideals ++ bonds ++ flaws ++ quirks).
Proof.
  intros Hsep H1 H2 H3 H4 H5.
  apply pool_refs in H1 as (ps & i1 & x1 & Hps & Hi1 & Hr1); [|reflexivity].
  apply pool_refs in H2 as (ps2 & i2 & x2 & Hps2 & Hi2 & Hr2); [|reflexivity].
  apply pool_refs in H3 as (ps3 & i3 & x3 & Hps3 & Hi3 & Hr3); [|reflexivity].
  apply pool_refs in H4 as (ps4 & i4 & x4 & Hps4 & Hi4 & Hr4); [|reflexivity].
  apply pool_refs in H5 as (ps5 & i5 & x5 & Hps5 & Hi5 & Hr5); [|reflexivity].
  assert (ps2 = ps) as -> by congruence. assert (ps3 = ps) as -> by congruence.
  assert (ps4 = ps) as -> by congruence. assert (ps5 = ps) as -> by congruence.
  specialize (Hsep ps Hps).
  set (g := fun p : string * hvalue => element_refs h p.2) in Hsep.
  assert (Hat : forall i k x a, ps !! i = Some (k, x) -> element_refs h x = refs a ->
                                NoDup (refs a)).
  { intros i k x a Hi <-. exact (flat_map_NoDup_at g ps i (k, x) Hsep Hi). }
  assert (Hapart : forall i j k k' x y a c r,
             ps !! i = Some (k, x) -> ps !! j = Some (k', y) -> k <> k' ->
             element_refs h x = refs a -> element_refs h y = refs c ->
             r ∈ refs a -> r ∈ refs c -> False).
  { intros i j k k' x y a c r Hi Hj Hne <- <- Ha Hc.
    apply (flat_map_apart g ps i j (k, x) (k', y) r Hsep Hi Hj); [|exact Ha|exact Hc].
    intros ->. congruence. }
  pose proof (Hat _ _ _ _ Hi1 Hr1) as N1. pose proof (Hat _ _ _ _ Hi2 Hr2) as N2.
  pose proof (Hat _ _ _ _ Hi3 Hr3) as N3. pose proof (Hat _ _ _ _ Hi4 Hr4) as N4.
  pose proof (Hat _ _ _ _ Hi5 Hr5) as N5.
  apply refs_distinct. rewrite !refs_app.
  repeat (apply NoDup_app; split; [assumption|split]); [..|assumption];
    intros r Hr Hr';
    repeat match goal with
           | H : _ ∈ _ ++ _ |- _ => apply elem_of_app in H as [H|H]
           end;
    (eapply (fun i j k k' x y Hi Hj Hne Ha Hc =>
               Hapart i j k k' x y _ _ r Hi Hj Hne Ha Hc Hr Hr');
     [| | |eassumption|eassumption]; [eassumption|eassumption|discriminate]).
Qed.

End Pools.

Section Personality.

Variable net : network.
Variable rnd : source.

Lemma bind_pair {A B C} (m : M A) (f : A -> M B) (g : A * B -> M C) n :
  bind (bind m (fun i => bind (f i) (fun t => ret (i, t)))) g n
  = bind m (fun i => bind (f i) (fun t => g (i, t))) n.
Proof.
  unfold bind, ret. destruct (m n) as [[i n1]| |]; [|reflexivity..].
  destruct (f i n1) as [[t n2]| |]; reflexivity.
Qed.

Lemma to_Z_eq i j z : Number.to_Z i = Some z -> Number.to_Z j = Some z -> Number.eq i j = true.
Proof.
  destruct i as [|x], j as [|y]; cbn; try discriminate.
  destruct (Qeq_bool x (inject_Z (Qfloor x))) eqn:Hx; [|discriminate].
  destruct (Qeq_bool y (inject_Z (Qfloor y))) eqn:Hy; [|discriminate].
  intros [= <-] [= Hz]. apply Qeq_bool_iff in Hx, Hy. apply Qeq_bool_iff.
  rewrite Hx, Hy, Hz. reflexivity.
Qed.

Lemma eq_to_Z i j zi zj :
  Number.eq i j = true -> Number.to_Z i = Some zi -> Number.to_Z j = Some zj -> zi = zj.
Proof.
  destruct i as [|x], j as [|y]; cbn; try discriminate.
  intros Hxy. apply Qeq_bool_iff in Hxy.
  destruct (Qeq_bool x (inject_Z (Qfloor x))); [|discriminate].
  destruct (Qeq_bool y (inject_Z (Qfloor y))); [|discriminate].
  intros [= <-] [= <-]. now rewrite Hxy.
Qed.

(** On what the two runs hold of the pool, the two comparisons agree. *)
Lemma same_value_zero_agrees b hall hs s i ht t j :
  distinct hall ->
  repr b hs s -> tagged hall hs i ->
  repr b ht t -> tagged hall ht j ->
  hsame_value_zero hs ht = same_value_zero (i, s) (j, t).
Proof.
  intros Hdistinct Hs Hi Ht Hj.
  destruct Hs as [| |x|x|x|l1 hvs1 vs1 Hl1 _|l1 hps1 ps1 Hl1 _],
           Ht as [| |y|y|y|l2 hvs2 vs2 Hl2 _|l2 hps2 ps2 Hl2 _];
    try reflexivity; unfold same_value_zero; cbn [hsame_value_zero fst snd].
  all: try (destruct (Pos.eqb_spec l1 l2) as [->|Hne]; [congruence|reflexivity]).
  all: destruct (Hi l1 eq_refl) as (zi & Hzi & Hposi & Hati),
                (Hj l2 eq_refl) as (zj & Hzj & Hposj & Hatj).
  all: destruct (Pos.eqb_spec l1 l2) as [->|Hne].
  all: try (symmetry; eapply to_Z_eq; [exact Hzi|];
            rewrite Hzj; f_equal;
            pose proof (Hdistinct _ _ _ Hati Hatj); lia).
  all: symmetry; apply not_true_is_false; intros Heq;
       pose proof (eq_to_Z _ _ _ _ Heq Hzi Hzj) as ->; congruence.
Qed.

Lemma includes_agrees b hall hsel sel ht t j :
  distinct hall -> selected_agree b hall hsel sel ->
  repr b ht t -> tagged hall ht j ->
  existsb (fun s => hsame_value_zero s ht) hsel = Tree.includes sel (j, t).
Proof.
  intros Hdistinct Hsel Ht Hj. unfold Tree.includes.
  induction Hsel as [|hs [i s] hsel sel [Hs Hi] _ IH]; [reflexivity|].
  cbn [existsb fst snd] in *. rewrite IH. f_equal.
  now apply (same_value_zero_agrees b hall).
Qed.

Lemma selected_repr b hall hsel sel :
  selected_agree b hall hsel sel -> Forall2 (repr b) hsel sel.*2.
Proof.
  intros Hsel. induction Hsel as [|hs [i s] ? ? [Hs _] _ IHs]; cbn;
    constructor; assumption.
Qed.

(** A pick from the pool, with the index it was read at. *)
Lemma pick_tagged b la hall all h n :
  b !! la = Some (HArr hall) -> Forall2 (repr b) hall all -> b ⊆ h ->
  agrees h (fun _ a (a' : number * value) => repr b a a'.2 /\ tagged hall a a'.1)
    (pick rnd (HRef la))
    (i <- Tree.pick_index rnd (VArr all) ;;
     t <- lift (get_at (VArr all) i) ;;
     ret (i, t))%tool h n.
Proof.
  intros Hla Hall Hb. unfold pick.
  eapply agrees_bind; [reflexivity| |].
  { apply (pick_index_agrees rnd b); [econstructor; eauto|exact Hb]. }
  intros i i' h1 n1 Hsub1 ->.
  assert (Hh1 : h1 !! la = Some (HArr hall))
    by (eapply lookup_weaken; [exact Hla|etrans; eauto]).
  unfold agrees, read, bind, lift, ret, hget_at, get_at, dangling, hprops, helements.
  rewrite Hh1. rewrite bool_decide_eq_false_2 by discriminate.
  cbn [fst snd elements from_option id].
  split; [exact Hsub1|].
  destruct (Number.to_Z i') as [z|] eqn:Hz;
    [destruct (Z.leb_spec 0 z) as [Hpos|Hneg]|];
    constructor; (split; [reflexivity|]); cbn [fst snd];
    try (split; [constructor|intros ? [=]]).
  split; [now apply lookup_repr|].
  intros l Hl. exists z. split; [exact Hz|]. split; [exact Hpos|].
  destruct (hall !! Z.to_nat z) as [x|]; cbn in Hl; [now subst|discriminate].
Qed.

(** The selection loop writes to the one cell [ls], which [b] does not
    have. *)
Lemma select_traits_agrees b la ls hall all :
  b !! la = Some (HArr hall) -> Forall2 (repr b) hall all ->
  b !! ls = None -> distinct hall ->
  forall remaining hsel sel h n,
    b ⊆ h -> h !! ls = Some (HArr hsel) -> selected_agree b hall hsel sel ->
    agrees b
      (fun h' _ sel' =>
         exists hs, h' !! ls = Some (HArr hs) /\ Forall2 (repr b) hs sel'.*2)
      (select_traits rnd (HRef la) (HRef ls) remaining)
      (Tree.select_traits rnd all remaining sel) h n.
Proof.
  intros Hla Hall Hls Hdistinct.
  induction remaining as [|k IH]; intros hsel sel h n Hb Hh Hsel;
    cbn [select_traits Tree.select_traits].
  - eapply agrees_base; [exact Hb|]. apply agrees_ret.
    exists hsel. split; [exact Hh|]. now apply (selected_repr b hall).
  - eapply agrees_ext.
    { apply (bind_pair _ _
               (fun it => Tree.select_traits rnd all k
                            (if negb (Tree.includes sel it)
                             then sel ++ [ it ] else sel))). }
    eapply agrees_bind; [exact Hb|now apply (pick_tagged b la hall all)|].
    intros trait [i t] h1 n1 Hsub1 [Ht Hi]. cbn [fst snd] in Ht, Hi.
    assert (Hh1 : h1 !! ls = Some (HArr hsel)) by (eapply lookup_weaken; eauto).
    unfold agrees, hbind, includes, read, helements. rewrite Hh1.
    cbn [fst snd from_option id].
    rewrite (includes_agrees b hall hsel sel trait t i Hdistinct Hsel Ht Hi).
    destruct (negb (Tree.includes sel (i, t))).
    + unfold push. rewrite Hh1. cbn [fst snd].
      eapply IH; [|apply lookup_insert_eq|].
      * apply insert_subseteq_r; [exact Hls|]. etrans; eauto.
      * apply Forall2_app; [exact Hsel|]. constructor; [|constructor].
        split; assumption.
    + unfold hret. cbn [fst snd]. eapply IH; [etrans; eauto|exact Hh1|exact Hsel].
Qed.

Lemma read_pool_same h data data' k :
  repr h data data' ->
  same_outcome (Forall2 (repr h))
    (v <- hget h data k ;; hiterate h v)%outcome
    (v <- get data' k ;; iterate v)%outcome.
Proof.
  intros Hdata. eapply same_outcome_and_then; [now apply (repr_get h)|].
  intros v v' Hv. now apply (repr_iterate h).
Qed.

Lemma generate_personality_agrees count h n :
  agrees h repr (generate_personality net rnd count)
    (Tree.generate_personality net rnd count) h n.
Proof.
  unfold generate_personality, Tree.generate_personality. cbv zeta.
  eapply agrees_bind; [reflexivity|apply fetch_separated|].
  intros data data' h1 n1 Hsub1 [Hdata Hsep].
  eapply agrees_base; [exact Hsub1|]. clear h n Hsub1.
  eapply (agrees_read_bind (Forall2 (repr h1)));
    [reflexivity|now apply read_pool_same|intros traits traits' Htraits Rtraits].
  eapply (agrees_read_bind (Forall2 (repr h1)));
    [reflexivity|now apply read_pool_same|intros ideals ideals' Hideals Rideals].
  eapply (agrees_read_bind (Forall2 (repr h1)));
    [reflexivity|now apply read_pool_same|intros bonds bonds' Hbonds Rbonds].
  eapply (agrees_read_bind (Forall2 (repr h1)));
    [reflexivity|now apply read_pool_same|intros flaws flaws' Hflaws Rflaws].
  eapply (agrees_read_bind (Forall2 (repr h1)));
    [reflexivity|now apply read_pool_same|intros quirks quirks' Hquirks Rquirks].
  pose proof (pools_distinct h1 data _ _ _ _ _ Hsep Htraits Hideals Hbonds Hflaws Hquirks)
    as Hdistinct.
  assert (Hall : Forall2 (repr h1) (traits ++ ideals ++ bonds ++ flaws ++ quirks)
                   (traits' ++ ideals' ++ bonds' ++ flaws' ++ quirks'))
    by (repeat apply Forall2_app; assumption).
  set (hall := traits ++ ideals ++ bonds ++ flaws ++ quirks) in *.
  set (all := traits' ++ ideals' ++ bonds' ++ flaws' ++ quirks') in *.
  rewrite (Forall2_length _ _ _ Hall).
  apply agrees_alloc_left. intros la Hla.
  apply agrees_alloc_left. intros ls Hls.
  assert (Hsub2 : h1 ⊆ <[la := HArr hall]> h1) by now apply insert_subseteq.
  eapply agrees_bind; [exact Hsub2| |].
  { eapply (select_traits_agrees _ la ls hall all);
      [apply lookup_insert_eq|now apply (repr_all_mono h1)|exact Hls|exact Hdistinct
      |now apply insert_subseteq|apply lookup_insert_eq|constructor]. }
  intros _ selected h3 n3 Hsub3 (hs & Hhs & Hselected).
  eapply agrees_base; [etrans; [exact Hsub2|exact Hsub3]|].
  apply agrees_alloc_obj. props.
  econstructor; [exact Hhs|now apply (repr_all_mono _ _ _ _ Hsub3)].
Qed.

End Personality.

(** * The two translations agree

    Whatever the table and the draws, a tool run over the store and the same
    tool run over trees end the same way: both return, and the result in
    the store stands for the result as a tree, or both throw the same
    error, or both leave the fragment that is modelled; they consume the
    same number of draws, and the store the run started in is part of the
    store it ends in. *)
Theorem run_agrees net rnd hc c h n :
  repr_call h hc c ->
  agrees h repr (Store.run net rnd hc) (Tree.run net rnd c) h n.
Proof.
  intros [hlevel level environment difficulty Hlevel|race gender|type|count
         |cr type|climate season|theme hlevel level Hlevel]; cbn [run Tree.run].
  - now apply generate_encounter_agrees.
  - apply generate_npc_name_agrees.
  - apply generate_location_name_agrees.
  - apply generate_personality_agrees.
  - apply generate_treasure_agrees.
  - apply generate_weather_agrees.
  - now apply generate_plot_hook_agrees.
Qed.

End AgreementFacts.

(** * The two translations on the samples

    The record a tool returns over the store, read back as a tree, is the
    record it returns over trees. *)

Example store_agrees_encounter :
  Store.reified 3
    (Store.run (serving "encounters.json" Sample.encounters) Sample.varied
       (Store.Encounter (Store.HNum (of_Z 3)) "forest" None) ∅ 0%nat)
  = run (serving "encounters.json" Sample.encounters) Sample.varied
      (Encounter (VNum (of_Z 3)) "forest" None) 0%nat.
Proof. vm_compute. reflexivity. Qed.

Example store_agrees_npc_name :
  Store.reified 3
    (Store.run (serving "names.json" Sample.names) Sample.varied
       (Store.NpcName "elf" "female") ∅ 0%nat)
  = run (serving "names.json" Sample.names) Sample.varied
      (NpcName "elf" "female") 0%nat.
Proof. vm_compute. reflexivity. Qed.

Example store_agrees_location_name :
  Store.reified 3
    (Store.run (serving "locations.json" Sample.locations) Sample.varied
       (Store.LocationName "tavern") ∅ 0%nat)
  = run (serving "locations.json" Sample.locations) Sample.varied
      (LocationName "tavern") 0%nat.
Proof. vm_compute. reflexivity. Qed.

Example store_agrees_personality :
  Store.reified 3
    (Store.run (serving "traits.json" Sample.traits) Sample.varied
       (Store.Personality None) ∅ 0%nat)
  = run (serving "traits.json" Sample.traits) Sample.varied
      (Personality None) 0%nat.
Proof. vm_compute. reflexivity. Qed.

Example store_agrees_treasure :
  Store.reified 3
    (Store.run (serving "treasure.json" Sample.treasure) Sample.varied
       (Store.Treasure 7 (Some "hoard")) ∅ 0%nat)
  = run (serving "treasure.json" Sample.treasure) Sample.varied
      (Treasure 7 (Some "hoard")) 0%nat.
Proof. vm_compute. reflexivity. Qed.

Example store_agrees_weather :
  Store.reified 3
    (Store.run (serving "weather.json" Sample.weather) Sample.varied
       (Store.Weather "desert" (Some "spring")) ∅ 0%nat)
  = run (serving "weather.json" Sample.weather) Sample.varied
      (Weather "desert" (Some "spring")) 0%nat.
Proof. vm_compute. reflexivity. Qed.

Example store_agrees_plot_hook :
  Store.reified 3
    (Store.run (serving "plot_hooks.json" Sample.plot_hooks) Sample.varied
       (Store.PlotHook "mystery" Store.HUndefined) ∅ 0%nat)
  = run (serving "plot_hooks.json" Sample.plot_hooks) Sample.varied
      (PlotHook "mystery" VUndefined) 0%nat.
Proof. vm_compute. reflexivity. Qed.

(** * What the tools return, whatever the table *)

Section Inversion.

Context {A B : Type}.

Lemma bind_inv (m : M A) (f : A -> M B) n b n' :
  bind m f n = Return (b, n') ->
  exists a n1, m n = Return (a, n1) /\ f a n1 = Return (b, n').
Proof.
  unfold bind. destruct (m n) as [[a n1]| |]; try discriminate. eauto.
Qed.

Lemma lift_inv (o : outcome A) n a n' :
  lift o n = Return (a, n') -> o = Return a /\ n' = n.
Proof. destruct o; cbn; try discriminate. now intros [= -> ->]. Qed.

Lemma ret_inv (x : A) n a n' : ret x n = Return (a, n') -> a = x /\ n' = n.
Proof. now intros [= -> ->]. Qed.

End Inversion.

(** Takes a run that returns apart, step by step. *)
Ltac run_inv H :=
  repeat lazymatch type of H with
    | bind (lift _) _ _ = Return _ =>
        let a := fresh "a" in
        let n1 := fresh "n" in
        let Ha := fresh "Ha" in
        apply bind_inv in H as (a & n1 & Ha & H);
        apply lift_inv in Ha as [Ha ->]
    | bind (fetch _ _) _ _ = Return _ =>
        let a := fresh "data" in
        let n1 := fresh "n" in
        let Ha := fresh "Hfetch" in
        apply bind_inv in H as (a & n1 & Ha & H);
        apply lift_inv in Ha as [Ha ->]
    | bind _ _ _ = Return _ =>
        let a := fresh "a" in
        let n1 := fresh "n" in
        let Ha := fresh "Ha" in
        apply bind_inv in H as (a & n1 & Ha & H)
    | ret _ _ = Return _ => apply ret_inv in H as [? ?]
    | lift _ _ = Return _ => apply lift_inv in H as [H ?]
    end.

Section Draws.

Variable rnd : source.

Lemma pick_index_draws xs n i n' :
  pick_index rnd xs n = Return (i, n') -> n' = S n.
Proof.
  unfold pick_index. intros H. apply bind_inv in H as (r & n1 & Hr & H).
  injection Hr as <- <-. run_inv H. now subst.
Qed.

Lemma pick_draws xs n x n' : pick rnd xs n = Return (x, n') -> n' = S n.
Proof.
  unfold pick. intros H. apply bind_inv in H as (i & n1 & Hi & H).
  apply pick_index_draws in Hi as ->. run_inv H. now subst.
Qed.

Lemma select_traits_draws allTraits remaining : forall selected n result n',
  select_traits rnd allTraits remaining selected n = Return (result, n') ->
  n' = (n + remaining)%nat.
Proof.
  induction remaining as [|k IH]; intros selected n result n' H;
    cbn [select_traits] in H.
  - apply ret_inv in H as [_ ->]. lia.
  - apply bind_inv in H as (i & n1 & Hi & H).
    apply pick_index_draws in Hi as ->.
    apply bind_inv in H as (t & n2 & Ht & H). apply lift_inv in Ht as [_ ->].
    apply IH in H. lia.
Qed.

End Draws.

Section Returned.

Variable net : network.
Variable rnd : source.

Lemma select_traits_length allTraits remaining : forall selected n result n',
  select_traits rnd allTraits remaining selected n = Return (result, n') ->
  (length result <= length selected + remaining)%nat.
Proof.
  induction remaining as [|k IH]; intros selected n result n' H;
    cbn [select_traits] in H.
  - apply ret_inv in H as [-> _]. lia.
  - apply bind_inv in H as (i & n1 & _ & H).
    apply bind_inv in H as (t & n2 & _ & H).
    apply IH in H. destruct (negb _) in H; [rewrite length_app in H; cbn in H|]; lia.
Qed.

Lemma roll_draws diceSize remaining : forall total n result n',
  roll rnd diceSize remaining total n = Return (result, n') -> (n <= n')%nat.
Proof.
  induction remaining as [|k IH]; intros total n result n' H; cbn [roll] in H.
  - apply ret_inv in H as [_ ->]. lia.
  - apply bind_inv in H as (r & n1 & Hr & H). injection Hr as <- <-.
    apply IH in H. lia.
Qed.

Lemma coin_value_draws diceData n result n' :
  coin_value rnd diceData n = Return (result, n') -> (n <= n')%nat.
Proof.
  unfold coin_value. intros H. run_inv H. subst.
  match goal with Hr : roll _ _ _ _ _ = Return _ |- _ => apply roll_draws in Hr end.
  lia.
Qed.

Lemma generate_coins_draws todo : forall coins n result n',
  generate_coins rnd todo coins n = Return (result, n') -> (n <= n')%nat.
Proof.
  induction todo as [|[k d] todo IH]; intros coins n result n' H;
    cbn [generate_coins] in H.
  - apply ret_inv in H as [_ ->]. lia.
  - destruct (negb (String.eqb k "items")); [|now apply IH in H].
    apply bind_inv in H as (amount & n1 & Ha & H).
    apply coin_value_draws in Ha. apply IH in H. lia.
Qed.

Lemma generate_items_draws itemPool remaining : forall items n result n',
  generate_items rnd itemPool remaining items n = Return (result, n') ->
  (n <= n')%nat.
Proof.
  induction remaining as [|k IH]; intros items n result n' H;
    cbn [generate_items] in H.
  - apply ret_inv in H as [_ ->]. lia.
  - apply bind_inv in H as (item & n1 & Hi & H).
    apply pick_draws in Hi as ->. apply IH in H. lia.
Qed.

Lemma rounds_min_le (count : Z) (len : nat) :
  (rounds (Number.min (of_Z count) (of_nat len)) <= Z.to_nat count)%nat.
Proof.
  unfold Number.min, of_nat, of_Z.
  destruct (Qle_bool (inject_Z count) (inject_Z (Z.of_nat len))) eqn:E;
    cbn [rounds]; rewrite Qceiling_Z; [lia|].
  assert (Hlt : (Z.of_nat len < count)%Z); [|lia].
  apply Z.lt_nge. intros Hle. apply not_true_iff_false in E. apply E.
  apply Qle_bool_iff. now rewrite <- Zle_Qle.
Qed.

(** What a tool returns, and the draws it has consumed by then. *)
Lemma run_shape (c : call) n v n' :
  run net rnd c n = Return (v, n') -> returned c v n n'.
Proof.
  destruct c as [level environment difficulty|race gender|type|count|cr type
                |climate season|theme level]; cbn [run returned]; intros H.
  - unfold generate_encounter in H. cbv zeta in H. run_inv H.
    destruct (strict_eq_number _ _) in H.
    + apply ret_inv in H as [-> ->]. left. split; [eexists; reflexivity|reflexivity].
    + apply bind_inv in H as (chosen & n1 & Hpick & H).
      apply pick_draws in Hpick as ->. apply ret_inv in H as [-> ->].
      right. eauto.
  - unfold generate_npc_name in H. run_inv H.
    destruct (strict_eq_number _ _) in H.
    + apply ret_inv in H as [-> ->]. left. split; [eexists; reflexivity|reflexivity].
    + apply bind_inv in H as (name & n1 & Hpick & H).
      apply pick_draws in Hpick as ->. apply ret_inv in H as [-> ->].
      right. eauto.
  - unfold generate_location_name in H. run_inv H.
    destruct (negb _) in H.
    + apply ret_inv in H as [-> ->]. left. split; [eexists; reflexivity|reflexivity].
    + apply bind_inv in H as (prefixes & n1 & Hp & H). apply lift_inv in Hp as [_ ->].
      apply bind_inv in H as (prefix & n2 & Hpick & H).
      apply pick_draws in Hpick as ->.
      apply bind_inv in H as (suffixes & n3 & Hs & H). apply lift_inv in Hs as [_ ->].
      apply bind_inv in H as (suffix & n4 & Hpick & H).
      apply pick_draws in Hpick as ->. run_inv H. subst. right. eauto.
  - unfold generate_personality in H. cbv zeta in H. run_inv H.
    match goal with
    | Hs : select_traits _ _ _ _ _ = Return _ |- _ =>
        pose proof (select_traits_draws _ _ _ _ _ _ _ Hs) as Hd;
        pose proof (select_traits_length _ _ _ _ _ _ Hs) as Hl
    end.
    subst. eexists. split; [reflexivity|]. rewrite length_fmap. cbn [length] in Hl.
    pose proof (rounds_min_le (default 4%Z count)
                  (length (a ++ a0 ++ a1 ++ a2 ++ a3))).
    repeat split; lia.
  - unfold generate_treasure in H. cbv zeta in H. run_inv H. subst.
    eexists _, _. split; [reflexivity|].
    repeat match goal with
           | Hc : treasure_coins _ _ _ = Return _ |- _ =>
               unfold treasure_coins in Hc; destruct (truthy _) in Hc;
               [apply generate_coins_draws in Hc|apply ret_inv in Hc as [_ ->]]
           end.
    all: match goal with
         | Hi : treasure_items _ _ _ _ _ = Return _ |- _ =>
             unfold treasure_items in Hi; destruct (_ && _) in Hi;
             [run_inv Hi; subst|apply ret_inv in Hi as [_ ->]]
         end.
    all: repeat match goal with
                | Hr : random _ _ = Return _ |- _ => injection Hr as <- <-
                | Hg : generate_items _ _ _ _ _ = Return _ |- _ =>
                    apply generate_items_draws in Hg
                end; lia.
  - unfold generate_weather in H. run_inv H.
    destruct (strict_eq_number _ _) in H.
    + apply ret_inv in H as [-> ->]. left. split; [eexists; reflexivity|reflexivity].
    + apply bind_inv in H as (description & n1 & Hpick & H).
      apply pick_draws in Hpick as ->. apply ret_inv in H as [-> ->].
      right. eauto.
  - unfold generate_plot_hook in H. run_inv H.
    destruct (strict_eq_number _ _) in H.
    + apply ret_inv in H as [-> ->]. left. split; [eexists; reflexivity|reflexivity].
    + apply bind_inv in H as (hook & n1 & Hpick & H).
      apply pick_draws in Hpick as ->. apply ret_inv in H as [-> ->].
      right. eauto.
Qed.

(** X1 -- whatever the table holds, a tool that returns gives either the
    [{error}] record, without having consumed a draw, or the record of its
    fixed fields: after exactly one draw for an encounter, a name, the
    weather and a plot hook, after exactly two for a location name, after
    no more draws than [count] and at least as many as there are traits
    for a personality. *)
Theorem run_returns (c : call) n v n' :
  run net rnd c n = Return (v, n') -> returned c v n n'.
Proof. apply run_shape. Qed.

End Returned.

Lemma run_returns_witness :
  returned (NpcName "elf" "female")
    (VObj [ ("name", VStr "Idril"); ("race", VStr "elf"); ("gender", VStr "female") ])
    0 1.
Proof.
  apply (run_returns (serving "names.json" Sample.names) (Sample.always (1 # 2))
           (NpcName "elf" "female") 0%nat).
  reflexivity.
Defined.

(** * Names, plot hooks and location names *)

Section NamePicks.

Variable net : network.
Variable rnd : source.

Lemma nonempty_length (l : list value) :
  l <> [] -> strict_eq_number (VNum (of_nat (length l))) (of_Z 0) = false.
Proof. intros Hl. rewrite strict_eq_zero_length. now destruct l. Qed.

(** X2 -- for a race and a gender whose list of names is not empty,
    [generate_npc_name] spends one draw [r] and returns the name at the
    index the draw selects, the integer part of the product [r * length]
    as the engine rounds it, with the race and the gender of the call.  Up
    to that rounding each name has an interval of draws of the same width:
    the index [k] is selected when [k <= r * length <= (k + 1) * (1 - e)],
    and only when [k * (1 - e) <= r * length < k + 1], for [e] the relative
    error [2 ^ -53] of a rounding. *)
Theorem generate_npc_name_picks race gender data names n :
  fetchData net "names.json" = Return data ->
  lookup_path data [ "names"; race; gender ] = Some (VArr names) ->
  names <> [] ->
  in_unit (rnd n) = true ->
  generate_npc_name net rnd race gender n
  = Return (VObj [ ("name", picked names (rnd n));
                   ("race", VStr race);
                   ("gender", VStr gender) ], S n)
  /\ names !! drawn_index (rnd n) (length names) = Some (picked names (rnd n))
  /\ forall k : nat,
      (Z.of_nat (length names) < 2 ^ 53)%Z ->
      ((inject_Z (Z.of_nat k) <= rnd n * inject_Z (Z.of_nat (length names))
        /\ rnd n * inject_Z (Z.of_nat (length names))
           <= inject_Z (Z.of_nat k + 1) * (1 - Binary64.epsilon))%Q ->
       drawn_index (rnd n) (length names) = k)
      /\ (drawn_index (rnd n) (length names) = k ->
          (inject_Z (Z.of_nat k) * (1 - Binary64.epsilon)
           <= rnd n * inject_Z (Z.of_nat (length names))
           /\ rnd n * inject_Z (Z.of_nat (length names))
              < inject_Z (Z.of_nat k + 1))%Q).
Proof.
  intros Hfetch Hpath Hne Hr. path_inv Hpath.
  assert (Hlen : (0 < length names)%nat) by (destruct names; cbn; [congruence|lia]).
  split; [|split].
  - unfold generate_npc_name, fetch.
    rewrite bind_lift, Hfetch. cbv beta iota.
    rewrite bind_lift. unfold nested.
    rewrite (get_own _ _ _ Hk). cbn [and_then].
    rewrite (get_own _ _ _ Hk0). cbn [and_then].
    unfold get_opt. rewrite (get_own _ _ _ Hk1). cbv beta iota.
    change (or_else (VArr names) (VArr [])) with (VArr names).
    rewrite bind_lift, length_of_array. cbv beta iota.
    rewrite (nonempty_length _ Hne).
    now rewrite (bind_returns _ _ _ _ _ (pick_any rnd names n Hr)).
  - unfold picked.
    destruct (lookup_lt_is_Some_2 names _ (drawn_index_lt _ _ Hr Hlen)) as [x Hx].
    now rewrite Hx.
  - intros k H53. now apply drawn_index_interval.
Qed.

(** X3 -- for a theme whose list of hooks is not empty,
    [generate_plot_hook] spends one draw and returns the hook at the index
    the draw selects, with the theme of the call and the level of the call
    as [suggestedLevel], whatever the level is: a call without a level
    gives the record an undefined [suggestedLevel]. *)
Theorem generate_plot_hook_picks theme level data hooks n :
  fetchData net "plot_hooks.json" = Return data ->
  lookup_path data [ "plot_hooks"; theme ] = Some (VArr hooks) ->
  hooks <> [] ->
  in_unit (rnd n) = true ->
  generate_plot_hook net rnd theme level n
  = Return (VObj [ ("theme", VStr theme);
                   ("suggestedLevel", level);
                   ("hook", picked hooks (rnd n)) ], S n)
  /\ hooks !! drawn_index (rnd n) (length hooks) = Some (picked hooks (rnd n)).
Proof.
  intros Hfetch Hpath Hne Hr. path_inv Hpath.
  assert (Hlen : (0 < length hooks)%nat) by (destruct hooks; cbn; [congruence|lia]).
  split.
  - unfold generate_plot_hook, fetch.
    rewrite bind_lift, Hfetch. cbv beta iota.
    rewrite bind_lift, (get_own _ _ _ Hk). cbv beta iota.
    rewrite bind_lift, (get_own _ _ _ Hk0). cbv beta iota.
    change (or_else (VArr hooks) (VArr [])) with (VArr hooks).
    rewrite bind_lift, length_of_array. cbv beta iota.
    rewrite (nonempty_length _ Hne).
    now rewrite (bind_returns _ _ _ _ _ (pick_any rnd hooks n Hr)).
  - unfold picked.
    destruct (lookup_lt_is_Some_2 hooks _ (drawn_index_lt _ _ Hr Hlen)) as [x Hx].
    now rewrite Hx.
Qed.

(** X4 -- for a type the table has, with a list of prefixes and a list of
    suffixes, [generate_location_name] spends two draws, the first for the
    prefix and the second for the suffix, and returns the two texts joined
    by one space.  No list is tested for emptiness: an empty list gives
    the text "undefined" in its place. *)
Theorem generate_location_name_joins type data location prefixes suffixes n
    prefix suffix :
  fetchData net "locations.json" = Return data ->
  lookup_path data [ "locations"; type ] = Some (VObj location) ->
  own_prop "prefixes" location = Some (VArr prefixes) ->
  own_prop "suffixes" location = Some (VArr suffixes) ->
  in_unit (rnd n) = true ->
  in_unit (rnd (S n)) = true ->
  to_string (picked prefixes (rnd n)) = Return prefix ->
  to_string (picked suffixes (rnd (S n))) = Return suffix ->
  generate_location_name net rnd type n
  = Return (VObj [ ("name", VStr (prefix +:+ " " +:+ suffix));
                   ("type", VStr type) ], S (S n))
  /\ (prefixes = [] -> prefix = "undefined")
  /\ (suffixes = [] -> suffix = "undefined").
Proof.
  intros Hfetch Hpath Hp Hs Hr Hr' Hprefix Hsuffix. path_inv Hpath.
  split; [|split].
  - unfold generate_location_name, fetch.
    rewrite bind_lift, Hfetch. cbv beta iota.
    rewrite bind_lift, (get_own _ _ _ Hk). cbv beta iota.
    rewrite bind_lift, (get_own _ _ _ Hk0). cbv beta iota.
    cbn [truthy negb].
    rewrite bind_lift, (get_own _ _ _ Hp). cbv beta iota.
    rewrite (bind_returns _ _ _ _ _ (pick_any rnd prefixes n Hr)).
    rewrite bind_lift, (get_own _ _ _ Hs). cbv beta iota.
    rewrite (bind_returns _ _ _ _ _ (pick_any rnd suffixes (S n) Hr')).
    rewrite bind_lift, Hprefix. cbv beta iota.
    rewrite bind_lift, Hsuffix. reflexivity.
  - intros ->. unfold picked in Hprefix. rewrite lookup_nil in Hprefix.
    now injection Hprefix.
  - intros ->. unfold picked in Hsuffix. rewrite lookup_nil in Hsuffix.
    now injection Hsuffix.
Qed.

(** X5 -- a location type that the table has without a list of prefixes
    is not reported by the [{error}] record: the call throws a TypeError. *)
Theorem generate_location_name_incomplete type data location n :
  fetchData net "locations.json" = Return data ->
  lookup_path data [ "locations"; type ] = Some (VObj location) ->
  own_prop "prefixes" location = None ->
  generate_location_name net rnd type n = Throw TypeError.
Proof.
  intros Hfetch Hpath Hp. path_inv Hpath.
  unfold generate_location_name, fetch.
  rewrite bind_lift, Hfetch. cbv beta iota.
  rewrite bind_lift, (get_own _ _ _ Hk). cbv beta iota.
  rewrite bind_lift, (get_own _ _ _ Hk0). cbv beta iota.
  cbn [truthy negb].
  rewrite bind_lift, (get_absent _ _ Hp eq_refl). reflexivity.
Qed.

End NamePicks.

Lemma generate_npc_name_picks_witness :
  generate_npc_name (serving "names.json" Sample.names) (Sample.always (1 # 2))
    "elf" "female" 0
  = Return (VObj [ ("name", VStr "Idril"); ("race", VStr "elf");
                   ("gender", VStr "female") ], 1%nat).
Proof.
  destruct (generate_npc_name_picks (serving "names.json" Sample.names)
              (Sample.always (1 # 2)) "elf" "female" Sample.names
              [ VStr "Arwen"; VStr "Idril" ] 0%nat) as [Hrun _].
  - reflexivity.
  - reflexivity.
  - discriminate.
  - reflexivity.
  - exact Hrun.
Defined.

Lemma generate_plot_hook_picks_witness :
  generate_plot_hook (serving "plot_hooks.json" Sample.plot_hooks)
    (Sample.always (1 # 2)) "mystery" VUndefined 0
  = Return (VObj [ ("theme", VStr "mystery");
                   ("suggestedLevel", VUndefined);
                   ("hook", VObj [ ("title", VStr "A locked room") ]) ], 1%nat).
Proof.
  destruct (generate_plot_hook_picks (serving "plot_hooks.json" Sample.plot_hooks)
              (Sample.always (1 # 2)) "mystery" VUndefined Sample.plot_hooks
              [ VObj [ ("title", VStr "The missing heir") ];
                VObj [ ("title", VStr "A locked room") ] ] 0%nat) as [Hrun _].
  - reflexivity.
  - reflexivity.
  - discriminate.
  - reflexivity.
  - exact Hrun.
Defined.

Lemma generate_location_name_joins_witness :
  generate_location_name (serving "locations.json" Sample.locations)
    (Sample.always (1 # 2)) "tavern" 0
  = Return (VObj [ ("name", VStr "The Prancing Dragon"); ("type", VStr "tavern") ],
            2%nat).
Proof.
  destruct (generate_location_name_joins
              (serving "locations.json" Sample.locations) (Sample.always (1 # 2))
              "tavern" Sample.locations
              [ ("prefixes", VArr [ VStr "The Prancing" ]);
                ("suffixes", VArr [ VStr "Pony"; VStr "Dragon" ]) ]
              [ VStr "The Prancing" ] [ VStr "Pony"; VStr "Dragon" ] 0%nat
              "The Prancing" "Dragon") as [Hrun _].
  - reflexivity.
  - reflexivity.
  - reflexivity.
  - reflexivity.
  - reflexivity.
  - reflexivity.
  - reflexivity.
  - reflexivity.
  - exact Hrun.
Defined.

Lemma generate_location_name_incomplete_witness :
  generate_location_name
    (serving "locations.json"
       (VObj [ ("locations",
                VObj [ ("ruin", VObj [ ("suffixes", VArr [ VStr "Keep" ]) ]) ]) ]))
    (Sample.always (1 # 2)) "ruin" 0
  = Throw TypeError.
Proof.
  apply (generate_location_name_incomplete
           (serving "locations.json"
              (VObj [ ("locations",
                       VObj [ ("ruin", VObj [ ("suffixes", VArr [ VStr "Keep" ]) ]) ]) ]))
           (Sample.always (1 # 2)) "ruin"
           (VObj [ ("locations",
                    VObj [ ("ruin", VObj [ ("suffixes", VArr [ VStr "Keep" ]) ]) ]) ])
           [ ("suffixes", VArr [ VStr "Keep" ]) ] 0%nat).
  - reflexivity.
  - reflexivity.
  - reflexivity.
Defined.

(** * The edges of the personality and of the treasure *)

Section Edges.

Variable net : network.
Variable rnd : source.

Lemma read_category ps k :
  inherited k = false ->
  (v <- get (VObj ps) k ;; iterate v)%outcome
  = match elements (default VUndefined (own_prop k ps)) with
    | Some l => Return l
    | None => Throw TypeError
    end.
Proof.
  intros Hk. cbn [get]. rewrite Hk.
  destruct (own_prop k ps) as [x|]; reflexivity.
Qed.

(** X6 -- [generate_personality] spreads the five categories of the table
    whatever [count] is: when one of [traits], [ideals], [bonds], [flaws]
    and [quirks] is missing from the table, or is not a sequence, the call
    throws a TypeError. *)
Theorem generate_personality_needs_categories count ps k n :
  fetchData net "traits.json" = Return (VObj ps) ->
  k ∈ [ "traits"; "ideals"; "bonds"; "flaws"; "quirks" ] ->
  elements (default VUndefined (own_prop k ps)) = None ->
  generate_personality net rnd count n = Throw TypeError.
Proof.
  intros Hfetch Hk Hnone.
  unfold generate_personality, fetch. cbv zeta.
  rewrite bind_lift, Hfetch. cbv beta iota.
  rewrite bind_lift, read_category by reflexivity.
  destruct (elements (default VUndefined (own_prop "traits" ps))) eqn:E1;
    [|reflexivity].
  rewrite bind_lift, read_category by reflexivity.
  destruct (elements (default VUndefined (own_prop "ideals" ps))) eqn:E2;
    [|reflexivity].
  rewrite bind_lift, read_category by reflexivity.
  destruct (elements (default VUndefined (own_prop "bonds" ps))) eqn:E3;
    [|reflexivity].
  rewrite bind_lift, read_category by reflexivity.
  destruct (elements (default VUndefined (own_prop "flaws" ps))) eqn:E4;
    [|reflexivity].
  rewrite bind_lift, read_category by reflexivity.
  destruct (elements (default VUndefined (own_prop "quirks" ps))) eqn:E5;
    [|reflexivity].
  exfalso.
  repeat (apply elem_of_cons in Hk as [->|Hk]; [congruence|]).
  now apply elem_of_nil in Hk.
Qed.



End Edges.

Lemma generate_personality_needs_categories_witness :
  generate_personality
    (serving "traits.json"
       (VObj [ ("traits", VArr [ VStr "Brave" ]); ("ideals", VArr []);
               ("bonds", VArr []); ("flaws", VArr []) ]))
    (Sample.always (1 # 2)) (Some 0%Z) 0
  = Throw TypeError.
Proof.
  apply (generate_personality_needs_categories
           (serving "traits.json"
              (VObj [ ("traits", VArr [ VStr "Brave" ]); ("ideals", VArr []);
                      ("bonds", VArr []); ("flaws", VArr []) ]))
           (Sample.always (1 # 2)) (Some 0%Z)
           [ ("traits", VArr [ VStr "Brave" ]); ("ideals", VArr []);
             ("bonds", VArr []); ("flaws", VArr []) ]
           "quirks" 0%nat).
  - reflexivity.
  - do 4 apply list_elem_of_further. apply list_elem_of_here.
  - reflexivity.
Defined.


(** * The text of a record *)

Section Texts.

Lemma unescape_escape c r :
  unescape (JSON.escape c +:+ r) = String c <$> unescape r.
Proof. destruct c as [[] [] [] [] [] [] [] []]; reflexivity. Qed.

(** X8 -- the escapes that [JSON.stringify] writes for the characters of a
    string decode to the string: no two strings have the same text, and no
    quotation mark, backslash or control character is written as it is. *)
Theorem unescape_escape_all s : unescape (JSON.escape_all s) = Some s.
Proof.
  induction s as [|c s IH]; [reflexivity|].
  cbn [JSON.escape_all]. rewrite unescape_escape, IH. reflexivity.
Qed.

Lemma serialize_never_throws gap v : forall indent error,
  JSON.serialize gap indent v <> Throw error.
Proof.
  induction v as [| |b|n|s|l IHl|ps IHps] using AgreementFacts.value_ind';
    intros indent error; cbn [JSON.serialize]; try discriminate.
  - unfold JSON.number_text. destruct n; [discriminate|].
    destruct (key_of_number _); discriminate.
  - set (elements := fix elements (l : list value) : outcome (list string) :=
                       match l with
                       | [] => Return []
                       | x :: r =>
                           (strP <- JSON.serialize gap (indent +:+ gap) x ;;
                            rest <- elements r ;;
                            Return (default "null" strP :: rest))%outcome
                       end).
    assert (H : forall e, elements l <> Throw e).
    { induction IHl as [|x l Hx _ IH]; intros e; cbn; [discriminate|].
      specialize (Hx (indent +:+ gap)).
      destruct (JSON.serialize gap (indent +:+ gap) x); cbn;
        [|now destruct (Hx e0)|discriminate].
      specialize (IH e). destruct (elements l); cbn; [discriminate|congruence|discriminate]. }
    specialize (H error). destruct (elements l); cbn; [discriminate|congruence|discriminate].
  - set (members := fix members (ps : list (string * value)) : outcome (list string) :=
                      match ps with
                      | [] => Return []
                      | (k, x) :: r =>
                          (strP <- JSON.serialize gap (indent +:+ gap) x ;;
                           rest <- members r ;;
                           Return
                             match strP with
                             | Some text =>
                                 (JSON.quote k +:+ ":"
                                    +:+ (if String.eqb gap "" then "" else " ")
                                    +:+ text) :: rest
                             | None => rest
                             end)%outcome
                      end).
    assert (H : forall e, members ps <> Throw e).
    { induction IHps as [|[k x] ps Hx _ IH]; intros e; cbn; [discriminate|].
      cbn [snd] in Hx. specialize (Hx (indent +:+ gap)).
      destruct (JSON.serialize gap (indent +:+ gap) x); cbn;
        [|now destruct (Hx e0)|discriminate].
      specialize (IH e). destruct (members ps); cbn; [discriminate|congruence|discriminate]. }
    specialize (H error). destruct (members ps); cbn; [discriminate|congruence|discriminate].
Qed.

Lemma stringify_never_throws space v error :
  JSON.stringify space v <> Throw error.
Proof. apply serialize_never_throws. Qed.


Lemma stringify_error message :
  JSON.stringify 2 (VObj [ ("error", VStr message) ])
  = Return (Some (error_text message)).
Proof. reflexivity. Qed.

Lemma stringify_content text flag :
  JSON.stringify 0 (content (Some text) flag)
  = Return (Some (answer_text text flag)).
Proof. destruct flag; reflexivity. Qed.

End Texts.

(** * The protocol handler *)


Section HandlerFacts.

Variable net : network.
Variable rnd : source.
Variable engine : exn -> string.

Lemma get_optional {A} k k' (f : A -> value) (x : option A) ps :
  inherited k = false -> own_prop k ps = None ->
  get (VObj (ps ++ optional k' f x)) k
  = Return (if String.eqb k' k then from_option f VUndefined x else VUndefined).
Proof.
  intros Hk Hps. cbn [get]. rewrite own_prop_app, Hps.
  destruct x as [a|]; cbn [optional own_prop from_option].
  - destruct (String.eqb k' k); [reflexivity|]. now rewrite Hk.
  - rewrite Hk. now destruct (String.eqb k' k).
Qed.

Lemma get_before ps qs k v :
  own_prop k ps = Some v -> get (VObj (ps ++ qs)) k = Return v.
Proof. intros H. cbn [get]. now rewrite own_prop_app, H. Qed.

(** The tool that [tools/call] finds under the name of a call, applied to
    the arguments of the call, is the run of the call. *)
Lemma tools_run (c : call) :
  exists tool,
    own_prop (tool_name c) (tools net rnd) = Some tool
    /\ forall n, tool (arguments c) n = run net rnd c n.
Proof.
  destruct c as [level environment difficulty|race gender|type|count|cr type
                |climate season|theme level];
    (eexists; split; [reflexivity|]); intros n; cbn [arguments run]; cbv beta.
  - rewrite bind_lift, (get_before _ _ "level" level) by reflexivity. cbv beta iota.
    rewrite bind_lift, (get_before _ _ "environment" (VStr environment)) by reflexivity.
    cbn [and_then as_string]. cbv beta iota.
    rewrite bind_lift.
    rewrite (get_optional "difficulty" "difficulty" VStr difficulty
               [ ("level", level); ("environment", VStr environment) ])
      by reflexivity.
    now destruct difficulty.
  - reflexivity.
  - reflexivity.
  - destruct count as [z|]; [|reflexivity]. cbn [optional].
    rewrite bind_lift, (get_own _ "count" (VNum (of_Z z))) by reflexivity.
    cbn [and_then as_optional_integer]. now rewrite to_Z_of_Z.
  - rewrite bind_lift, (get_before _ _ "cr" (VNum (Num cr))) by reflexivity.
    cbn [and_then as_rational]. cbv beta iota.
    rewrite bind_lift.
    rewrite (get_optional "type" "type" VStr type [ ("cr", VNum (Num cr)) ])
      by reflexivity.
    now destruct type.
  - rewrite bind_lift, (get_before _ _ "climate" (VStr climate)) by reflexivity.
    cbn [and_then as_string]. cbv beta iota.
    rewrite bind_lift.
    rewrite (get_optional "season" "season" VStr season
               [ ("climate", VStr climate) ]) by reflexivity.
    now destruct season.
  - reflexivity.
Qed.


Lemma failure_returns text :
  failure text = Return (content (Some (error_text text)) true).
Proof. reflexivity. Qed.





Lemma listed_names_are_tools : listed_names = VStr <$> (tools net rnd).*1.
Proof. reflexivity. Qed.

Lemma unlisted_not_own name :
  VStr name ∉ listed_names -> own_prop name (tools net rnd) = None.
Proof.
  intros Hnot. unfold tools. cbn [own_prop].
  repeat match goal with
         | |- (if String.eqb ?k name then _ else _) = _ =>
             destruct (String.eqb_spec k name) as [<-|_];
             [exfalso; apply Hnot; rewrite listed_names_are_tools; cbn;
              repeat first [apply list_elem_of_here|apply list_elem_of_further]|]
         end.
  reflexivity.
Qed.

(** X10 -- the names that [tools/list] gives are the names of the tools,
    in the order of the [tools] object; a [tools/call] for any other name
    is answered, whatever its arguments, by the text of
    [{ error: "Unknown tool: <name>" }] with [isError]. *)
Theorem listed_tools_are_the_tools :
  listed_names = VStr <$> (tools net rnd).*1
  /\ forall params name args n,
      get params "name" = Return (VStr name) ->
      get params "arguments" = Return args ->
      inherited name = false ->
      VStr name ∉ listed_names ->
      tools_call net rnd engine params n
      = Return (content (Some (error_text ("Unknown tool: " +:+ name))) true).
Proof.
  split; [reflexivity|].
  intros params name args n Hname Hargs Hk Hnot. unfold tools_call.
  rewrite Hname, Hargs. cbn [and_then to_string].
  now rewrite (unlisted_not_own name Hnot), Hk.
Qed.

Lemma listed_own name :
  VStr name ∈ listed_names ->
  exists tool, own_prop name (tools net rnd) = Some tool
               /\ forall n, tool VUndefined n = Throw TypeError.
Proof.
  rewrite listed_names_are_tools. cbn. intros H.
  repeat (apply elem_of_cons in H as [[= ->]|H];
          [eexists; split; reflexivity|]).
  now apply elem_of_nil in H.
Qed.

(** X11 -- a [tools/call] for a listed tool without [arguments] is
    answered with [isError] and the message of the TypeError that the
    destructuring of the missing arguments raises: this holds for
    [generate_personality] too, all of whose arguments are optional. *)
Theorem call_without_arguments params name n :
  get params "name" = Return (VStr name) ->
  VStr name ∈ listed_names ->
  get params "arguments" = Return VUndefined ->
  tools_call net rnd engine params n
  = Return (content (Some (error_text (engine TypeError))) true).
Proof.
  intros Hname Hlisted Hargs. unfold tools_call.
  rewrite Hname, Hargs. cbn [and_then to_string].
  destruct (listed_own name Hlisted) as (tool & -> & Hthrows).
  now rewrite Hthrows.
Qed.

Lemma get_app_other ps k k' d :
  k <> k' -> get (VObj (ps ++ [ (k', d) ])) k = get (VObj ps) k.
Proof.
  intros Hne. cbn [get]. rewrite own_prop_app. cbn [own_prop].
  destruct (String.eqb_spec k' k) as [->|_]; [congruence|].
  now destruct (own_prop k ps).
Qed.

Lemma get_app_new ps k d :
  own_prop k ps = None -> get (VObj (ps ++ [ (k, d) ])) k = Return d.
Proof.
  intros Hnone. cbn [get]. rewrite own_prop_app, Hnone. cbn [own_prop].
  now rewrite String.eqb_refl.
Qed.

Lemma own_prop_elem {V} k (ps : list (string * V)) v :
  own_prop k ps = Some v -> (k, v) ∈ ps.
Proof.
  induction ps as [|[k' v'] ps IH]; cbn [own_prop]; [discriminate|].
  destruct (String.eqb_spec k' k) as [->|_].
  - intros [= ->]. apply elem_of_cons. now left.
  - intros H. apply elem_of_cons. right. now apply IH.
Qed.

(** Decides the comparisons of two string literals. *)
Ltac decide_literals H :=
  repeat match type of H with
         | context [String.eqb ?a ?b] =>
             let v := eval vm_compute in (String.eqb a b) in
             match v with
             | true => idtac
             | false => idtac
             end;
             change (String.eqb a b) with v in H; cbv iota in H
         end.

(** The defaults that [tools/list] declares. *)
Lemma declared_default_cases name property d :
  declared_default name property = Some d ->
  (name, property, d)
  ∈ [ ("generate_encounter", "difficulty", VStr "medium");
      ("generate_personality", "count", VNum (of_Z 4));
      ("generate_treasure", "type", VStr "individual") ].
Proof.
  unfold declared_default.
  let v := eval cbv [tools_list field own_prop String.eqb Ascii.eqb Bool.eqb]
           in (field "tools" tools_list) in
  change (field "tools" tools_list) with v.
  cbv iota.
  destruct (List.find _ _) as [entry|] eqn:Hfind; [|discriminate].
  apply find_some in Hfind as [Hin Hname]. intros Hd.
  path_inv Hd.
  apply own_prop_elem in Hk1.
  apply list_elem_of_In in Hin.
  repeat (apply elem_of_cons in Hin as [[= ->]|Hin];
          [cbn [field own_prop] in Hname; decide_literals Hname;
           apply String.eqb_eq in Hname as <-;
           cbn [own_prop] in Hk; decide_literals Hk; injection Hk as <-;
           unfold input_schema in Hk0;
           cbn [own_prop app] in Hk0; decide_literals Hk0; injection Hk0 as <-;
           repeat (apply elem_of_cons in Hk1 as [[= -> ->]|Hk1];
                   [unfold integer_range, string_enum in Hk2;
                    cbn [own_prop app] in Hk2; decide_literals Hk2;
                    try discriminate; injection Hk2 as <-; set_solver|]);
           now apply elem_of_nil in Hk1|]).
  now apply elem_of_nil in Hin.
Qed.

(** X12 -- the defaults that [tools/list] declares are the defaults of
    the tools: for a property with a declared default, a call that gives
    the property the declared default runs as the call without the
    property. *)
Theorem declared_defaults_apply name property d ps tool n :
  declared_default name property = Some d ->
  own_prop name (tools net rnd) = Some tool ->
  own_prop property ps = None ->
  tool (VObj (ps ++ [ (property, d) ])) n = tool (VObj ps) n.
Proof.
  intros Hd Htool Hnone. apply declared_default_cases in Hd.
  unfold tools in Htool. cbn [own_prop] in Htool.
  repeat (apply elem_of_cons in Hd as [[= -> -> ->]|Hd];
          [decide_literals Htool; injection Htool as <-|]).
  - rewrite !bind_lift.
    rewrite (get_app_other ps "level" "difficulty") by discriminate.
    destruct (get (VObj ps) "level"); [|reflexivity..]. cbv beta iota.
    rewrite !bind_lift.
    rewrite (get_app_other ps "environment" "difficulty") by discriminate.
    destruct (and_then (get (VObj ps) "environment") _); [|reflexivity..].
    cbv beta iota. rewrite !bind_lift.
    rewrite (get_app_new ps "difficulty" _ Hnone).
    rewrite (get_absent ps "difficulty" Hnone eq_refl). reflexivity.
  - rewrite !bind_lift.
    rewrite (get_app_new ps "count" _ Hnone).
    rewrite (get_absent ps "count" Hnone eq_refl). reflexivity.
  - rewrite !bind_lift.
    rewrite (get_app_other ps "cr" "type") by discriminate.
    destruct (and_then (get (VObj ps) "cr") _); [|reflexivity..].
    cbv beta iota. rewrite !bind_lift.
    rewrite (get_app_new ps "type" _ Hnone).
    rewrite (get_absent ps "type" Hnone eq_refl). reflexivity.
  - now apply elem_of_nil in Hd.
Qed.

End HandlerFacts.


Lemma call_without_arguments_witness :
  tools_call Sample.missing (Sample.always (1 # 2)) sample_engine
    (VObj [ ("name", VStr "generate_personality") ]) 0
  = Return (content (Some (error_text "Cannot read properties of undefined")) true).
Proof.
  apply (call_without_arguments Sample.missing (Sample.always (1 # 2)) sample_engine
           (VObj [ ("name", VStr "generate_personality") ])
           "generate_personality" 0%nat).
  - reflexivity.
  - do 3 apply list_elem_of_further. apply list_elem_of_here.
  - reflexivity.
Defined.

Lemma declared_defaults_apply_witness :
  exists tool,
    own_prop "generate_encounter"
      (tools (serving "encounters.json" Sample.encounters) (Sample.always (1 # 2)))
    = Some tool
    /\ tool (VObj ([ ("level", VNum (of_Z 3)); ("environment", VStr "forest") ]
                     ++ [ ("difficulty", VStr "medium") ])) 0%nat
       = tool (VObj [ ("level", VNum (of_Z 3)); ("environment", VStr "forest") ]) 0%nat.
Proof.
  eexists. split; [reflexivity|].
  apply (declared_defaults_apply (serving "encounters.json" Sample.encounters)
           (Sample.always (1 # 2)) "generate_encounter" "difficulty"
           (VStr "medium")
           [ ("level", VNum (of_Z 3)); ("environment", VStr "forest") ] _ 0%nat).
  - reflexivity.
  - reflexivity.
  - reflexivity.
Defined.

(** * The requests and the worker *)

Section RequestFacts.

Variable net : network.
Variable rnd : source.
Variable engine : exn -> string.

Lemma get_member ps k :
  inherited k = false ->
  get (VObj ps) k = Return (default VUndefined (own_prop k ps)).
Proof. intros Hk. cbn [get]. rewrite Hk. now destruct (own_prop k ps). Qed.



(** The methods of the protocol. *)
Lemma handle_method request method params n :
  get request "method" = Return (VStr method) ->
  get request "params" = Return params ->
  handleMCPRequest net rnd engine (Return request) n
  = if String.eqb method "initialize" then Return initialize_result
    else if String.eqb method "tools/list" then Return tools_list
    else if String.eqb method "tools/call"
         then tools_call net rnd engine params n
         else Return (VObj [ ("error", VStr ("Unknown method: " +:+ method)) ]).
Proof. intros Hm Hp. unfold handleMCPRequest. cbn [and_then]. now rewrite Hm, Hp. Qed.



(** The request of a call reaches the tool of the call. *)
Lemma handle_call (c : call) n :
  handleMCPRequest net rnd engine (Return (call_request c)) n
  = match run net rnd c n with
    | Return (result, _) =>
        match JSON.stringify 2 result with
        | Return text => Return (content text false)
        | Throw error => failure (message engine error)
        | Unmodelled => Unmodelled
        end
    | Throw error => failure (message engine error)
    | Unmodelled => Unmodelled
    end.
Proof.
  destruct (tools_run net rnd c) as (tool & Htool & Hrun).
  rewrite (handle_method (call_request c) "tools/call"
             (VObj [ ("name", VStr (tool_name c)); ("arguments", arguments c) ]) n)
    by reflexivity.
  cbn [String.eqb Ascii.eqb Bool.eqb]. unfold tools_call.
  assert (Hname : get (VObj [ ("name", VStr (tool_name c));
                              ("arguments", arguments c) ]) "name"
                  = Return (VStr (tool_name c))) by reflexivity.
  assert (Hargs : get (VObj [ ("name", VStr (tool_name c));
                              ("arguments", arguments c) ]) "arguments"
                  = Return (arguments c)) by reflexivity.
  rewrite Hname, Hargs. cbn [and_then to_string].
  now rewrite Htool, Hrun.
Qed.

(** X15 -- the two ways in which a tool fails reach the client with the
    status 200, and differ in the flag only.  A tool that throws, as when
    the table cannot be fetched, is answered by the text of
    [{ error: <message> }] with [isError]; a tool that returns the
    [{error}] record of a category without entries is answered by the same
    text as a result, without [isError]. *)
Theorem tool_errors_over_http (c : call) n :
  (forall error,
     run net rnd c n = Throw error ->
     Worker.fetch net rnd engine (post (call_request c)) n
     = Return {| Worker.status := 200;
                 Worker.headers := Worker.json_headers;
                 Worker.body :=
                   Some (answer_text (error_text (message engine error)) true) |})
  /\ (forall text n',
        run net rnd c n = Return (VObj [ ("error", VStr text) ], n') ->
        Worker.fetch net rnd engine (post (call_request c)) n
        = Return {| Worker.status := 200;
                    Worker.headers := Worker.json_headers;
                    Worker.body := Some (answer_text (error_text text) false) |}).
Proof.
  split.
  - intros error Hrun.
    unfold Worker.fetch, post. cbn [Worker.method Worker.pathname Worker.json].
    cbn [String.eqb Ascii.eqb Bool.eqb andb].
    rewrite handle_call, Hrun, failure_returns. cbn [and_then].
    now rewrite stringify_content.
  - intros text n' Hrun.
    unfold Worker.fetch, post. cbn [Worker.method Worker.pathname Worker.json].
    cbn [String.eqb Ascii.eqb Bool.eqb andb].
    rewrite handle_call, Hrun, stringify_error. cbn [and_then].
    now rewrite stringify_content.
Qed.

Lemma stringify_error_body text :
  JSON.stringify 0 (VObj [ ("error", VStr text) ]) = Return (Some (error_body text)).
Proof. reflexivity. Qed.

(** X16 -- the worker answers every request: it never throws.  The status
    of the response is 302 for what is neither a preflight nor a POST to
    [/mcp], and 500 exactly when [handleMCPRequest] throws, with the text
    of [{ error: <message> }] as the body; it is 200 otherwise.  Every
    response other than the redirection carries the three CORS headers. *)
Theorem fetch_responds request n :
  (forall error, Worker.fetch net rnd engine request n <> Throw error)
  /\ forall response,
      Worker.fetch net rnd engine request n = Return response ->
      (Worker.status response = 302%Z
       <-> Worker.method request <> "OPTIONS"
           /\ (Worker.pathname request <> "/mcp" \/ Worker.method request <> "POST"))
      /\ (Worker.status response = 500%Z
          <-> Worker.pathname request = "/mcp" /\ Worker.method request = "POST"
              /\ exists error,
                   handleMCPRequest net rnd engine (Worker.json request) n
                   = Throw error
                   /\ Worker.body response
                      = Some (error_body (message engine error)))
      /\ (Worker.status response = 200%Z \/ Worker.status response = 302%Z
          \/ Worker.status response = 500%Z)
      /\ (Worker.status response <> 302%Z ->
          forall k v, (k, v) ∈ Worker.corsHeaders ->
                      own_prop k (Worker.headers response) = Some v).
Proof.
  unfold Worker.fetch.
  destruct (String.eqb_spec (Worker.method request) "OPTIONS") as [Ho|Ho].
  { split; [discriminate|]. intros response [= <-]. cbn.
    split; [split; [discriminate|tauto]|].
    split; [split; [discriminate|intros (_ & Hpost & _); congruence]|].
    split; [tauto|]. intros _ k v Hin.
    repeat (apply elem_of_cons in Hin as [[= -> ->]|Hin]; [reflexivity|]).
    now apply elem_of_nil in Hin. }
  destruct (String.eqb_spec (Worker.pathname request) "/mcp") as [Hp|Hp];
    cbn [andb];
    [destruct (String.eqb_spec (Worker.method request) "POST") as [Hm|Hm]|].
  - destruct (handleMCPRequest net rnd engine (Worker.json request) n)
      as [result|e|] eqn:Hhandle; cbn [and_then].
    + pose proof (stringify_never_throws 0 result) as Hnever.
      destruct (JSON.stringify 0 result) as [text|e|];
        [|now destruct (Hnever e)|split; discriminate].
      split; [discriminate|]. intros response [= <-]. cbn.
      split; [split; [discriminate|tauto]|].
      split; [split; [discriminate|intros (_ & _ & e & [=] & _)]|].
      split; [tauto|]. intros _ k v Hin.
      repeat (apply elem_of_cons in Hin as [[= -> ->]|Hin]; [reflexivity|]).
      now apply elem_of_nil in Hin.
    + rewrite stringify_error_body. cbn [and_then].
      split; [discriminate|]. intros response [= <-]. cbn.
      split; [split; [discriminate|tauto]|].
      split; [split; [intros _; eauto|reflexivity]|].
      split; [tauto|]. intros _ k v Hin.
      repeat (apply elem_of_cons in Hin as [[= -> ->]|Hin]; [reflexivity|]).
      now apply elem_of_nil in Hin.
    + split; discriminate.
  - split; [discriminate|]. intros response [= <-]. cbn.
    split; [tauto|]. split; [split; [discriminate|tauto]|]. split; [tauto|].
    intros H. now destruct H.
  - split; [discriminate|]. intros response [= <-]. cbn.
    split; [tauto|]. split; [split; [discriminate|tauto]|]. split; [tauto|].
    intros H. now destruct H.
Qed.

End RequestFacts.


(** * A call from the request to the response *)

Section CallFacts.

Variable net : network.
Variable rnd : source.
Variable engine : exn -> string.

(** X17 -- the response to a [tools/call] whose tool returns has the status
    200 and, as its body, the text of the answer without indentation; the
    answer holds, as a string, the text of the result indented by two
    spaces.  The draws that the tool has consumed leave no trace. *)
Theorem tool_result_over_http (c : call) n result n' text :
  run net rnd c n = Return (result, n') ->
  JSON.stringify 2 result = Return (Some text) ->
  Worker.fetch net rnd engine (post (call_request c)) n
  = Return {| Worker.status := 200;
              Worker.headers := Worker.json_headers;
              Worker.body := Some (answer_text text false) |}.
Proof.
  intros Hrun Htext.
  unfold Worker.fetch, post. cbn [Worker.method Worker.pathname Worker.json].
  cbn [String.eqb Ascii.eqb Bool.eqb andb].
  rewrite handle_call, Hrun, Htext. cbn [and_then].
  now rewrite stringify_content.
Qed.

End CallFacts.

Lemma tool_result_over_http_witness :
  exists text,
    Worker.fetch (serving "names.json" Sample.names) (Sample.always (1 # 2))
      sample_engine (post (call_request (NpcName "elf" "female"))) 0
    = Return {| Worker.status := 200;
                Worker.headers := Worker.json_headers;
                Worker.body := Some (answer_text text false) |}.
Proof.
  eexists.
  apply (tool_result_over_http (serving "names.json" Sample.names)
           (Sample.always (1 # 2)) sample_engine (NpcName "elf" "female") 0%nat
           (VObj [ ("name", VStr "Idril"); ("race", VStr "elf");
                   ("gender", VStr "female") ]) 1%nat).
  - reflexivity.
  - reflexivity.
Defined.

(** * The tables that the worker reads *)

Section TableFacts.

Variables net net' : network.
Variable rnd : source.
Variable engine : exn -> string.

Hypothesis same_tables :
  forall filename, filename ∈ tables -> fetchData net filename = fetchData net' filename.

Lemma run_same_tables (c : call) n : run net rnd c n = run net' rnd c n.
Proof.
  apply (run_ext rnd rnd (fun i => Qeq_refl (rnd i))).
  apply same_tables. destruct c; cbn [table_of]; unfold tables;
    repeat first [apply list_elem_of_here|apply list_elem_of_further].
Qed.

Lemma tools_same_tables key :
  match own_prop key (tools net rnd), own_prop key (tools net' rnd) with
  | Some tool, Some tool' => forall args n, tool args n = tool' args n
  | None, None => True
  | _, _ => False
  end.
Proof.
  unfold tools. cbn [own_prop].
  repeat match goal with
         | |- context [String.eqb ?k key] => destruct (String.eqb k key)
         end; try exact I; intros args n.
  - apply bind_ext; [reflexivity|intros level n1].
    apply bind_ext; [reflexivity|intros environment n2].
    apply bind_ext; [reflexivity|intros difficulty n3].
    apply (run_same_tables (Encounter level environment difficulty)).
  - apply bind_ext; [reflexivity|intros race n1].
    apply bind_ext; [reflexivity|intros gender n2].
    apply (run_same_tables (NpcName race gender)).
  - apply bind_ext; [reflexivity|intros type n1].
    apply (run_same_tables (LocationName type)).
  - apply bind_ext; [reflexivity|intros count n1].
    apply (run_same_tables (Personality count)).
  - apply bind_ext; [reflexivity|intros cr n1].
    apply bind_ext; [reflexivity|intros type n2].
    apply (run_same_tables (Treasure cr type)).
  - apply bind_ext; [reflexivity|intros climate n1].
    apply bind_ext; [reflexivity|intros season n2].
    apply (run_same_tables (Weather climate season)).
  - apply bind_ext; [reflexivity|intros theme n1].
    apply bind_ext; [reflexivity|intros level n2].
    apply (run_same_tables (PlotHook theme level)).
Qed.

(** X18 -- whatever the request holds, the worker reads the store through
    [fetchData] only, and only for the seven tables: two stores that
    answer alike for these seven files get the same response to every
    request.  No part of a request reaches the address that is fetched. *)
Theorem worker_reads_the_tables request n :
  Worker.fetch net rnd engine request n = Worker.fetch net' rnd engine request n.
Proof.
  unfold Worker.fetch.
  destruct (String.eqb (Worker.method request) "OPTIONS"); [reflexivity|].
  destruct (String.eqb (Worker.pathname request) "/mcp"
            && String.eqb (Worker.method request) "POST"); [|reflexivity].
  assert (Hsame : handleMCPRequest net rnd engine (Worker.json request) n
                  = handleMCPRequest net' rnd engine (Worker.json request) n);
    [|now rewrite Hsame].
  unfold handleMCPRequest.
  destruct (Worker.json request) as [body|e|]; cbn [and_then]; [|reflexivity..].
  destruct (get body "method") as [method|e|]; cbn [and_then]; [|reflexivity..].
  destruct (get body "params") as [params|e|]; cbn [and_then]; [|reflexivity..].
  destruct method as [| | | |name| |]; try reflexivity.
  destruct (String.eqb name "initialize"); [reflexivity|].
  destruct (String.eqb name "tools/list"); [reflexivity|].
  destruct (String.eqb name "tools/call"); [|reflexivity].
  unfold tools_call.
  destruct (get params "name") as [key|e|]; cbn [and_then]; [|reflexivity..].
  destruct (get params "arguments") as [args|e|]; cbn [and_then]; [|reflexivity..].
  destruct (to_string key) as [k|e|]; cbn [and_then]; [|reflexivity..].
  pose proof (tools_same_tables k) as Htools.
  destruct (own_prop k (tools net rnd)) as [tool|],
           (own_prop k (tools net' rnd)) as [tool'|];
    [|contradiction..|reflexivity].
  now rewrite Htools.
Qed.

End TableFacts.

Lemma worker_reads_the_tables_witness :
  Worker.fetch (serving "names.json" Sample.names) (Sample.always (1 # 2))
    sample_engine (post (call_request (NpcName "elf" "female"))) 0
  = Worker.fetch
      (fun url =>
         if String.eqb url "https://example.org/"
         then Some {| ok := true; statusText := "OK"; json := None |}
         else serving "names.json" Sample.names url)
      (Sample.always (1 # 2))
      sample_engine (post (call_request (NpcName "elf" "female"))) 0.
Proof.
  apply (worker_reads_the_tables (serving "names.json" Sample.names)
           (fun url =>
              if String.eqb url "https://example.org/"
              then Some {| ok := true; statusText := "OK"; json := None |}
              else serving "names.json" Sample.names url)
           (Sample.always (1 # 2)) sample_engine).
  intros filename Hin. unfold tables in Hin.
  repeat (apply elem_of_cons in Hin as [->|Hin]; [reflexivity|]).
  now apply elem_of_nil in Hin.
Defined.
